(** * Turboshaft graph storage: operation arena, blocks and graph

    A shallow embedding of [OperationBuffer], [Block] and [Graph] from
    V8's [src/compiler/turboshaft/graph.h], and the properties of the
    size table, of identifier stability, of the predecessor chain and
    of block binding that the design document states about them.
    Further sections embed the operation iterators of the graph, the
    inline functions of [Sweeper] ([src/heap/sweeper.h]) and the
    conservative stack visitor
    ([src/heap/conservative-stack-visitor.cc]), with properties read
    off the code.

    Conventions of the embedding.
    - Unsigned machine integers are [Z] with the wrap-around written
      out ([u16], [u32], [usize]).
    - An array handed out by the zone is a list of cells; a cell that
      has never been written is [None].  Reading such a cell, or
      reading or writing outside an array, has no defined result and
      the embedded function returns [None].
    - A pointer into the operation array is the distance, in slots, to
      [begin_]; a [Block*] is the position of the block in the block
      store, and a null pointer is [None].
    - [DCHECK]s are compiled out (release build); the one [CHECK], in
      [Grow], aborts and is modelled by [None]. *)

From Stdlib Require Import ZArith Lia.
From stdpp Require Import base numbers option list.

Local Open Scope Z_scope.

(** ** Machine integers *)

Definition u16 (z : Z) : Z := z mod 2 ^ 16.
Definition u32 (z : Z) : Z := z mod 2 ^ 32.
Definition usize (z : Z) : Z := z mod 2 ^ 64.

(** [std::numeric_limits<uint32_t>::max()] *)
Definition kMaxUInt32 : Z := 4294967295.

(** ** Storage slots, zones and raw arrays *)

(** [sizeof(OperationStorageSlot)]: the buffer is "an array of 8-byte
    [OperationStorageSlot] values". *)
Definition kSlotSize : Z := 8.

(** The content of one storage slot, a 64-bit word. *)
Definition slot : Type := Z.

(** A [Zone*]: only the identity of the zone matters here. *)
Definition Zone : Type := nat.

(** [zone->NewArray<T>(n)]: [n] cells, none of them written yet. *)
Definition NewArray {A : Type} (n : Z) : list (option A) :=
  replicate (Z.to_nat n) None.

(** [a[i]] as an rvalue. *)
Definition load {A : Type} (a : list (option A)) (i : Z) : option A :=
  if decide (0 ≤ i) then mjoin (a !! Z.to_nat i) else None.

(** [a[i] = v]. *)
Definition store {A : Type} (a : list (option A)) (i : Z) (v : A)
  : option (list (option A)) :=
  if decide (0 ≤ i < Z.of_nat (length a))
  then Some (<[Z.to_nat i := Some v]> a)
  else None.

(** [memcpy(dst, src, n * sizeof(T))] *)
Definition memcpy {A : Type} (dst src : list (option A)) (n : Z)
  : option (list (option A)) :=
  if decide (0 ≤ n ≤ Z.of_nat (length src) ∧ n ≤ Z.of_nat (length dst))
  then Some (take (Z.to_nat n) src ++ drop (Z.to_nat n) dst)
  else None.

(** Placement of an object image at slot [pos]. *)
Definition write_slots (a : list (option slot)) (pos : Z) (image : list slot)
  : option (list (option slot)) :=
  if decide (0 ≤ pos ∧ pos + Z.of_nat (length image) ≤ Z.of_nat (length a))
  then Some (take (Z.to_nat pos) a ++ (Some <$> image)
             ++ drop (Z.to_nat pos + length image) a)
  else None.

(** ** Indices *)

(** Modelled from the spec: [OpIndex] is declared with the
    operations, not in [graph.h].  The design document gives it as
    "an opaque handle encoding a byte offset into the arena",
    compared by offset, with a sentinel for "unset".  The constructor
    takes a [uint32_t]. *)
Record OpIndex := mkOpIndex { offset : Z }.

Definition OpIndex_new (off : Z) : OpIndex := mkOpIndex (u32 off).
Definition OpIndex_Invalid : OpIndex := mkOpIndex kMaxUInt32.
Definition OpIndex_valid (i : OpIndex) : bool :=
  negb (offset i =? offset OpIndex_Invalid).
Definition OpIndex_ltb (a b : OpIndex) : bool := offset a <? offset b.
Definition OpIndex_leb (a b : OpIndex) : bool := offset a <=? offset b.

(** Modelled from the spec: [OpIndex::id()], the index of an
    identifier in side tables such as the size table.  The constant
    [kSlotsPerId] is used by [graph.h] ([op_id_count],
    [op_id_capacity], the length of [operation_sizes_]) but defined
    elsewhere, so it is a parameter: an id covers [kSlotsPerId]
    consecutive slots. *)
Definition OpIndex_id (kSlotsPerId : Z) (i : OpIndex) : Z :=
  offset i / kSlotSize / kSlotsPerId.

(** Modelled from the spec: [BlockIndex], likewise declared elsewhere;
    a [uint32_t] position in the list of bound blocks with a sentinel
    for "not bound". *)
Record BlockIndex := mkBlockIndex { block_id : Z }.

Definition BlockIndex_new (i : Z) : BlockIndex := mkBlockIndex (u32 i).
Definition BlockIndex_Invalid : BlockIndex := mkBlockIndex kMaxUInt32.

#[global] Instance OpIndex_eq_dec : EqDecision OpIndex.
Proof. solve_decision. Defined.
#[global] Instance BlockIndex_eq_dec : EqDecision BlockIndex.
Proof. solve_decision. Defined.

(** ** The operation buffer *)

Module OperationBuffer.

(** [begin_] is the array itself; [end_] and [end_cap_] are the
    distances [end_ - begin_] and [end_cap_ - begin_] in slots. *)
Record t := mk {
  zone_ : Zone;
  begin_ : list (option slot);
  end_ : Z;
  end_cap_ : Z;
  operation_sizes_ : list (option Z)
}.

Definition with_end (e : Z) (b : t) : t :=
  mk (zone_ b) (begin_ b) e (end_cap_ b) (operation_sizes_ b).
Definition with_begin (a : list (option slot)) (b : t) : t :=
  mk (zone_ b) a (end_ b) (end_cap_ b) (operation_sizes_ b).
Definition with_operation_sizes (s : list (option Z)) (b : t) : t :=
  mk (zone_ b) (begin_ b) (end_ b) (end_cap_ b) s.

(** [ReplaceScope]'s members, [buffer_] apart: the buffer is passed
    to the constructor and to the destructor. *)
Record ReplaceScope := mkReplaceScope {
  replaced_ : OpIndex;
  old_end_ : Z;
  old_slot_count_ : Z
}.

Section WithSlotsPerId.
Variable kSlotsPerId : Z.

Local Abbreviation id := (OpIndex_id kSlotsPerId).

Definition new (zone : Zone) (initial_capacity : Z) : t :=
  mk zone (NewArray initial_capacity) 0 initial_capacity
     (NewArray (usize (initial_capacity + 1) / kSlotsPerId)).

Definition size (b : t) : Z := u32 (end_ b).
Definition capacity (b : t) : Z := u32 (end_cap_ b).

(** [Index(const OperationStorageSlot* ptr)] *)
Definition Index (b : t) (ptr : Z) : OpIndex :=
  OpIndex_new (usize (ptr * kSlotSize)).

Definition BeginIndex (b : t) : OpIndex := OpIndex_new 0.
Definition EndIndex (b : t) : OpIndex := Index b (end_ b).

(** [Get(OpIndex)]: the slot at byte [offset] after [begin_]. *)
Definition Get (b : t) (idx : OpIndex) : Z := offset idx / kSlotSize.

Definition SlotCount (b : t) (idx : OpIndex) : option Z :=
  load (operation_sizes_ b) (id idx).

(** The index expression shared by [Allocate] and [~ReplaceScope]:
    [OpIndex(idx.offset() + static_cast<uint32_t>(slot_count) *
    sizeof(OperationStorageSlot)).id() - 1]. *)
Definition last_id (idx : OpIndex) (slot_count : Z) : Z :=
  u32 (id (OpIndex_new (usize (offset idx + u32 slot_count * kSlotSize))) - 1).

Definition Next (b : t) (idx : OpIndex) : option OpIndex :=
  n ← load (operation_sizes_ b) (id idx);
  Some (OpIndex_new (usize (offset idx + n * kSlotSize))).

Definition Previous (b : t) (idx : OpIndex) : option OpIndex :=
  n ← load (operation_sizes_ b) (u32 (id idx - 1));
  Some (OpIndex_new (usize (offset idx - n * kSlotSize))).

(** [while (new_capacity < min_capacity) new_capacity *= 2;] on
    [size_t].  After 64 doublings the value is 0 for good, so a
    loop that has not left after [kGrowFuel] rounds never does. *)
Fixpoint grow_loop (fuel : nat) (new_capacity min_capacity : Z) : option Z :=
  if new_capacity <? min_capacity then
    match fuel with
    | O => None
    | S fuel' => grow_loop fuel' (usize (new_capacity * 2)) min_capacity
    end
  else Some new_capacity.

Definition kGrowFuel : nat := 65.

Definition Grow (min_capacity : Z) (b : t) : option t :=
  let size := size b in
  let capacity := capacity b in
  new_capacity ← grow_loop kGrowFuel (usize (2 * capacity)) min_capacity;
  if decide (new_capacity < kMaxUInt32 / kSlotSize) then
    new_buffer ← memcpy (NewArray new_capacity) (begin_ b) size;
    new_operation_sizes ←
      memcpy (NewArray (new_capacity / kSlotsPerId)) (operation_sizes_ b)
             (size / kSlotsPerId);
    Some (mk (zone_ b) new_buffer size new_capacity new_operation_sizes)
  else None.

Definition Allocate (slot_count : Z) (b : t) : option (Z * t) :=
  b1 ← (if decide (usize (end_cap_ b - end_ b) < slot_count)
        then Grow (usize (capacity b + slot_count)) b
        else Some b);
  let result := end_ b1 in
  let b2 := with_end (end_ b1 + slot_count) b1 in
  let idx := Index b2 result in
  s1 ← store (operation_sizes_ b2) (id idx) (u16 slot_count);
  s2 ← store s1 (last_id idx slot_count) (u16 slot_count);
  Some (result, with_operation_sizes s2 b2).

Definition RemoveLast (b : t) : option t :=
  slot_count ← load (operation_sizes_ b) (u32 (id (EndIndex b) - 1));
  Some (with_end (end_ b - slot_count) b).

Definition Reset (b : t) : t := with_end 0 b.

(** [ReplaceScope::ReplaceScope(buffer, replaced)] *)
Definition ReplaceScope_ctor (b : t) (replaced : OpIndex)
  : option (ReplaceScope * t) :=
  old_slot_count ← SlotCount b replaced;
  Some (mkReplaceScope replaced (end_ b) old_slot_count,
        with_end (Get b replaced) b).

(** [ReplaceScope::~ReplaceScope()] *)
Definition ReplaceScope_dtor (scope : ReplaceScope) (b : t) : option t :=
  let b1 := with_end (old_end_ scope) b in
  s1 ← store (operation_sizes_ b1) (id (replaced_ scope))
             (old_slot_count_ scope);
  s2 ← store s1 (last_id (replaced_ scope) (old_slot_count_ scope))
             (old_slot_count_ scope);
  Some (with_operation_sizes s2 b1).

End WithSlotsPerId.

End OperationBuffer.

(** ** Blocks *)

(** A [Block*]: the position of the block in the block store. *)
Abbreviation BlockPtr := nat (only parsing).

Module Block.

Inductive Kind := kMerge | kLoopHeader | kBranchTarget.

#[global] Instance Kind_eq_dec : EqDecision Kind.
Proof. solve_decision. Defined.

Record t := mk {
  kind_ : Kind;
  deferred_ : bool;
  begin_ : OpIndex;
  end_ : OpIndex;
  index_ : BlockIndex;
  last_predecessor_ : option BlockPtr;
  neighboring_predecessor_ : option BlockPtr
}.

(** [explicit Block(Kind kind)] with the default member initialisers. *)
Definition new (kind : Kind) : t :=
  mk kind false OpIndex_Invalid OpIndex_Invalid BlockIndex_Invalid None None.

Definition IsLoop (b : t) : bool := bool_decide (kind_ b = kLoopHeader).
Definition IsMerge (b : t) : bool := bool_decide (kind_ b = kMerge).
Definition IsLoopOrMerge (b : t) : bool := IsLoop b || IsMerge b.
Definition kind (b : t) : Kind := kind_ b.
Definition index (b : t) : BlockIndex := index_ b.
Definition IsDeferred (b : t) : bool := deferred_ b.
Definition SetDeferred (deferred : bool) (b : t) : t :=
  mk (kind_ b) deferred (begin_ b) (end_ b) (index_ b)
     (last_predecessor_ b) (neighboring_predecessor_ b).
Definition Contains (b : t) (op_idx : OpIndex) : bool :=
  OpIndex_leb (begin_ b) op_idx && OpIndex_ltb op_idx (end_ b).
Definition IsBound (b : t) : bool :=
  negb (bool_decide (index_ b = BlockIndex_Invalid)).
Definition HasPredecessors (b : t) : bool :=
  negb (bool_decide (last_predecessor_ b = None)).

Definition with_begin (i : OpIndex) (b : t) : t :=
  mk (kind_ b) (deferred_ b) i (end_ b) (index_ b)
     (last_predecessor_ b) (neighboring_predecessor_ b).
Definition with_end (i : OpIndex) (b : t) : t :=
  mk (kind_ b) (deferred_ b) (begin_ b) i (index_ b)
     (last_predecessor_ b) (neighboring_predecessor_ b).
Definition with_index (i : BlockIndex) (b : t) : t :=
  mk (kind_ b) (deferred_ b) (begin_ b) (end_ b) i
     (last_predecessor_ b) (neighboring_predecessor_ b).
Definition with_last_predecessor (p : option BlockPtr) (b : t) : t :=
  mk (kind_ b) (deferred_ b) (begin_ b) (end_ b) (index_ b)
     p (neighboring_predecessor_ b).
Definition with_neighboring_predecessor (p : option BlockPtr) (b : t) : t :=
  mk (kind_ b) (deferred_ b) (begin_ b) (end_ b) (index_ b)
     (last_predecessor_ b) p.

(** The zone memory that holds [Block] objects. *)
Abbreviation Store := (list (option t)) (only parsing).

(** [*p] *)
Definition deref (st : Store) (p : BlockPtr) : option t := mjoin (st !! p).

(** [this->AddPredecessor(predecessor)]; the two pointers may be the
    same block, so the second write reads the store again. *)
Definition AddPredecessor (this predecessor : BlockPtr) (st : Store)
  : option Store :=
  b ← deref st this;
  p ← deref st predecessor;
  let st1 :=
    <[predecessor := Some (with_neighboring_predecessor (last_predecessor_ b) p)]> st in
  b1 ← deref st1 this;
  Some (<[this := Some (with_last_predecessor (Some predecessor) b1)]> st1).

(** The loop of [Predecessors()], in visiting order.  A walk that
    ends visits no block twice, so it takes at most [length st]
    steps; a longer one is caught in a cycle and never ends. *)
Fixpoint chain (fuel : nat) (st : Store) (pred : option BlockPtr)
  : option (list BlockPtr) :=
  match pred with
  | None => Some []
  | Some p =>
      match fuel with
      | O => None
      | S fuel' =>
          b ← deref st p;
          rest ← chain fuel' st (neighboring_predecessor_ b);
          Some (p :: rest)
      end
  end.

Definition Predecessors (st : Store) (this : BlockPtr)
  : option (list BlockPtr) :=
  b ← deref st this;
  result ← chain (length st) st (last_predecessor_ b);
  Some (reverse result).

(** The loop of [Graph::Add(Block* block)] that computes [deferred]. *)
Fixpoint all_deferred (fuel : nat) (st : Store) (pred : option BlockPtr)
  : option bool :=
  match pred with
  | None => Some true
  | Some p =>
      match fuel with
      | O => None
      | S fuel' =>
          b ← deref st p;
          if negb (IsDeferred b) then Some false
          else all_deferred fuel' st (neighboring_predecessor_ b)
      end
  end.

End Block.

(** ** The graph *)

Module Graph.

#[local] Unset Elimination Schemes.
Inductive t := mk {
  operations_ : OperationBuffer.t;
  bound_blocks_ : list BlockPtr;
  all_blocks_ : list BlockPtr;
  next_block_ : Z;
  graph_zone_ : Zone;
  companion_ : option t
}.
#[local] Set Elimination Schemes.

Definition with_operations (o : OperationBuffer.t) (g : t) : t :=
  mk o (bound_blocks_ g) (all_blocks_ g) (next_block_ g) (graph_zone_ g)
     (companion_ g).
Definition with_bound_blocks (l : list BlockPtr) (g : t) : t :=
  mk (operations_ g) l (all_blocks_ g) (next_block_ g) (graph_zone_ g)
     (companion_ g).
Definition with_all_blocks (l : list BlockPtr) (g : t) : t :=
  mk (operations_ g) (bound_blocks_ g) l (next_block_ g) (graph_zone_ g)
     (companion_ g).
Definition with_next_block (n : Z) (g : t) : t :=
  mk (operations_ g) (bound_blocks_ g) (all_blocks_ g) n (graph_zone_ g)
     (companion_ g).
Definition with_companion (c : option t) (g : t) : t :=
  mk (operations_ g) (bound_blocks_ g) (all_blocks_ g) (next_block_ g)
     (graph_zone_ g) c.

Section WithSlotsPerId.
Variable kSlotsPerId : Z.

Definition new (graph_zone : Zone) (initial_capacity : Z) : t :=
  mk (OperationBuffer.new kSlotsPerId graph_zone initial_capacity)
     [] [] 0 graph_zone None.

Definition kDefaultInitialCapacity : Z := 2048.

Definition Reset (g : t) : t :=
  with_next_block 0
    (with_bound_blocks []
       (with_operations (OperationBuffer.Reset (operations_ g)) g)).

(** [Get(OpIndex)]: where the operation lives. *)
Definition Get (g : t) (i : OpIndex) : Z :=
  OperationBuffer.Get (operations_ g) i.

(** [Get(BlockIndex)] *)
Definition Get_block (g : t) (i : BlockIndex) : option BlockPtr :=
  bound_blocks_ g !! Z.to_nat (block_id i).

Definition Allocate (slot_count : Z) (g : t) : option (Z * t) :=
  '(ptr, o) ← OperationBuffer.Allocate kSlotsPerId slot_count (operations_ g);
  Some (ptr, with_operations o g).

Definition RemoveLast (g : t) : option t :=
  o ← OperationBuffer.RemoveLast kSlotsPerId (operations_ g);
  Some (with_operations o g).

Definition next_operation_index (g : t) : OpIndex :=
  OperationBuffer.EndIndex (operations_ g).

(** Modelled from the spec: [Op::New(graph, args...)] is defined
    with the operations, not in [graph.h].  An operation kind
    "report[s] the number of storage units it needs" and
    "construct[s] itself into a caller-supplied storage run"; here
    an operation is given by the image it leaves in its run, and
    the run is obtained through [AllocateOpStorage]. *)
Definition Op_New (image : list slot) (g : t) : option (Z * t) :=
  '(ptr, g1) ← Allocate (Z.of_nat (length image)) g;
  a ← write_slots (OperationBuffer.begin_ (operations_ g1)) ptr image;
  Some (ptr, with_operations (OperationBuffer.with_begin a (operations_ g1)) g1).

(** [Add<Op>(args...)] *)
Definition Add_op (image : list slot) (g : t) : option (OpIndex * t) :=
  let result := next_operation_index g in
  '(_, g1) ← Op_New image g;
  Some (result, g1).

(** [Replace<Op>(replaced, args...)] *)
Definition Replace (replaced : OpIndex) (image : list slot) (g : t)
  : option t :=
  '(replace_scope, o) ←
    OperationBuffer.ReplaceScope_ctor kSlotsPerId (operations_ g) replaced;
  '(_, g1) ← Op_New image (with_operations o g);
  o1 ← OperationBuffer.ReplaceScope_dtor kSlotsPerId replace_scope
         (operations_ g1);
  Some (with_operations o1 g1).

Definition new_block_count : Z := 64.

Definition NewBlock (kind : Block.Kind) (g : t) (st : Block.Store)
  : option (BlockPtr * t * Block.Store) :=
  let '(g1, st1) :=
    if decide (next_block_ g = Z.of_nat (length (all_blocks_ g))) then
      let blocks := length st in
      (with_all_blocks
         (all_blocks_ g ++ seq blocks (Z.to_nat new_block_count)) g,
       st ++ NewArray new_block_count)
    else (g, st) in
  result ← all_blocks_ g1 !! Z.to_nat (next_block_ g1);
  if decide (result < length st1)%nat then
    Some (result,
          with_next_block (usize (next_block_ g1 + 1)) g1,
          <[result := Some (Block.new kind)]> st1)
  else None.

(** [Add(Block* block)] *)
Definition Add (block : BlockPtr) (g : t) (st : Block.Store)
  : option (bool * t * Block.Store) :=
  b ← Block.deref st block;
  if negb (bool_decide (bound_blocks_ g = []))
     && negb (Block.HasPredecessors b)
  then Some (false, g, st)
  else
    deferred ← Block.all_deferred (length st) st (Block.last_predecessor_ b);
    let b1 := Block.SetDeferred deferred b in
    let b2 := Block.with_begin (next_operation_index g) b1 in
    let b3 :=
      Block.with_index
        (BlockIndex_new (Z.of_nat (length (bound_blocks_ g)))) b2 in
    Some (true,
          with_bound_blocks (bound_blocks_ g ++ [block]) g,
          <[block := Some b3]> st).

Definition Finalize (block : BlockPtr) (g : t) (st : Block.Store)
  : option Block.Store :=
  b ← Block.deref st block;
  Some (<[block := Some (Block.with_end (next_operation_index g) b)]> st).

Definition block_count (g : t) : Z :=
  u32 (Z.of_nat (length (bound_blocks_ g))).
Definition op_id_count (g : t) : Z :=
  u32 (usize (OperationBuffer.size (operations_ g) + (kSlotsPerId - 1))
       / kSlotsPerId).
Definition op_id_capacity (g : t) : Z :=
  u32 (OperationBuffer.capacity (operations_ g) / kSlotsPerId).

Definition IsValid (g : t) (i : OpIndex) : bool :=
  OpIndex_ltb i (next_operation_index g).

(** [GetOrCreateCompanion()]: the companion, and this graph with
    the companion in place. *)
Definition GetOrCreateCompanion (g : t) : t * t :=
  match companion_ g with
  | Some c => (c, g)
  | None =>
      let c := new (graph_zone_ g) (OperationBuffer.size (operations_ g)) in
      (c, with_companion (Some c) g)
  end.

(** [SwapWithCompanion()]: five [std::swap]s between this graph
    and the graph its [companion_] owns. *)
Definition SwapWithCompanion (g : t) : t :=
  let '(companion, g1) := GetOrCreateCompanion g in
  mk (operations_ companion) (bound_blocks_ companion)
     (all_blocks_ companion) (next_block_ companion)
     (graph_zone_ companion)
     (Some (mk (operations_ g1) (bound_blocks_ g1) (all_blocks_ g1)
               (next_block_ g1) (graph_zone_ g1) (companion_ companion))).

End WithSlotsPerId.

End Graph.

(** ** The layout of the arena

    The state of an operation buffer is described by the lengths of
    the runs it holds, in allocation order. *)

Section ArenaLayout.
Variable kSlotsPerId : Z.

(** A run length the size table can record: "an operation occupies
    1..65535 contiguous units", and at least one whole id. *)
Definition valid_slot_count (k : Z) : Prop :=
  1 ≤ k ∧ kSlotsPerId ≤ k ∧ k ≤ 65535.

Definition total (runs : list Z) : Z := foldr Z.add 0 runs.

(** The identifier of the run that starts at slot [s]. *)
Definition id_of_slot (s : Z) : OpIndex := mkOpIndex (s * kSlotSize).

Fixpoint run_ids (s : Z) (runs : list Z) : list OpIndex :=
  match runs with
  | [] => []
  | k :: rest => id_of_slot s :: run_ids (s + k) rest
  end.

(** The size table holds [k] at both endpoint ids of the run at [idx]. *)
Definition run_recorded (sizes : list (option Z)) (idx : OpIndex) (k : Z)
  : Prop :=
  load sizes (OpIndex_id kSlotsPerId idx) = Some k ∧
  load sizes (OperationBuffer.last_id kSlotsPerId idx k) = Some k.

Fixpoint runs_recorded (sizes : list (option Z)) (s : Z) (runs : list Z)
  : Prop :=
  match runs with
  | [] => True
  | k :: rest =>
      valid_slot_count k ∧ run_recorded sizes (id_of_slot s) k ∧
      runs_recorded sizes (s + k) rest
  end.

Record arena_inv (b : OperationBuffer.t) (runs : list Z) : Prop := {
  inv_end : OperationBuffer.end_ b = total runs;
  inv_cap : OperationBuffer.end_ b ≤ OperationBuffer.end_cap_ b;
  inv_len : OperationBuffer.end_cap_ b
            = Z.of_nat (length (OperationBuffer.begin_ b));
  inv_ceiling : OperationBuffer.end_cap_ b < kMaxUInt32 / kSlotSize;
  inv_sizes_len : OperationBuffer.end_cap_ b / kSlotsPerId
                  ≤ Z.of_nat (length (OperationBuffer.operation_sizes_ b));
  inv_runs : runs_recorded (OperationBuffer.operation_sizes_ b) 0 runs
}.

(** A sequence of [Allocate] calls and the identifiers they issue
    ([Graph::Add] returns [Index] of the allocated storage). *)
Fixpoint allocate_all (ks : list Z) (b : OperationBuffer.t)
  : option (list OpIndex * OperationBuffer.t) :=
  match ks with
  | [] => Some ([], b)
  | k :: rest =>
      '(ptr, b1) ← OperationBuffer.Allocate kSlotsPerId k b;
      '(ids, b2) ← allocate_all rest b1;
      Some (OperationBuffer.Index b1 ptr :: ids, b2)
  end.

(** What a reader finds behind an identifier: the slots of its run. *)
Definition record_at (b : OperationBuffer.t) (idx : OpIndex)
  : option (list (option slot)) :=
  n ← OperationBuffer.SlotCount kSlotsPerId b idx;
  Some (take (Z.to_nat n)
          (drop (Z.to_nat (OperationBuffer.Get b idx))
             (OperationBuffer.begin_ b))).

End ArenaLayout.

(** The store in which the chains stop after the first block that is
    not deferred: what the loop of [Graph::Add(Block* block)] sees of
    the chains. *)
Definition stop_after_non_deferred (st : list (option Block.t))
  : list (option Block.t) :=
  fmap (M := list)
    (fmap (M := option)
       (λ b, if Block.IsDeferred b then b
             else Block.with_neighboring_predecessor None b)) st.

(** ** Callers of the block and graph interface *)

(** [this->AddPredecessor(p)] for each [p] of [preds], in order. *)
Fixpoint add_predecessors (this : BlockPtr) (preds : list BlockPtr)
    (st : Block.Store) : option Block.Store :=
  match preds with
  | [] => Some st
  | p :: rest =>
      st1 ← Block.AddPredecessor this p st;
      add_predecessors this rest st1
  end.

(** Whether the block behind [q] is flagged deferred. *)
Definition deferred_at (st : Block.Store) (q : BlockPtr) : bool :=
  match Block.deref st q with
  | Some b => Block.IsDeferred b
  | None => false
  end.

(** The calls a phase makes while it builds the blocks of a graph. *)
Inductive call :=
| CallNewBlock (kind : Block.Kind)
| CallAdd (block : BlockPtr)
| CallAddPredecessor (block predecessor : BlockPtr)
| CallSetDeferred (block : BlockPtr) (deferred : bool)
| CallFinalize (block : BlockPtr)
| CallAddOp (image : list slot)
| CallReset.

Section Calls.
Variable kSlotsPerId : Z.

Definition run_call (c : call) (g : Graph.t) (st : Block.Store)
  : option (Graph.t * Block.Store) :=
  match c with
  | CallNewBlock kind =>
      '(_, g', st') ← Graph.NewBlock kind g st; Some (g', st')
  | CallAdd block =>
      '(_, g', st') ← Graph.Add block g st; Some (g', st')
  | CallAddPredecessor block predecessor =>
      st' ← Block.AddPredecessor block predecessor st; Some (g, st')
  | CallSetDeferred block deferred =>
      b ← Block.deref st block;
      Some (g, <[block := Some (Block.SetDeferred deferred b)]> st)
  | CallFinalize block =>
      st' ← Graph.Finalize block g st; Some (g, st')
  | CallAddOp image =>
      '(_, g') ← Graph.Add_op kSlotsPerId image g; Some (g', st)
  | CallReset => Some (Graph.Reset g, st)
  end.

Fixpoint run_calls (cs : list call) (g : Graph.t) (st : Block.Store)
  : option (Graph.t * Block.Store) :=
  match cs with
  | [] => Some (g, st)
  | c :: rest =>
      '(g', st') ← run_call c g st;
      run_calls rest g' st'
  end.

(** A block is live when [NewBlock] has handed it out since the
    last [Reset]. *)
Definition live (g : Graph.t) (p : BlockPtr) : Prop :=
  ∃ n : nat, Z.of_nat n < Graph.next_block_ g ∧ Graph.all_blocks_ g !! n = Some p.

(** What [Add(Block* block)] asks of its caller: the block comes from
    this graph and is not bound yet ([DCHECK_EQ(block->index_,
    BlockIndex::Invalid())]). *)
Definition call_ok (c : call) (g : Graph.t) (st : Block.Store) : Prop :=
  match c with
  | CallAdd block =>
      live g block ∧
      ∃ b, Block.deref st block = Some b ∧ Block.IsBound b = false
  | _ => True
  end.

Fixpoint calls_ok (cs : list call) (g : Graph.t) (st : Block.Store) : Prop :=
  match cs with
  | [] => True
  | c :: rest =>
      call_ok c g st ∧
      match run_call c g st with
      | Some (g', st') => calls_ok rest g' st'
      | None => True
      end
  end.

End Calls.

(** The pool of block objects: distinct pointers to allocated cells,
    and a cursor inside it. *)
Record pool_wf (g : Graph.t) (st : Block.Store) : Prop := {
  pool_nodup : NoDup (Graph.all_blocks_ g);
  pool_allocated : Forall (λ p, (p < length st)%nat) (Graph.all_blocks_ g);
  pool_cursor : 0 ≤ Graph.next_block_ g ≤ Z.of_nat (length (Graph.all_blocks_ g))
}.

(** Every block of the bound list stores its own position. *)
Definition bound_blocks_indexed (g : Graph.t) (st : Block.Store) : Prop :=
  ∀ (i : nat) (p : BlockPtr),
    Graph.bound_blocks_ g !! i = Some p →
    ∃ b, Block.deref st p = Some b ∧
         Block.index b = mkBlockIndex (Z.of_nat i).

Record graph_wf (g : Graph.t) (st : Block.Store) : Prop := {
  wf_pool : pool_wf g st;
  wf_bound_live : Forall (live g) (Graph.bound_blocks_ g);
  wf_indexed : bound_blocks_indexed g st
}.

(** ** Three statements of the design document, as they are written *)

(** "[deferred] ... true iff the block has at least one predecessor
    and all of them are deferred". *)
Definition deferred_iff_some_and_all_predecessors_deferred : Prop :=
  ∀ g st p ps g' st' b',
    Block.Predecessors st p = Some ps →
    Graph.Add p g st = Some (true, g', st') →
    Block.deref st' p = Some b' →
    (Block.IsDeferred b' = true ↔
     ps ≠ [] ∧ Forall (λ q, deferred_at st q = true) ps).

(** "the public predecessor accessor must return predecessors in the
    order [add_predecessor] was called", for every sequence of calls
    on a block fresh from [NewBlock]. *)
Definition predecessors_in_call_order_for_every_sequence : Prop :=
  ∀ st this b preds st',
    Block.deref st this = Some b → Block.last_predecessor_ b = None →
    Forall (λ p, is_Some (Block.deref st p)) preds →
    add_predecessors this preds st = Some st' →
    Block.Predecessors st' this = Some preds.

(** "[swap_with_companion()] applied twice with no intervening
    mutation restores the original graph to bit-identical internal
    state". *)
Definition swap_twice_is_identity : Prop :=
  ∀ kSlotsPerId g,
    Graph.SwapWithCompanion kSlotsPerId
      (Graph.SwapWithCompanion kSlotsPerId g) = g.

(** ** Iteration over operations and blocks *)

Module OperationIterator.

(** [index_]; the graph behind [graph_] is passed to each operation. *)
Record t := mk { index_ : OpIndex }.

(** [operator!=] *)
Definition neq (a b : t) : bool := negb (bool_decide (index_ a = index_ b)).

(** [Index()] *)
Definition Index (it : t) : OpIndex := index_ it.

Section WithSlotsPerId.
Variable kSlotsPerId : Z.

(** [operator++] *)
Definition incr (g : Graph.t) (it : t) : option t :=
  idx ← OperationBuffer.Next kSlotsPerId (Graph.operations_ g) (index_ it);
  Some (mk idx).

(** [operator--] *)
Definition decr (g : Graph.t) (it : t) : option t :=
  idx ← OperationBuffer.Previous kSlotsPerId (Graph.operations_ g) (index_ it);
  Some (mk idx).

(** [for (it = first; it != last; ++it)] over a range of the graph,
    collecting [it.Index()].  The loop ends when it meets [last];
    nothing in the iterator bounds the number of rounds. *)
Fixpoint forward (fuel : nat) (g : Graph.t) (it last : t)
  : option (list OpIndex) :=
  if neq it last then
    match fuel with
    | O => None
    | S fuel' =>
        it' ← incr g it;
        rest ← forward fuel' g it' last;
        Some (Index it :: rest)
    end
  else Some [].

(** [for (it = last; it != first;) { --it; ... }], the same range
    walked from its end, collecting [it.Index()]. *)
Fixpoint backward (fuel : nat) (g : Graph.t) (first it : t)
  : option (list OpIndex) :=
  if neq it first then
    match fuel with
    | O => None
    | S fuel' =>
        it' ← decr g it;
        rest ← backward fuel' g first it';
        Some (Index it' :: rest)
    end
  else Some [].

End WithSlotsPerId.

End OperationIterator.

Module GraphRanges.

(** [operations(OpIndex begin, OpIndex end)]: the two iterators of
    the range. *)
Definition operations (first last : OpIndex)
  : OperationIterator.t * OperationIterator.t :=
  (OperationIterator.mk first, OperationIterator.mk last).

(** [AllOperations()] *)
Definition AllOperations (g : Graph.t)
  : OperationIterator.t * OperationIterator.t :=
  operations (OperationBuffer.BeginIndex (Graph.operations_ g))
             (OperationBuffer.EndIndex (Graph.operations_ g)).

(** [operations(const Block& block)] *)
Definition operations_of_block (b : Block.t)
  : OperationIterator.t * OperationIterator.t :=
  operations (Block.begin_ b) (Block.end_ b).

(** [StartBlock()] *)
Definition StartBlock (g : Graph.t) : option BlockPtr :=
  Graph.Get_block g (BlockIndex_new 0).

(** [blocks()]: the bound blocks, dereferenced, in binding order. *)
Definition blocks (g : Graph.t) (st : Block.Store) : list (option Block.t) :=
  Block.deref st <$> Graph.bound_blocks_ g.

(** [InputsValid(op)], on the list [op.inputs()]. *)
Fixpoint InputsValid (g : Graph.t) (inputs : list OpIndex) : bool :=
  match inputs with
  | [] => true
  | i :: rest => if negb (Graph.IsValid g i) then false else InputsValid g rest
  end.

(** [AllocateOpStorage(graph, slot_count)] *)
Definition AllocateOpStorage (kSlotsPerId : Z) (g : Graph.t) (slot_count : Z)
  : option (Z * Graph.t) :=
  Graph.Allocate kSlotsPerId slot_count g.

End GraphRanges.

(** [Add<Op>(args...)] for each image of [images], in order, with the
    identifiers returned. *)
Fixpoint add_ops (kSlotsPerId : Z) (images : list (list slot)) (g : Graph.t)
  : option (list OpIndex * Graph.t) :=
  match images with
  | [] => Some ([], g)
  | image :: rest =>
      '(idx, g1) ← Graph.Add_op kSlotsPerId image g;
      '(ids, g2) ← add_ops kSlotsPerId rest g1;
      Some (idx :: ids, g2)
  end.

(** ** The conservative stack visitor

    [ConservativeStackVisitor] of
    [src/heap/conservative-stack-visitor.cc].  The pages, the
    object-start bitmap, the objects and the delegate are declared in
    other files; what the visitor asks of them is taken as
    parameters. *)

Module ConservativeStackVisitor.

(** What the visitor reads of a [MemoryChunk]; [chunk] tells the
    pages apart. *)
Record MemoryChunk := mkMemoryChunk {
  chunk : nat;
  area_start : Z;
  area_end : Z
}.

Section Visitor.
(** [kNullAddress] *)
Variable kNullAddress : Z.
(** [page->object_start_bitmap()->FindBasePtr(address)] *)
Variable FindBasePtr : MemoryChunk → Z → Z.
(** [HeapObject::FromAddress(base_ptr).Size()] *)
Variable Size : Z → Z.
(** [page->GetObject()] of a large page, as the address of the object. *)
Variable GetObject : MemoryChunk → Z.
(** The state of the delegate and its
    [VisitRootPointer(Root::kHandleScope, nullptr, slot)], for the
    object the slot holds. *)
Variable Delegate : Type.
Variable VisitRootPointer : Z → Delegate → Delegate.

Definition CheckPage (address : Z) (page : MemoryChunk) (d : Delegate)
  : bool * Delegate :=
  if decide (address < area_start page ∨ area_end page ≤ address)
  then (false, d)
  else
    let base_ptr := FindBasePtr page address in
    if decide (base_ptr = kNullAddress) then (false, d)
    else
      let obj_end := usize (base_ptr + Size base_ptr) in
      if decide (obj_end ≤ address) then (false, d)
      else (true, VisitRootPointer base_ptr d).

(** The loop over the large pages. *)
Fixpoint visit_lo_space (address : Z) (lo_space : list MemoryChunk)
    (d : Delegate) : Delegate :=
  match lo_space with
  | [] => d
  | page :: rest =>
      if decide (area_start page ≤ address ∧ address < area_end page)
      then VisitRootPointer (GetObject page) d
      else visit_lo_space address rest d
  end.

(** The loop over the pages of the old space, then the large pages. *)
Fixpoint visit_old_space (address : Z) (old_space lo_space : list MemoryChunk)
    (d : Delegate) : Delegate :=
  match old_space with
  | [] => visit_lo_space address lo_space d
  | page :: rest =>
      let '(found, d1) := CheckPage address page d in
      if found then d1 else visit_old_space address rest lo_space d1
  end.

(** [VisitConservativelyIfPointer(pointer)], given the pages of
    [isolate_->heap()->old_space()] and [lo_space()] in iteration
    order. *)
Definition VisitConservativelyIfPointer (old_space lo_space : list MemoryChunk)
    (pointer : Z) (d : Delegate) : Delegate :=
  let address := pointer in
  visit_old_space address old_space lo_space d.

(** [VisitPointer(pointer)] *)
Definition VisitPointer (old_space lo_space : list MemoryChunk)
    (pointer : Z) (d : Delegate) : Delegate :=
  VisitConservativelyIfPointer old_space lo_space pointer d.

End Visitor.

End ConservativeStackVisitor.

(** ** The sweeper's lists of pages

    The inline functions of [Sweeper] in [src/heap/sweeper.h].  The
    enumeration [AllocationSpace] is declared in
    [src/common/globals.h]; the enumerators the sweeper names are
    parameters.  A [Page*] is a number; an array indexed outside its
    bounds has no defined content. *)

Module Sweeper.

Definition Page : Type := nat.
Definition SweepingList : Type := list Page.

(** [a[i]] for an array of lists. *)
Definition at_index (a : list SweepingList) (i : Z) : option SweepingList :=
  if decide (0 ≤ i) then a !! Z.to_nat i else None.

(** [a[i].push_back(page)] *)
Definition push_back_at (a : list SweepingList) (i : Z) (page : Page)
  : option (list SweepingList) :=
  l ← at_index a i;
  Some (<[Z.to_nat i := l ++ [page]]> a).

(** What [FilterSweepingPagesScope] holds, [sweeper_] apart. *)
Record FilterSweepingPagesScope := mkFilterSweepingPagesScope {
  old_space_sweeping_list_ : SweepingList;
  sweeping_in_progress_ : bool
}.

Section Spaces.
Variables OLD_SPACE CODE_SPACE MAP_SPACE NEW_SPACE RO_SPACE : Z.
Variables FIRST_GROWABLE_PAGED_SPACE LAST_GROWABLE_PAGED_SPACE : Z.

Definition kNumberOfSweepingSpaces : Z :=
  LAST_GROWABLE_PAGED_SPACE - FIRST_GROWABLE_PAGED_SPACE + 1.

Definition kMaxSweeperTasks : Z := 3.

Definition IsValidIterabilitySpace (space : Z) : bool :=
  bool_decide (space = NEW_SPACE) || bool_decide (space = RO_SPACE).

Definition IsValidSweepingSpace (space : Z) : bool :=
  (FIRST_GROWABLE_PAGED_SPACE <=? space)
  && (space <=? LAST_GROWABLE_PAGED_SPACE).

Definition GetSweepSpaceIndex (space : Z) : Z :=
  space - FIRST_GROWABLE_PAGED_SPACE.

(** [ForAllSweepingSpaces(callback)]: the callback runs on the three
    spaces in this order; [S] is the state it captures. *)
Definition ForAllSweepingSpaces {S : Type} (callback : Z → S → S) (s : S) : S :=
  callback MAP_SPACE (callback CODE_SPACE (callback OLD_SPACE s)).

(** [IsDoneSweeping()]; the lambda captures [is_done]. *)
Definition IsDoneSweeping (sweeping_list_ : list SweepingList) : option bool :=
  ForAllSweepingSpaces
    (λ space is_done,
       d ← is_done;
       l ← at_index sweeping_list_ (GetSweepSpaceIndex space);
       Some (if negb (bool_decide (l = [])) then false else d))
    (Some true).

(** The loop of [FilterOldSpaceSweepingPages] from [it] on; the
    callback may change the state [S] it captures. *)
Fixpoint filter_loop {S : Type} (callback : Page → S → bool * S)
    (it : SweepingList) (sweeping_list_ : list SweepingList) (s : S)
  : option (list SweepingList * S) :=
  match it with
  | [] => Some (sweeping_list_, s)
  | page :: rest =>
      let '(keep, s1) := callback page s in
      lists1 ← (if keep
                then push_back_at sweeping_list_
                       (GetSweepSpaceIndex OLD_SPACE) page
                else Some sweeping_list_);
      filter_loop callback rest lists1 s1
  end.

(** [FilterSweepingPagesScope::FilterOldSpaceSweepingPages(callback)],
    on the [sweeping_list_] of the sweeper. *)
Definition FilterOldSpaceSweepingPages {S : Type}
    (callback : Page → S → bool * S) (scope : FilterSweepingPagesScope)
    (sweeping_list_ : list SweepingList) (s : S)
  : option (list SweepingList * S) :=
  if negb (sweeping_in_progress_ scope) then Some (sweeping_list_, s)
  else filter_loop callback (old_space_sweeping_list_ scope) sweeping_list_ s.

End Spaces.

End Sweeper.

(** ** Five more statements of the design document, as they are written

    The design document counts the storage in units and lets "an
    operation occup[y] 1..65535 contiguous units"; it does not name
    the number of units an id covers, which is the parameter
    [kSlotsPerId] here. *)

Definition spec_slot_count (k : Z) : Prop := 1 ≤ k ≤ 65535.

(** The identifier of the last unit of the run of [k] units at [i]. *)
Definition last_unit (i : OpIndex) (k : Z) : OpIndex :=
  mkOpIndex (offset i + (k - 1) * kSlotSize).

Section StatementsAsWritten.
Variable kSlotsPerId : Z.

(** "For any sequence of [add] calls producing identifiers
    [id_0 < id_1 < ... < id_{n-1}]: [next(id_k) == id_{k+1}] for all
    k<n-1, and [previous(id_{k+1}) == id_k]." *)
Definition next_previous_link_every_sequence : Prop :=
  ∀ zone cap ks ids b (j : nat) a c,
    0 ≤ cap < kMaxUInt32 / kSlotSize →
    Forall spec_slot_count ks →
    allocate_all kSlotsPerId ks (OperationBuffer.new kSlotsPerId zone cap)
    = Some (ids, b) →
    ids !! j = Some a → ids !! S j = Some c →
    OperationBuffer.Next kSlotsPerId b a = Some c ∧
    OperationBuffer.Previous kSlotsPerId b c = Some a.

(** "For a run of length k starting at identifier i, the size table
    holds k at slot-id(i) and at slot-id(i+k-1)", "for every run in
    the arena after any sequence of allocations". *)
Definition length_at_first_and_last_unit : Prop :=
  ∀ zone cap ks ids b (j : nat) i k,
    0 ≤ cap < kMaxUInt32 / kSlotSize →
    Forall spec_slot_count ks →
    allocate_all kSlotsPerId ks (OperationBuffer.new kSlotsPerId zone cap)
    = Some (ids, b) →
    ids !! j = Some i → ks !! j = Some k →
    OperationBuffer.SlotCount kSlotsPerId b i = Some k ∧
    OperationBuffer.SlotCount kSlotsPerId b (last_unit i k) = Some k.

(** "for any identifier obtained before a growth-triggering
    [allocate], a subsequent [get] on that identifier after growth
    returns a record byte-equal to before growth". *)
Definition growth_keeps_every_record : Prop :=
  ∀ zone cap ks ids b k ptr b' idx,
    0 ≤ cap < kMaxUInt32 / kSlotSize →
    Forall spec_slot_count ks → spec_slot_count k →
    allocate_all kSlotsPerId ks (OperationBuffer.new kSlotsPerId zone cap)
    = Some (ids, b) →
    OperationBuffer.end_cap_ b - OperationBuffer.end_ b < k →
    OperationBuffer.Allocate kSlotsPerId k b = Some (ptr, b') →
    idx ∈ ids →
    record_at kSlotsPerId b' idx = record_at kSlotsPerId b idx.

(** "Replacement may only write a run whose slot count ≤ the run it
    replaces; the table entries for the original length are preserved
    at both ends after replacement", and "[next]/[previous] stepping
    across [id]'s run from either side returns the same identifiers as
    before the replacement". *)
Definition replace_keeps_every_step : Prop :=
  ∀ zone cap images ids g (j : nat) replaced original image g' idx,
    0 ≤ cap < kMaxUInt32 / kSlotSize →
    Forall (λ im, spec_slot_count (Z.of_nat (length im))) images →
    add_ops kSlotsPerId images (Graph.new kSlotsPerId zone cap)
    = Some (ids, g) →
    ids !! j = Some replaced → images !! j = Some original →
    1 ≤ Z.of_nat (length image) ≤ Z.of_nat (length original) →
    Graph.Replace kSlotsPerId replaced image g = Some g' →
    idx ∈ ids →
    OperationBuffer.SlotCount kSlotsPerId (Graph.operations_ g') replaced
    = Some (Z.of_nat (length original)) ∧
    OperationBuffer.SlotCount kSlotsPerId (Graph.operations_ g')
      (last_unit replaced (Z.of_nat (length original)))
    = Some (Z.of_nat (length original)) ∧
    OperationBuffer.end_ (Graph.operations_ g')
    = OperationBuffer.end_ (Graph.operations_ g) ∧
    OperationBuffer.Next kSlotsPerId (Graph.operations_ g') idx
    = OperationBuffer.Next kSlotsPerId (Graph.operations_ g) idx ∧
    OperationBuffer.Previous kSlotsPerId (Graph.operations_ g') idx
    = OperationBuffer.Previous kSlotsPerId (Graph.operations_ g) idx.

End StatementsAsWritten.

(** "[add(block)] returns false when [block] is not the first bound
    block and has no predecessors; returns true and assigns a new,
    strictly-increasing [BlockIndex] otherwise", for every block of a
    graph that a phase has built and not bound yet. *)
Definition add_returns_false_or_binds : Prop :=
  ∀ kSlotsPerId zone cap cs g st p b,
    run_calls kSlotsPerId cs (Graph.new kSlotsPerId zone cap) []
    = Some (g, st) →
    calls_ok kSlotsPerId cs (Graph.new kSlotsPerId zone cap) [] →
    live g p → Block.deref st p = Some b → Block.IsBound b = false →
    ∃ r g' st',
      Graph.Add p g st = Some (r, g', st') ∧
      (r = false ↔
       Graph.bound_blocks_ g ≠ [] ∧ Block.Predecessors st p = Some []) ∧
      (r = true →
       ∃ b', Block.deref st' p = Some b' ∧
             Block.index b'
             = mkBlockIndex (Z.of_nat (length (Graph.bound_blocks_ g)))).

(** * Properties *)

(** ** Machine integers and raw arrays *)

Lemma u16_small z : 0 ≤ z < 65536 → u16 z = z.
Proof. intros. unfold u16. apply Z.mod_small. lia. Qed.

Lemma u32_small z : 0 ≤ z < 4294967296 → u32 z = z.
Proof. intros. unfold u32. apply Z.mod_small. lia. Qed.

Lemma usize_small z : 0 ≤ z < 18446744073709551616 → usize z = z.
Proof. intros. unfold usize. apply Z.mod_small. lia. Qed.

Lemma ceiling_eq : kMaxUInt32 / kSlotSize = 536870911.
Proof. reflexivity. Qed.

Lemma load_store_eq {A} (a a' : list (option A)) i v :
  store a i v = Some a' → load a' i = Some v.
Proof.
  unfold store, load. intros H.
  destruct (decide (0 ≤ i < Z.of_nat (length a))) as [Hi|]; [|done].
  injection H as <-.
  rewrite decide_True by lia.
  rewrite list_lookup_insert_eq by lia. done.
Qed.

Lemma load_store_ne {A} (a a' : list (option A)) i j v :
  store a i v = Some a' → i ≠ j → load a' j = load a j.
Proof.
  unfold store, load. intros H Hne.
  destruct (decide (0 ≤ i < Z.of_nat (length a))) as [Hi|]; [|done].
  injection H as <-.
  destruct (decide (0 ≤ j)); [|done].
  rewrite list_lookup_insert_ne by lia. done.
Qed.

Lemma store_length {A} (a a' : list (option A)) i v :
  store a i v = Some a' → length a' = length a.
Proof.
  unfold store. intros H.
  destruct (decide (0 ≤ i < Z.of_nat (length a))); [|done].
  injection H as <-. apply length_insert.
Qed.

Lemma store_in_range {A} (a : list (option A)) i v :
  0 ≤ i < Z.of_nat (length a) → ∃ a', store a i v = Some a'.
Proof. intros H. unfold store. rewrite decide_True by done. eauto. Qed.

(** ** The operation buffer *)

Section ArenaFacts.
Variable kSlotsPerId : Z.
Hypothesis kSlotsPerId_pos : 0 < kSlotsPerId.

Local Abbreviation K := kSlotsPerId.
Local Abbreviation valid := (valid_slot_count kSlotsPerId).
Local Abbreviation inv := (arena_inv kSlotsPerId).

(** *** Ids of slots *)

Lemma ids_mono a b : a ≤ b → a / K ≤ b / K.
Proof. intros. apply Z.div_le_mono; lia. Qed.

Lemma ids_step a b : a + K ≤ b → a / K + 1 ≤ b / K.
Proof.
  intros H. replace (a / K + 1) with ((a + 1 * K) / K).
  - apply Z.div_le_mono; lia.
  - rewrite Z.div_add by lia. done.
Qed.

Lemma ids_nonneg a : 0 ≤ a → 0 ≤ a / K.
Proof. intros. apply Z.div_pos; lia. Qed.

Lemma id_of_slot_id s : OpIndex_id K (id_of_slot s) = s / K.
Proof.
  unfold OpIndex_id, id_of_slot, kSlotSize. simpl.
  rewrite Z.div_mul by lia. done.
Qed.

Lemma Index_slot b s :
  0 ≤ s < kMaxUInt32 / kSlotSize → OperationBuffer.Index b s = id_of_slot s.
Proof.
  unfold kMaxUInt32, kSlotSize. change (4294967295 / 8) with 536870911.
  intros H. unfold OperationBuffer.Index, OpIndex_new, id_of_slot, kSlotSize.
  rewrite usize_small by lia. rewrite u32_small by lia. done.
Qed.

Lemma last_id_slot s k :
  0 ≤ s → 1 ≤ k → K ≤ k → s + k < kMaxUInt32 / kSlotSize →
  OperationBuffer.last_id K (id_of_slot s) k = (s + k) / K - 1.
Proof.
  unfold kMaxUInt32, kSlotSize. change (4294967295 / 8) with 536870911.
  intros Hs Hk HK Hb.
  unfold OperationBuffer.last_id, OpIndex_new, kSlotSize.
  replace (offset (id_of_slot s)) with (s * 8) by done.
  rewrite (u32_small k) by lia.
  rewrite usize_small by lia. rewrite (u32_small (s * 8 + k * 8)) by lia.
  replace (s * 8 + k * 8) with ((s + k) * 8) by lia.
  change (mkOpIndex ((s + k) * 8)) with (id_of_slot (s + k)).
  rewrite id_of_slot_id.
  pose proof (ids_step 0 (s + k)) as H1. rewrite Z.div_0_l in H1 by lia.
  pose proof (Z.div_le_upper_bound (s + k) K (s + k)) as H2.
  apply u32_small. split; [lia|].
  assert ((s + k) / K ≤ s + k); [|lia].
  apply H2; [lia|]. nia.
Qed.

(** *** Runs *)

Lemma total_app r1 r2 : total (r1 ++ r2) = total r1 + total r2.
Proof. induction r1 as [|k r1 IH]; simpl; lia. Qed.

Lemma runs_recorded_total sizes s runs :
  runs_recorded K sizes s runs → 0 ≤ total runs.
Proof.
  revert s. induction runs as [|k runs IH]; simpl; intros s H; [lia|].
  destruct H as ((? & ? & ?) & _ & H). apply IH in H. lia.
Qed.

Lemma runs_recorded_valid sizes s runs :
  runs_recorded K sizes s runs → Forall valid runs.
Proof.
  revert s. induction runs as [|k runs IH]; simpl; intros s H; [constructor|].
  destruct H as (? & _ & H). constructor; eauto.
Qed.

Lemma Forall_valid_total runs : Forall valid runs → 0 ≤ total runs.
Proof.
  induction 1 as [|k runs (? & ? & ?) _ IH]; simpl; lia.
Qed.

Lemma runs_recorded_app sizes s r1 r2 :
  runs_recorded K sizes s (r1 ++ r2) ↔
  runs_recorded K sizes s r1 ∧ runs_recorded K sizes (s + total r1) r2.
Proof.
  revert s. induction r1 as [|k r1 IH]; simpl; intros s.
  - replace (s + 0) with s by lia. tauto.
  - rewrite IH. replace (s + (k + total r1)) with (s + k + total r1) by lia.
    tauto.
Qed.

(** The entries of the runs laid out from slot [s] on all lie
    between the id of [s] and the id before that of their end. *)
Lemma runs_recorded_frame sizes sizes' s runs :
  0 ≤ s → s + total runs < kMaxUInt32 / kSlotSize →
  runs_recorded K sizes s runs →
  (∀ i, s / K ≤ i ≤ (s + total runs) / K - 1 → load sizes' i = load sizes i) →
  runs_recorded K sizes' s runs.
Proof.
  revert s. induction runs as [|k runs IH]; simpl; intros s Hs Hb H Hsame;
    [done|].
  destruct H as (Hv & (H1 & H2) & Hrest).
  pose proof (runs_recorded_total _ _ _ Hrest) as Ht.
  destruct Hv as (Hk1 & HkK & Hk2).
  pose proof (ids_step s (s + k) ltac:(lia)) as Hstep.
  pose proof (ids_mono (s + k) (s + (k + total runs)) ltac:(lia)) as Hmono.
  split; [done|]. split.
  - unfold run_recorded in *.
    rewrite id_of_slot_id in *. rewrite last_id_slot in * by lia.
    rewrite !Hsame by lia. done.
  - apply IH; [lia|lia|done|].
    intros i Hi. apply Hsame.
    replace (s + (k + total runs)) with (s + k + total runs) by lia. lia.
Qed.

Lemma run_ids_app s r1 r2 :
  run_ids s (r1 ++ r2) = run_ids s r1 ++ run_ids (s + total r1) r2.
Proof.
  revert s. induction r1 as [|k r1 IH]; simpl; intros s.
  - by replace (s + 0) with s by lia.
  - rewrite IH. by replace (s + (k + total r1)) with (s + k + total r1) by lia.
Qed.

Lemma run_ids_length s runs : length (run_ids s runs) = length runs.
Proof. revert s. induction runs; simpl; intros; [done|]. by f_equal. Qed.

Lemma run_ids_lookup s runs j a :
  run_ids s runs !! j = Some a →
  ∃ pre k post, runs = pre ++ k :: post ∧ length pre = j ∧
                a = id_of_slot (s + total pre).
Proof.
  revert s j. induction runs as [|k runs IH]; simpl; intros s j H; [done|].
  destruct j as [|j]; simpl in H.
  - injection H as <-. exists [], k, runs. simpl.
    by replace (s + 0) with s by lia.
  - apply IH in H as (pre & k' & post & -> & <- & ->).
    exists (k :: pre), k', post. simpl.
    by replace (s + (k + total pre)) with (s + k + total pre) by lia.
Qed.

(** *** [memcpy] *)

Lemma memcpy_load {A} (dst src a : list (option A)) n i :
  memcpy dst src n = Some a → 0 ≤ i < n → load a i = load src i.
Proof.
  unfold memcpy, load. intros H Hi.
  destruct (decide _) as [Hn|]; [|done]. injection H as <-.
  destruct (decide (0 ≤ i)); [|lia].
  rewrite lookup_app_l by (rewrite length_take; lia).
  rewrite lookup_take_lt by lia. done.
Qed.

Lemma memcpy_length {A} (dst src a : list (option A)) n :
  memcpy dst src n = Some a → length a = length dst.
Proof.
  unfold memcpy. intros H.
  destruct (decide _) as [Hn|]; [|done]. injection H as <-.
  rewrite length_app, length_take, length_drop. lia.
Qed.

Lemma memcpy_take {A} (dst src a : list (option A)) n :
  memcpy dst src n = Some a → take (Z.to_nat n) a = take (Z.to_nat n) src.
Proof.
  unfold memcpy. intros H.
  destruct (decide _) as [Hn|]; [|done]. injection H as <-.
  rewrite take_app_le by (rewrite length_take; lia).
  rewrite take_take. f_equal. lia.
Qed.

Lemma NewArray_length {A} n : 0 ≤ n → Z.of_nat (length (@NewArray A n)) = n.
Proof. intros. unfold NewArray. rewrite length_replicate. lia. Qed.

(** *** [Grow] *)

Lemma grow_loop_ge fuel x m r :
  OperationBuffer.grow_loop fuel x m = Some r → m ≤ r.
Proof.
  revert x. induction fuel as [|fuel IH]; simpl; intros x;
    destruct (x <? m) eqn:E; try done.
  - intros [= <-]. lia.
  - apply IH.
  - intros [= <-]. lia.
Qed.

Lemma grow_loop_nonneg fuel x m r :
  0 ≤ x → OperationBuffer.grow_loop fuel x m = Some r → 0 ≤ r.
Proof.
  revert x. induction fuel as [|fuel IH]; simpl; intros x Hx;
    destruct (x <? m) eqn:E; try done.
  - intros [= <-]. lia.
  - apply IH. unfold usize. apply Z.mod_pos_bound. lia.
  - intros [= <-]. lia.
Qed.

(** The loop ends, below twice the capacity asked for, as soon as
    the capacity it starts from is not 0. *)
Lemma grow_loop_ends fuel x m :
  0 < x < 2 * m → m ≤ 2 ^ 62 → m ≤ x * 2 ^ Z.of_nat fuel →
  ∃ r, OperationBuffer.grow_loop fuel x m = Some r ∧ m ≤ r < 2 * m.
Proof.
  revert x. induction fuel as [|fuel IH]; simpl; intros x Hx Hm Hf.
  - destruct (x <? m) eqn:E; [lia|]. exists x. split; [done|lia].
  - destruct (x <? m) eqn:E; [|exists x; split; [done|lia]].
    rewrite usize_small by lia. apply IH; [lia|done|].
    replace (Z.of_nat (S fuel)) with (Z.of_nat fuel + 1) in Hf by lia.
    rewrite Z.pow_add_r in Hf by lia. lia.
Qed.

(** From a capacity of 0, that of the companion of an empty graph,
    doubling gets nowhere: the loop of [Grow] does not end. *)
Lemma grow_loop_zero f m : 0 < m → OperationBuffer.grow_loop f 0 m = None.
Proof.
  intros Hm. induction f as [|f IH]; simpl.
  - by destruct (0 <? m) eqn:E; [|lia].
  - destruct (0 <? m) eqn:E; [|lia]. exact IH.
Qed.

Lemma grow_loop_adequate_aux f (j : nat) x m r :
  (j ≤ 64)%nat → 0 ≤ x < 2 ^ 64 → (2 ^ Z.of_nat j | x) →
  OperationBuffer.grow_loop f x m = Some r →
  OperationBuffer.grow_loop (65 - j) x m = Some r.
Proof.
  revert j x. induction f as [|f IH]; intros j x Hj Hx Hdiv H.
  - simpl in H. destruct (x <? m) eqn:E; [done|].
    destruct (65 - j)%nat; simpl; by rewrite E.
  - simpl in H. destruct (x <? m) eqn:E;
      [|destruct (65 - j)%nat; simpl; by rewrite E].
    destruct (decide (j = 64%nat)) as [->|Hne].
    + destruct Hdiv as [q Hq]. change (2 ^ Z.of_nat 64) with (2 ^ 64) in Hq.
      assert (x = 0) as -> by nia.
      change (usize (0 * 2)) with 0 in H.
      rewrite grow_loop_zero in H by lia. done.
    + replace (65 - j)%nat with (S (65 - S j)) by lia. simpl. rewrite E.
      apply (IH (S j)); [lia| | |done].
      * unfold usize. apply Z.mod_pos_bound. lia.
      * unfold usize. rewrite Z.mod_eq by lia.
        replace (Z.of_nat (S j)) with (Z.of_nat j + 1) by lia.
        rewrite Z.pow_add_r by lia. change (2 ^ 1) with 2.
        apply Z.divide_sub_r.
        -- by apply Z.mul_divide_mono_r.
        -- apply Z.divide_mul_l.
           exists (2 ^ (63 - Z.of_nat j)).
           transitivity (2 ^ (63 - Z.of_nat j + Z.of_nat j + 1));
             [f_equal; lia|].
           rewrite !Z.pow_add_r by lia. change (2 ^ 1) with 2. ring.
Qed.

(** The loop of [Grow] ends within [kGrowFuel] rounds or not at all. *)
Lemma grow_loop_fuel_adequate f x m r :
  0 ≤ x < 2 ^ 64 →
  OperationBuffer.grow_loop f x m = Some r →
  OperationBuffer.grow_loop OperationBuffer.kGrowFuel x m = Some r.
Proof.
  intros Hx H.
  apply (grow_loop_adequate_aux f 0 x m r); [lia|done| |done].
  apply Z.divide_1_l.
Qed.

Lemma inv_end_range b rs :
  inv b rs →
  0 ≤ OperationBuffer.end_ b ≤ OperationBuffer.end_cap_ b ∧
  OperationBuffer.end_cap_ b < 536870911.
Proof.
  intros [He Hc Hl Hce Hs Hr]. apply runs_recorded_total in Hr.
  unfold kMaxUInt32, kSlotSize in Hce.
  change (4294967295 / 8) with 536870911 in Hce. lia.
Qed.

Lemma Grow_inv m b rs b' :
  inv b rs → OperationBuffer.Grow K m b = Some b' →
  inv b' rs ∧ m ≤ OperationBuffer.end_cap_ b' ∧
  OperationBuffer.end_ b' = OperationBuffer.end_ b ∧
  take (Z.to_nat (OperationBuffer.end_ b)) (OperationBuffer.begin_ b')
  = take (Z.to_nat (OperationBuffer.end_ b)) (OperationBuffer.begin_ b).
Proof.
  intros Hinv H. pose proof (inv_end_range _ _ Hinv) as Hrange.
  destruct Hinv as [He Hc Hl Hce Hs Hr].
  unfold OperationBuffer.Grow in H.
  destruct (OperationBuffer.grow_loop _ _ _) as [r|] eqn:Eloop; [|done].
  simpl in H. destruct (decide (r < _)) as [Hr'|]; [|done].
  destruct (memcpy _ (OperationBuffer.begin_ b) _) as [nb|] eqn:Ebuf; [|done].
  simpl in H.
  destruct (memcpy _ (OperationBuffer.operation_sizes_ b) _) as [ns|] eqn:Esz;
    [|done].
  simpl in H. injection H as <-.
  assert (OperationBuffer.size b = OperationBuffer.end_ b) as Esize.
  { unfold OperationBuffer.size. apply u32_small. lia. }
  rewrite Esize in *.
  pose proof (grow_loop_ge _ _ _ _ Eloop) as Hge.
  assert (0 ≤ r) as Hr0.
  { eapply grow_loop_nonneg; [|exact Eloop]. unfold usize.
    apply Z.mod_pos_bound. lia. }
  pose proof (memcpy_length _ _ _ _ Ebuf) as Lbuf.
  pose proof (memcpy_length _ _ _ _ Esz) as Lsz.
  pose proof (ids_nonneg r Hr0) as Hrk.
  assert (OperationBuffer.end_ b ≤ r) as Hend_r.
  { unfold memcpy in Ebuf. destruct (decide _) as [Hn|]; [|done].
    rewrite NewArray_length in Hn by done. lia. }
  split; [|split; [done|split; [done|]]].
  - constructor; simpl.
    + done.
    + done.
    + rewrite Lbuf, NewArray_length; done.
    + done.
    + rewrite Lsz, NewArray_length; [lia|done].
    + eapply runs_recorded_frame; [lia| |exact Hr|].
      * unfold kMaxUInt32, kSlotSize. change (4294967295 / 8) with 536870911.
        lia.
      * intros i Hi. eapply memcpy_load; [exact Esz|].
        replace (0 + total rs) with (OperationBuffer.end_ b) in Hi by lia.
        rewrite Z.div_0_l in Hi by lia. lia.
  - exact (memcpy_take _ _ _ _ Ebuf).
Qed.

(** *** [Allocate] *)

(** The second half of [Allocate]: the bump of [end_] and the two
    entries of the size table, once the capacity is there. *)
Lemma Allocate_record k b1 rs ptr b' :
  inv b1 rs → valid k →
  OperationBuffer.end_ b1 + k ≤ OperationBuffer.end_cap_ b1 →
  (let result := OperationBuffer.end_ b1 in
   let b2 := OperationBuffer.with_end (OperationBuffer.end_ b1 + k) b1 in
   let idx := OperationBuffer.Index b2 result in
   s1 ← store (OperationBuffer.operation_sizes_ b2) (OpIndex_id K idx) (u16 k);
   s2 ← store s1 (OperationBuffer.last_id K idx k) (u16 k);
   Some (result, OperationBuffer.with_operation_sizes s2 b2)) = Some (ptr, b') →
  ptr = total rs ∧ inv b' (rs ++ [k]) ∧
  OperationBuffer.begin_ b' = OperationBuffer.begin_ b1.
Proof.
  intros Hinv (Hk1 & HkK & Hk2) Hfit H.
  pose proof (inv_end_range _ _ Hinv) as Hrange.
  destruct Hinv as [He Hc Hl Hce Hs Hr].
  unfold kMaxUInt32, kSlotSize in Hce.
  change (4294967295 / 8) with 536870911 in Hce.
  set (e := OperationBuffer.end_ b1) in *.
  cbv zeta in H.
  rewrite Index_slot in H
    by (unfold kMaxUInt32, kSlotSize; change (4294967295 / 8) with 536870911; lia).
  rewrite id_of_slot_id in H.
  rewrite last_id_slot in H
    by (unfold kMaxUInt32, kSlotSize; try change (4294967295 / 8) with 536870911; lia).
  rewrite u16_small in H by lia.
  simpl in H.
  destruct (store _ (e / K) k) as [s1|] eqn:S1; [|done]. simpl in H.
  destruct (store s1 _ k) as [s2|] eqn:S2; [|done]. simpl in H.
  injection H as <- <-.
  pose proof (ids_step e (e + k) ltac:(lia)) as Hstep.
  split; [done|]. split; [|done].
  constructor; simpl.
  - rewrite total_app. simpl. lia.
  - lia.
  - done.
  - unfold kMaxUInt32, kSlotSize. change (4294967295 / 8) with 536870911. lia.
  - rewrite (store_length _ _ _ _ S2), (store_length _ _ _ _ S1). done.
  - apply runs_recorded_app. split.
    + eapply runs_recorded_frame; [lia| |exact Hr|].
      * unfold kMaxUInt32, kSlotSize. change (4294967295 / 8) with 536870911.
        lia.
      * intros i Hi. replace (0 + total rs) with e in Hi by lia.
        rewrite (load_store_ne _ _ _ i _ S2) by lia.
        rewrite (load_store_ne _ _ _ i _ S1) by lia. done.
    + simpl. replace (0 + total rs) with e by lia.
      split; [done|]. split; [|done].
      unfold run_recorded. rewrite id_of_slot_id.
      rewrite last_id_slot
        by (unfold kMaxUInt32, kSlotSize; try change (4294967295 / 8) with 536870911; lia).
      split; [|exact (load_store_eq _ _ _ _ S2)].
      destruct (decide ((e + k) / K - 1 = e / K)) as [Heq|Hne].
      * rewrite <- Heq. exact (load_store_eq _ _ _ _ S2).
      * rewrite (load_store_ne _ _ _ _ _ S2) by done.
        exact (load_store_eq _ _ _ _ S1).
Qed.

Lemma Allocate_inv k b rs ptr b' :
  inv b rs → valid k →
  OperationBuffer.Allocate K k b = Some (ptr, b') →
  ptr = total rs ∧ inv b' (rs ++ [k]) ∧
  take (Z.to_nat (total rs)) (OperationBuffer.begin_ b')
  = take (Z.to_nat (total rs)) (OperationBuffer.begin_ b).
Proof.
  intros Hinv Hv H.
  pose proof (inv_end_range _ _ Hinv) as Hrange.
  pose proof (inv_end _ _ _ Hinv) as He.
  destruct Hv as (Hk1 & HkK & Hk2).
  unfold OperationBuffer.Allocate in H.
  destruct (decide _) as [Hg|Hg].
  - destruct (OperationBuffer.Grow _ _ _) as [b1|] eqn:G; [|done].
    simpl in H.
    destruct (Grow_inv _ _ _ _ Hinv G) as (Hinv1 & Hm & Hend & Hsame).
    unfold OperationBuffer.capacity in Hm.
    rewrite u32_small, usize_small in Hm by lia.
    apply (Allocate_record k b1 rs) in H as (-> & Hinv' & Hbuf);
      [|done|done|lia].
    split; [done|]. split; [done|].
    rewrite Hbuf, <- He. exact Hsame.
  - simpl in H. rewrite usize_small in Hg by lia.
    apply (Allocate_record k b rs) in H as (-> & Hinv' & Hbuf);
      [|done|done|lia].
    split; [done|]. split; [done|].
    by rewrite Hbuf.
Qed.

Lemma Grow_succeeds k b rs :
  inv b rs → 1 ≤ k → 0 < OperationBuffer.end_cap_ b →
  2 * (OperationBuffer.end_cap_ b + k) ≤ kMaxUInt32 / kSlotSize →
  ∃ b1, OperationBuffer.Grow K (usize (OperationBuffer.capacity b + k)) b
        = Some b1.
Proof.
  intros Hinv Hk Hcap Hroom.
  pose proof (inv_end_range _ _ Hinv) as Hrange.
  destruct Hinv as [He Hc Hl Hce Hs Hr].
  unfold kMaxUInt32, kSlotSize in *.
  change (4294967295 / 8) with 536870911 in *.
  unfold OperationBuffer.Grow. cbv zeta.
  assert (OperationBuffer.capacity b = OperationBuffer.end_cap_ b) as ->
    by (apply u32_small; lia).
  assert (OperationBuffer.size b = OperationBuffer.end_ b) as ->
    by (apply u32_small; lia).
  rewrite !usize_small by lia.
  destruct (grow_loop_ends OperationBuffer.kGrowFuel
              (2 * OperationBuffer.end_cap_ b)
              (OperationBuffer.end_cap_ b + k)) as (r & -> & Hr1 & Hr2);
    [lia|lia| |].
  { unfold OperationBuffer.kGrowFuel.
    change (2 ^ Z.of_nat 65) with 36893488147419103232. lia. }
  simpl. rewrite ceiling_eq. rewrite decide_True by lia.
  pose proof (ids_mono (OperationBuffer.end_ b) r ltac:(lia)).
  pose proof (ids_mono (OperationBuffer.end_ b) (OperationBuffer.end_cap_ b)
                ltac:(lia)).
  pose proof (ids_nonneg (OperationBuffer.end_ b) ltac:(lia)).
  pose proof (ids_nonneg r ltac:(lia)).
  unfold memcpy. rewrite !NewArray_length by lia.
  rewrite decide_True by lia. simpl.
  rewrite decide_True by lia. simpl. eauto.
Qed.

(** [Allocate] when the run fits: no growth, the storage is left
    alone and the size table changes at the two endpoint ids. *)
Lemma Allocate_fits k b rs :
  inv b rs → valid k →
  OperationBuffer.end_ b + k ≤ OperationBuffer.end_cap_ b →
  ∃ s1 s2,
    store (OperationBuffer.operation_sizes_ b) (OperationBuffer.end_ b / K) k
    = Some s1 ∧
    store s1 ((OperationBuffer.end_ b + k) / K - 1) k = Some s2 ∧
    OperationBuffer.Allocate K k b
    = Some (OperationBuffer.end_ b,
            OperationBuffer.mk (OperationBuffer.zone_ b)
              (OperationBuffer.begin_ b) (OperationBuffer.end_ b + k)
              (OperationBuffer.end_cap_ b) s2).
Proof.
  intros Hinv (Hk1 & HkK & Hk2) Hfit.
  pose proof (inv_end_range _ _ Hinv) as Hrange.
  destruct Hinv as [He Hc Hl Hce Hs Hr].
  set (e := OperationBuffer.end_ b) in *.
  pose proof (ids_step e (e + k) ltac:(lia)) as Hstep.
  pose proof (ids_mono (e + k) (OperationBuffer.end_cap_ b) ltac:(lia)).
  pose proof (ids_nonneg e ltac:(lia)).
  destruct (store_in_range (OperationBuffer.operation_sizes_ b) (e / K) k)
    as (s1 & S1); [lia|].
  destruct (store_in_range s1 ((e + k) / K - 1) k) as (s2 & S2).
  { rewrite (store_length _ _ _ _ S1). lia. }
  exists s1, s2. split; [done|]. split; [done|].
  unfold OperationBuffer.Allocate.
  rewrite decide_False by (rewrite usize_small; lia).
  simpl. fold e.
  rewrite Index_slot by (rewrite ceiling_eq; lia).
  rewrite id_of_slot_id.
  rewrite last_id_slot by (rewrite ?ceiling_eq; lia).
  rewrite u16_small by lia.
  rewrite S1. simpl. rewrite S2. simpl. done.
Qed.

Lemma Allocate_succeeds k b rs :
  inv b rs → valid k → 0 < OperationBuffer.end_cap_ b →
  4 * (total rs + k) ≤ kMaxUInt32 / kSlotSize →
  ∃ ptr b', OperationBuffer.Allocate K k b = Some (ptr, b') ∧
            0 < OperationBuffer.end_cap_ b'.
Proof.
  intros Hinv Hv Hcap Hroom. rewrite ceiling_eq in Hroom.
  pose proof (inv_end_range _ _ Hinv) as Hrange.
  pose proof (inv_end _ _ _ Hinv) as He.
  pose proof Hv as (Hk1 & HkK & Hk2).
  destruct (decide (OperationBuffer.end_ b + k ≤ OperationBuffer.end_cap_ b))
    as [Hfit|Hgrow].
  - destruct (Allocate_fits k b rs Hinv Hv Hfit) as (s1 & s2 & _ & _ & ->).
    eexists _, _. split; [reflexivity|]. exact Hcap.
  - destruct (Grow_succeeds k b rs Hinv Hk1 Hcap) as (b1 & G);
      [rewrite ceiling_eq; lia|].
    destruct (Grow_inv _ _ _ _ Hinv G) as (Hinv1 & Hm & Hend & _).
    pose proof (inv_end_range _ _ Hinv1) as Hrange1.
    unfold OperationBuffer.capacity in Hm.
    rewrite u32_small, usize_small in Hm by lia.
    destruct (Allocate_fits k b1 rs Hinv1 Hv ltac:(lia))
      as (s1 & s2 & _ & _ & HA).
    assert (OperationBuffer.Allocate K k b = OperationBuffer.Allocate K k b1)
      as ->.
    { unfold OperationBuffer.Allocate.
      rewrite (decide_True (P := usize _ < k)) by (rewrite usize_small; lia).
      rewrite G.
      rewrite (decide_False (P := usize _ < k)) by (rewrite usize_small; lia).
      reflexivity. }
    rewrite HA. eexists _, _. split; [reflexivity|].
    change (0 < OperationBuffer.end_cap_ b1). lia.
Qed.

(** *** The empty buffer and sequences of allocations *)

Lemma new_inv zone initial_capacity :
  0 ≤ initial_capacity < kMaxUInt32 / kSlotSize →
  inv (OperationBuffer.new K zone initial_capacity) [].
Proof.
  intros H. rewrite ceiling_eq in H.
  constructor; simpl; try done; try lia.
  - rewrite NewArray_length; lia.
  - rewrite ceiling_eq. lia.
  - rewrite usize_small by lia.
    pose proof (ids_mono initial_capacity (initial_capacity + 1) ltac:(lia)).
    pose proof (ids_nonneg initial_capacity ltac:(lia)).
    rewrite NewArray_length; lia.
Qed.

Lemma allocate_all_inv ks b rs ids b' :
  inv b rs → Forall valid ks → allocate_all K ks b = Some (ids, b') →
  ids = run_ids (total rs) ks ∧ inv b' (rs ++ ks) ∧
  take (Z.to_nat (total rs)) (OperationBuffer.begin_ b')
  = take (Z.to_nat (total rs)) (OperationBuffer.begin_ b).
Proof.
  revert b rs ids. induction ks as [|k ks IH]; simpl; intros b rs ids Hinv Hv H.
  - injection H as <- <-. rewrite app_nil_r. done.
  - inversion Hv as [|? ? Hk Hv']; subst. clear Hv. rename Hv' into Hv.
    destruct (OperationBuffer.Allocate K k b) as [[ptr b1]|] eqn:A; [|done].
    simpl in H.
    destruct (allocate_all K ks b1) as [[ids' b2]|] eqn:R; [|done].
    simpl in H. injection H as <- <-.
    destruct (Allocate_inv _ _ _ _ _ Hinv Hk A) as (-> & Hinv1 & Hsame1).
    destruct (IH _ _ _ Hinv1 Hv R) as (-> & Hinv2 & Hsame2).
    pose proof (inv_end_range _ _ Hinv1) as Hrange1.
    pose proof (inv_end _ _ _ Hinv1) as He1.
    pose proof (inv_end_range _ _ Hinv) as Hrange.
    pose proof (inv_end _ _ _ Hinv) as He.
    rewrite total_app in *. simpl in *.
    destruct Hk as (Hk1 & _ & _).
    split; [|split].
    + rewrite Index_slot by (rewrite ceiling_eq; lia).
      by replace (total rs + (k + 0)) with (total rs + k) by lia.
    + by rewrite <- app_assoc in Hinv2.
    + rewrite <- Hsame1.
      replace (Z.to_nat (total rs))
        with (Z.to_nat (total rs) `min` Z.to_nat (total rs + (k + 0)))%nat by lia.
      rewrite <- !take_take. by rewrite Hsame2.
Qed.

Lemma allocate_all_succeeds ks b rs :
  inv b rs → Forall valid ks → 0 < OperationBuffer.end_cap_ b →
  4 * (total rs + total ks) ≤ kMaxUInt32 / kSlotSize →
  is_Some (allocate_all K ks b).
Proof.
  revert b rs. induction ks as [|k ks IH]; simpl; intros b rs Hinv Hv Hcap Hroom.
  - eauto.
  - inversion Hv as [|? ? Hk Hv']; subst. clear Hv. rename Hv' into Hv.
    pose proof (Forall_valid_total _ Hv) as Hpos.
    destruct (Allocate_succeeds k b rs Hinv Hk Hcap) as (ptr & b1 & A & Hcap1);
      [lia|].
    rewrite A. simpl.
    destruct (Allocate_inv _ _ _ _ _ Hinv Hk A) as (_ & Hinv1 & _).
    destruct (IH b1 (rs ++ [k]) Hinv1 Hv Hcap1) as ([ids b2] & R).
    { rewrite total_app. simpl. lia. }
    rewrite R. simpl. eauto.
Qed.

(** *** [Next] and [Previous] over the runs *)

Lemma inv_run_recorded b pre k post :
  inv b (pre ++ k :: post) →
  valid k ∧
  run_recorded K (OperationBuffer.operation_sizes_ b) (id_of_slot (total pre)) k ∧
  0 ≤ total pre ∧ total pre + k ≤ OperationBuffer.end_ b.
Proof.
  intros Hinv. pose proof (inv_end _ _ _ Hinv) as He.
  pose proof (inv_runs _ _ _ Hinv) as Hr.
  apply runs_recorded_app in Hr as [Hpre Hr]. simpl in Hr.
  destruct Hr as (Hv & Hrec & Hpost).
  apply runs_recorded_total in Hpre, Hpost.
  rewrite total_app in He. simpl in He. split; [done|]. split; [done|]. lia.
Qed.

Lemma Next_run b pre k post :
  inv b (pre ++ k :: post) →
  OperationBuffer.Next K b (id_of_slot (total pre))
  = Some (id_of_slot (total pre + k)).
Proof.
  intros Hinv. pose proof (inv_end_range _ _ Hinv) as Hrange.
  destruct (inv_run_recorded _ _ _ _ Hinv) as ((Hk1 & HkK & Hk2) & [H1 _] & Hs & He).
  unfold OperationBuffer.Next. rewrite H1. simpl.
  unfold OpIndex_new, id_of_slot, kSlotSize. simpl.
  rewrite usize_small by lia. rewrite u32_small by lia. f_equal. f_equal. lia.
Qed.

Lemma Previous_run b pre k post :
  inv b (pre ++ k :: post) →
  OperationBuffer.Previous K b (id_of_slot (total pre + k))
  = Some (id_of_slot (total pre)).
Proof.
  intros Hinv. pose proof (inv_end_range _ _ Hinv) as Hrange.
  destruct (inv_run_recorded _ _ _ _ Hinv) as ((Hk1 & HkK & Hk2) & [_ H2] & Hs & He).
  rewrite last_id_slot in H2 by (rewrite ?ceiling_eq; lia).
  unfold OperationBuffer.Previous. rewrite id_of_slot_id.
  pose proof (ids_step 0 (total pre + k) ltac:(lia)) as Hstep.
  rewrite Z.div_0_l in Hstep by lia.
  pose proof (Z.div_le_upper_bound (total pre + k) K (total pre + k)
                ltac:(lia) ltac:(nia)) as Hup.
  rewrite u32_small by lia. rewrite H2. simpl.
  unfold OpIndex_new, id_of_slot, kSlotSize. simpl.
  rewrite usize_small by lia. rewrite u32_small by lia. f_equal. f_equal. lia.
Qed.

Lemma run_ids_consecutive s runs j a c :
  run_ids s runs !! j = Some a → run_ids s runs !! S j = Some c →
  ∃ pre k post, runs = pre ++ k :: post ∧
                a = id_of_slot (s + total pre) ∧
                c = id_of_slot (s + total pre + k).
Proof.
  intros Ha Hc.
  destruct (run_ids_lookup _ _ _ _ Ha) as (pre & k & post & -> & <- & ->).
  exists pre, k, post. split; [done|]. split; [done|].
  rewrite run_ids_app in Hc. simpl in Hc.
  rewrite lookup_app_r in Hc by (rewrite run_ids_length; lia).
  rewrite run_ids_length in Hc.
  replace (S (length pre) - length pre)%nat with 1%nat in Hc by lia.
  simpl in Hc. destruct post as [|k' post]; simpl in Hc; [done|].
  by injection Hc as <-.
Qed.

Lemma run_ids_with_length s runs j i k :
  run_ids s runs !! j = Some i → runs !! j = Some k →
  ∃ pre post, runs = pre ++ k :: post ∧ i = id_of_slot (s + total pre).
Proof.
  intros Hi Hk.
  destruct (run_ids_lookup _ _ _ _ Hi) as (pre & k' & post & -> & <- & ->).
  rewrite list_lookup_middle in Hk by done. injection Hk as ->.
  by exists pre, post.
Qed.

(** The id that [Allocate] computes for the far end of a run is the
    id of the run's last slot whenever the run ends where an id
    ends, which is always the case when an id is a single slot. *)
Lemma last_id_is_id_of_last_unit s k :
  0 ≤ s → valid k → s + k < kMaxUInt32 / kSlotSize →
  (s + k) mod K = 0 →
  OperationBuffer.last_id K (id_of_slot s) k
  = OpIndex_id K (id_of_slot (s + k - 1)).
Proof.
  intros Hs (Hk1 & HkK & Hk2) Hb Hmod.
  rewrite last_id_slot by done. rewrite id_of_slot_id. symmetry.
  pose proof (Z.div_mod (s + k) K ltac:(lia)) as Hdm. rewrite Hmod in Hdm.
  symmetry. apply (Z.div_unique_pos _ _ _ (K - 1)); [lia|].
  set (q := (s + k) `div` K) in *. lia.
Qed.

(** *** The claims about stepping and about the size table *)

(** C4, as far as it holds: the identifiers [ids] issued by any
    sequence of allocations of runs of at least [kSlotsPerId] slots
    each are strictly increasing and chained by the size table: [Next]
    of an identifier is the identifier issued right after it, and
    [Previous] of that one is the first again, so the two steps are
    inverse to each other on the allocated runs. *)
Theorem Next_Previous_over_allocations b rs ks ids b' j a c :
  inv b rs → Forall valid ks →
  allocate_all K ks b = Some (ids, b') →
  ids !! j = Some a → ids !! S j = Some c →
  offset a < offset c ∧
  OperationBuffer.Next K b' a = Some c ∧
  OperationBuffer.Previous K b' c = Some a.
Proof.
  intros Hinv Hv Hall Ha Hc.
  destruct (allocate_all_inv _ _ _ _ _ Hinv Hv Hall) as (-> & Hinv' & _).
  destruct (run_ids_consecutive _ _ _ _ _ Ha Hc)
    as (pre & k & post & -> & -> & ->).
  rewrite app_assoc in Hinv'.
  destruct (inv_run_recorded _ _ _ _ Hinv') as ((Hk1 & _) & _).
  pose proof (Next_run _ _ _ _ Hinv') as HN.
  pose proof (Previous_run _ _ _ _ Hinv') as HP.
  rewrite total_app in HN, HP.
  split; [|done]. unfold id_of_slot, kSlotSize. simpl. lia.
Qed.

(** C7, as far as it holds: after any sequence of allocations of
    runs of at least [kSlotsPerId] slots each, the size table holds
    the length [k] of every run at the id of its identifier [i] and at
    the id just before that of the run's end, [id(i + k) - 1], the
    last id that lies wholly inside the run ([last_id], the index
    [Allocate] computes).  That is the id of the run's last slot,
    [i + k - 1], when the run ends where an id ends, which is always
    so when an id is one slot; otherwise the id of the last slot is
    the id of the slot after the run, where the table holds the length
    of the following run or nothing. *)
Theorem Allocate_records_both_endpoints b rs ks ids b' j i k :
  inv b rs → Forall valid ks →
  allocate_all K ks b = Some (ids, b') →
  run_ids 0 (rs ++ ks) !! j = Some i → (rs ++ ks) !! j = Some k →
  OperationBuffer.SlotCount K b' i = Some k ∧
  load (OperationBuffer.operation_sizes_ b')
       (OperationBuffer.last_id K i k) = Some k ∧
  ((offset i / kSlotSize + k) mod K = 0 →
   OperationBuffer.SlotCount K b'
     (OpIndex_new (offset i + (k - 1) * kSlotSize)) = Some k) ∧
  OperationBuffer.last_id K i k
  = OpIndex_id K (mkOpIndex (offset i + k * kSlotSize)) - 1 ∧
  ((offset i / kSlotSize + k) mod K ≠ 0 →
   OpIndex_id K (last_unit i k)
   = OpIndex_id K (mkOpIndex (offset i + k * kSlotSize))).
Proof.
  intros Hinv Hv Hall Hi Hk.
  destruct (allocate_all_inv _ _ _ _ _ Hinv Hv Hall) as (_ & Hinv' & _).
  destruct (run_ids_with_length _ _ _ _ _ Hi Hk) as (pre & post & E & ->).
  rewrite E in Hinv'.
  pose proof (inv_end_range _ _ Hinv') as Hrange.
  destruct (inv_run_recorded _ _ _ _ Hinv') as (Hvk & Hrec & Hs & Hle).
  split; [exact (proj1 Hrec)|]. split; [exact (proj2 Hrec)|].
  replace (0 + total pre) with (total pre) by lia.
  assert (∀ n, OpIndex_id K (mkOpIndex (total pre * kSlotSize + n * kSlotSize))
               = (total pre + n) / K) as Hid.
  { intros n. unfold OpIndex_id, kSlotSize. simpl.
    replace (total pre * 8 + n * 8) with ((total pre + n) * 8) by lia.
    by rewrite Z.div_mul by lia. }
  cut (((total pre + k) mod K ≠ 0 →
        (total pre + (k - 1)) / K = (total pre + k) / K) ∧
       ((offset (id_of_slot (total pre)) / kSlotSize + k) mod K = 0 →
        OperationBuffer.SlotCount K b'
          (OpIndex_new (offset (id_of_slot (total pre)) + (k - 1) * kSlotSize))
        = Some k)).
  { intros [Hne Heq]. split; [exact Heq|]. split.
    - rewrite last_id_slot by (rewrite ?ceiling_eq; destruct Hvk; lia).
      unfold id_of_slot. simpl offset. by rewrite Hid.
    - unfold last_unit, id_of_slot. simpl offset. rewrite !Hid.
      unfold kSlotSize. rewrite Z.div_mul by lia. exact Hne. }
  split.
  { intros Hmod.
    pose proof (Z.div_mod (total pre + k) K ltac:(lia)) as Hd.
    pose proof (Z.mod_pos_bound (total pre + k) K ltac:(lia)) as Hb.
    symmetry.
    apply (Z.div_unique _ _ _ ((total pre + k) mod K - 1)); lia. }
  unfold id_of_slot at 1 2. simpl offset. unfold kSlotSize.
  rewrite Z.div_mul by lia. intros Hmod.
  pose proof Hvk as (Hk1 & _ & _).
  unfold OpIndex_new. rewrite u32_small by lia.
  replace (total pre * 8 + (k - 1) * 8) with ((total pre + k - 1) * 8) by lia.
  change (mkOpIndex ((total pre + k - 1) * 8))
    with (id_of_slot (total pre + k - 1)).
  unfold OperationBuffer.SlotCount.
  rewrite <- last_id_is_id_of_last_unit by (rewrite ?ceiling_eq; done || lia).
  replace (0 + total pre) with (total pre) in Hrec by lia.
  exact (proj2 Hrec).
Qed.



(** *** Growth *)

Lemma run_of_equal_prefix {A} (l l' : list A) (e s n : nat) :
  take e l' = take e l → (s + n ≤ e)%nat →
  take n (drop s l') = take n (drop s l).
Proof.
  intros H Hle. rewrite !take_drop_commute.
  replace (s + n)%nat with ((s + n) `min` e)%nat by lia.
  rewrite <- !take_take. by rewrite H.
Qed.

Lemma run_ids_elem idx s runs :
  idx ∈ run_ids s runs →
  ∃ pre k post, runs = pre ++ k :: post ∧ idx = id_of_slot (s + total pre).
Proof.
  intros [j Hj]%list_elem_of_lookup.
  destruct (run_ids_lookup _ _ _ _ Hj) as (pre & k & post & ? & _ & ?).
  eauto.
Qed.


(** *** Replacement *)

Lemma inv_rewound b pre k post :
  inv b (pre ++ k :: post) →
  inv (OperationBuffer.with_end (total pre) b) pre.
Proof.
  intros Hinv. pose proof (inv_end_range _ _ Hinv) as Hrange.
  destruct (inv_run_recorded _ _ _ _ Hinv) as ((Hk1 & _) & _ & Hs & Hle).
  destruct Hinv as [He Hc Hl Hce Hs' Hr].
  apply runs_recorded_app in Hr as [Hpre _].
  constructor; simpl; try done. lia.
Qed.


End ArenaFacts.

(** *** The arena theorems at work, with two slots to an id *)

Lemma Next_Previous_over_allocations_witness :
  ∃ ids b',
    allocate_all 2 [2; 3; 2] (OperationBuffer.new 2 0%nat 4) = Some (ids, b') ∧
    ids !! 0%nat = Some (mkOpIndex 0) ∧ ids !! 1%nat = Some (mkOpIndex 16) ∧
    (offset (mkOpIndex 0) < offset (mkOpIndex 16) ∧
     OperationBuffer.Next 2 b' (mkOpIndex 0) = Some (mkOpIndex 16) ∧
     OperationBuffer.Previous 2 b' (mkOpIndex 16) = Some (mkOpIndex 0)).
Proof.
  eexists _, _. split; [vm_compute; reflexivity|].
  split; [reflexivity|]. split; [reflexivity|].
  eapply (Next_Previous_over_allocations 2 ltac:(lia)
           (OperationBuffer.new 2 0%nat 4) [] [2; 3; 2] _ _ 0%nat).
  - apply new_inv; [lia|rewrite ceiling_eq; lia].
  - repeat (constructor; [unfold valid_slot_count; lia|]). constructor.
  - vm_compute. reflexivity.
  - reflexivity.
  - reflexivity.
Defined.

Lemma Allocate_records_both_endpoints_witness :
  ∃ ids b',
    allocate_all 2 [2; 3; 2] (OperationBuffer.new 2 0%nat 4) = Some (ids, b') ∧
    run_ids 0 [2; 3; 2] !! 1%nat = Some (mkOpIndex 16) ∧
    OperationBuffer.SlotCount 2 b' (mkOpIndex 16) = Some 3 ∧
    load (OperationBuffer.operation_sizes_ b')
         (OperationBuffer.last_id 2 (mkOpIndex 16) 3) = Some 3 ∧
    OperationBuffer.last_id 2 (mkOpIndex 16) 3
    = OpIndex_id 2 (mkOpIndex (16 + 3 * kSlotSize)) - 1 ∧
    OpIndex_id 2 (last_unit (mkOpIndex 16) 3)
    = OpIndex_id 2 (mkOpIndex (16 + 3 * kSlotSize)).
Proof.
  let r := eval vm_compute in
    (allocate_all 2 [2; 3; 2] (OperationBuffer.new 2 0%nat 4)) in
  lazymatch r with
  | Some (?IDS, ?B') =>
      destruct (Allocate_records_both_endpoints 2 ltac:(lia)
                  (OperationBuffer.new 2 0%nat 4) [] [2; 3; 2] IDS B'
                  1%nat (mkOpIndex 16) 3) as (H1 & H2 & _ & H4 & H5);
      [ apply new_inv; [lia|rewrite ceiling_eq; lia]
      | repeat (constructor; [unfold valid_slot_count; lia|]); constructor
      | vm_compute; reflexivity
      | reflexivity
      | reflexivity
      | exists IDS, B'; split; [vm_compute; reflexivity|];
        split; [reflexivity|]; split; [exact H1|]; split; [exact H2|];
        split; [exact H4|]; apply H5; vm_compute; discriminate ]
  end.
Defined.



(** C4 as written fails when an id covers two slots: the run of one
    slot allocated second has its two table entries at ids 1 and 0,
    and the latter is the entry of the first run, so after the
    allocations of 2, 1 and 2 slots [Next] of the first identifier is
    8, not the second identifier 16. *)
Lemma next_previous_link_fails_on_short_runs :
  ¬ next_previous_link_every_sequence 2.
Proof.
  intros H.
  let r := eval vm_compute in
    (allocate_all 2 [2; 1; 2] (OperationBuffer.new 2 0%nat 8)) in
  lazymatch r with
  | Some (?IDS, ?B) =>
      destruct (H 0%nat 8 [2; 1; 2] IDS B 0%nat (mkOpIndex 0) (mkOpIndex 16))
        as [HN _];
      [ rewrite ceiling_eq; lia
      | repeat (constructor; [unfold spec_slot_count; lia|]); constructor
      | vm_compute; reflexivity
      | reflexivity
      | reflexivity
      | vm_compute in HN; discriminate HN ]
  end.
Qed.

(** C7 as written fails when an id covers two slots: the run of
    three slots at identifier 16 ends inside id 2, the id of its last
    slot, and there the table holds the length 2 of the run allocated
    after it. *)
Lemma length_at_last_unit_fails_inside_an_id :
  ¬ length_at_first_and_last_unit 2.
Proof.
  intros H.
  let r := eval vm_compute in
    (allocate_all 2 [2; 3; 2] (OperationBuffer.new 2 0%nat 8)) in
  lazymatch r with
  | Some (?IDS, ?B) =>
      destruct (H 0%nat 8 [2; 3; 2] IDS B 1%nat (mkOpIndex 16) 3)
        as [_ HL];
      [ rewrite ceiling_eq; lia
      | repeat (constructor; [unfold spec_slot_count; lia|]); constructor
      | vm_compute; reflexivity
      | reflexivity
      | reflexivity
      | vm_compute in HL; discriminate HL ]
  end.
Qed.



(** ** Blocks and their predecessor chains *)

Section BlockFacts.

Implicit Types (st : Block.Store) (p q this : BlockPtr) (l : list BlockPtr).

Lemma deref_lt st p b : Block.deref st p = Some b → (p < length st)%nat.
Proof.
  unfold Block.deref. destruct (st !! p) eqn:E; [|done].
  intros _. by apply lookup_lt_Some in E.
Qed.

Lemma deref_insert_eq st p b :
  (p < length st)%nat → Block.deref (<[p := Some b]> st) p = Some b.
Proof. intros. unfold Block.deref. by rewrite list_lookup_insert_eq. Qed.

Lemma deref_insert_ne st p q x :
  p ≠ q → Block.deref (<[p := x]> st) q = Block.deref st q.
Proof. intros. unfold Block.deref. by rewrite list_lookup_insert_ne. Qed.

(** *** The walk along a chain *)

Lemma chain_fuel_mono f f' st x l :
  Block.chain f st x = Some l → (f ≤ f')%nat → Block.chain f' st x = Some l.
Proof.
  revert f' x l. induction f as [|f IH]; intros f' x l H Hle.
  - destruct x; [done|]. injection H as <-. by destruct f'.
  - destruct x as [p|]; [|injection H as <-; by destruct f'].
    destruct f' as [|f']; [lia|]. simpl in *.
    destruct (Block.deref st p) as [b|]; [|done]. simpl in *.
    destruct (Block.chain f st _) as [rest|] eqn:E; [|done].
    rewrite (IH f' _ _ E) by lia. done.
Qed.

Lemma chain_min_fuel f st x l :
  Block.chain f st x = Some l → Block.chain (length l) st x = Some l.
Proof.
  revert x l. induction f as [|f IH]; intros x l H.
  - destruct x; [done|]. by injection H as <-.
  - destruct x as [p|]; [|by injection H as <-].
    simpl in H. destruct (Block.deref st p) as [b|] eqn:D; [|done].
    simpl in H. destruct (Block.chain f st _) as [rest|] eqn:E; [|done].
    injection H as <-. simpl. rewrite D. simpl. by rewrite (IH _ _ E).
Qed.

Lemma chain_det f f' st x l l' :
  Block.chain f st x = Some l → Block.chain f' st x = Some l' → l = l'.
Proof.
  intros H H'.
  apply (chain_fuel_mono _ (f `max` f')) in H; [|lia].
  apply (chain_fuel_mono _ (f `max` f')) in H'; [|lia]. congruence.
Qed.

Lemma chain_cons f st x q l :
  Block.chain f st x = Some (q :: l) →
  x = Some q ∧
  ∃ b, Block.deref st q = Some b ∧
       Block.chain (length l) st (Block.neighboring_predecessor_ b) = Some l.
Proof.
  intros H. destruct x as [p|]; [|destruct f; done].
  destruct f as [|f]; [done|]. simpl in H.
  destruct (Block.deref st p) as [b|] eqn:D; [|done]. simpl in H.
  destruct (Block.chain f st _) as [rest|] eqn:E; [|done].
  injection H as -> ->. split; [done|]. exists b. split; [done|].
  by eapply chain_min_fuel.
Qed.

Lemma chain_tail f st x l1 q l2 :
  Block.chain f st x = Some (l1 ++ q :: l2) →
  Block.chain (S (length l2)) st (Some q) = Some (q :: l2).
Proof.
  revert f x. induction l1 as [|a l1 IH]; simpl; intros f x H.
  - destruct (chain_cons _ _ _ _ _ H) as (-> & _).
    by apply chain_min_fuel in H.
  - destruct (chain_cons _ _ _ _ _ H) as (_ & b & _ & Hrest).
    by eapply IH.
Qed.

Lemma chain_allocated f st x l :
  Block.chain f st x = Some l → Forall (λ q, (q < length st)%nat) l.
Proof.
  revert f x. induction l as [|q l IH]; intros f x H; [constructor|].
  destruct (chain_cons _ _ _ _ _ H) as (_ & b & D & Hrest).
  constructor; [by eapply deref_lt|by eapply IH].
Qed.

(** A walk that ends meets no block twice. *)
Lemma chain_NoDup f st x l : Block.chain f st x = Some l → NoDup l.
Proof.
  revert f x. induction l as [|q l IH]; intros f x H; [constructor|].
  destruct (chain_cons _ _ _ _ _ H) as (-> & b & D & Hrest).
  constructor; [|by eapply IH].
  intros (l1 & l2 & ->)%list_elem_of_split.
  pose proof (chain_tail _ _ _ (q :: l1) _ _ H) as Ht.
  pose proof (chain_det _ _ _ _ _ _ H Ht) as E.
  apply (f_equal length) in E. simpl in E. rewrite length_app in E.
  simpl in E. lia.
Qed.

Lemma distinct_pointers_bound l (n : nat) :
  NoDup l → Forall (λ q, (q < n)%nat) l → (length l ≤ n)%nat.
Proof.
  intros Hnd Hlt.
  assert (length l ≤ length (seq 0 n))%nat as H;
    [|by rewrite length_seq in H].
  apply submseteq_length.
  apply NoDup_submseteq; [done|].
  intros q Hq. rewrite Forall_forall in Hlt. apply elem_of_seq.
  specialize (Hlt q Hq). lia.
Qed.

(** The fuel [Predecessors] walks with is enough for every walk
    that ends at all. *)
Lemma chain_fuel_adequate f st x l :
  Block.chain f st x = Some l → Block.chain (length st) st x = Some l.
Proof.
  intros H. eapply chain_fuel_mono; [by eapply chain_min_fuel|].
  apply distinct_pointers_bound;
    [by eapply chain_NoDup|by eapply chain_allocated].
Qed.

Lemma chain_frame f st st' x l :
  Block.chain f st x = Some l →
  (∀ q, q ∈ l →
        Block.neighboring_predecessor_ <$> Block.deref st' q
        = Block.neighboring_predecessor_ <$> Block.deref st q) →
  Block.chain f st' x = Some l.
Proof.
  revert x l. induction f as [|f IH]; intros x l H Hsame.
  - destruct x; [done|]. done.
  - destruct x as [p|]; [|done]. simpl in *.
    destruct (Block.deref st p) as [b|] eqn:D; [|done]. simpl in H.
    destruct (Block.chain f st _) as [rest|] eqn:E; [|done].
    injection H as <-.
    pose proof (Hsame p ltac:(left)) as Hp. rewrite D in Hp.
    destruct (Block.deref st' p) as [b'|]; [|done]. simpl in *.
    injection Hp as ->.
    rewrite (IH _ _ E); [done|].
    intros q Hq. apply Hsame. by right.
Qed.

(** *** [AddPredecessor] *)

Lemma AddPredecessor_step st this p b l :
  Block.deref st this = Some b →
  Block.chain (length st) st (Block.last_predecessor_ b) = Some l →
  p ∉ l → is_Some (Block.deref st p) →
  ∃ st1 b1,
    Block.AddPredecessor this p st = Some st1 ∧
    length st1 = length st ∧
    Block.deref st1 this = Some b1 ∧
    Block.chain (length st1) st1 (Block.last_predecessor_ b1) = Some (p :: l) ∧
    (∀ q, is_Some (Block.deref st q) → is_Some (Block.deref st1 q)).
Proof.
  intros Dthis Hchain Hnotin [bp Dp].
  pose proof (deref_lt _ _ _ Dthis) as Lthis.
  pose proof (deref_lt _ _ _ Dp) as Lp.
  set (bp' := Block.with_neighboring_predecessor (Block.last_predecessor_ b) bp).
  set (stm := <[p := Some bp']> st).
  assert (length stm = length st) as Lm by apply length_insert.
  assert (∃ bm, Block.deref stm this = Some bm ∧
                Block.neighboring_predecessor_ bm
                = (if decide (this = p) then Block.last_predecessor_ b
                   else Block.neighboring_predecessor_ b))
    as (bm & Dm & Nm).
  { destruct (decide (this = p)) as [->|Hne].
    - exists bp'. split; [by apply deref_insert_eq|done].
    - exists b. split; [|done]. unfold stm. by rewrite deref_insert_ne. }
  set (b1 := Block.with_last_predecessor (Some p) bm).
  set (st1 := <[this := Some b1]> stm).
  assert (length st1 = length st) as L1
    by (unfold st1; rewrite length_insert; done).
  assert (Block.deref st1 this = Some b1) as D1
    by (apply deref_insert_eq; lia).
  assert (Block.neighboring_predecessor_ <$> Block.deref st1 p
          = Some (Block.last_predecessor_ b)) as Np.
  { destruct (decide (this = p)) as [->|Hne].
    - rewrite D1. simpl. by rewrite Nm.
    - unfold st1. rewrite deref_insert_ne by done.
      unfold stm. rewrite deref_insert_eq by done. done. }
  assert (∀ q, q ∈ l →
               Block.neighboring_predecessor_ <$> Block.deref st1 q
               = Block.neighboring_predecessor_ <$> Block.deref st q) as Hsame.
  { intros q Hq. assert (q ≠ p) as Hqp by (intros ->; done).
    destruct (decide (this = q)) as [->|Hne].
    - rewrite D1, Dthis. simpl. rewrite Nm. by rewrite decide_False.
    - unfold st1. rewrite deref_insert_ne by done.
      unfold stm. by rewrite deref_insert_ne. }
  exists st1, b1. split; [|split; [done|split; [done|split]]].
  - unfold Block.AddPredecessor. rewrite Dthis. simpl. rewrite Dp. simpl.
    fold bp'. fold stm. rewrite Dm. simpl. done.
  - simpl.
    assert (S (length l) ≤ length st)%nat as Hfuel.
    { apply (distinct_pointers_bound (p :: l)).
      - constructor; [done|by eapply chain_NoDup].
      - constructor; [done|by eapply chain_allocated]. }
    pose proof (chain_min_fuel _ _ _ _ Hchain) as Hmin.
    rewrite L1. destruct (length st) as [|n] eqn:En; [lia|].
    simpl Block.chain.
    destruct (Block.deref st1 p) as [bp1|]; [|done]. simpl in Np |- *.
    injection Np as ->.
    assert (Block.chain n st1 (Block.last_predecessor_ b) = Some l) as ->;
      [|done].
    eapply chain_frame; [|exact Hsame].
    eapply chain_fuel_mono; [exact Hmin|lia].
  - intros q [bq Dq].
    destruct (decide (this = q)) as [->|Hne]; [by rewrite D1|].
    unfold st1. rewrite deref_insert_ne by done.
    destruct (decide (p = q)) as [->|Hne'].
    + unfold stm. rewrite deref_insert_eq by done. eauto.
    + unfold stm. rewrite deref_insert_ne by done. eauto.
Qed.

Lemma Predecessors_chain st this ps :
  Block.Predecessors st this = Some ps ↔
  ∃ b, Block.deref st this = Some b ∧
       Block.chain (length st) st (Block.last_predecessor_ b)
       = Some (reverse ps).
Proof.
  unfold Block.Predecessors. split.
  - destruct (Block.deref st this) as [b|]; [|done]. simpl.
    destruct (Block.chain _ _ _) as [l|] eqn:E; [|done]. simpl.
    intros [= <-]. exists b. by rewrite reverse_involutive.
  - intros (b & -> & H). simpl. rewrite H. simpl.
    by rewrite reverse_involutive.
Qed.

(** C6, as far as it holds: the accessor returns the predecessors in
    the order of the [AddPredecessor] calls, after those the block
    had already, for every sequence of calls that names no block
    twice and none that is in the chain already. *)
Theorem Predecessors_in_call_order st this old preds :
  Block.Predecessors st this = Some old →
  NoDup (old ++ preds) →
  Forall (λ p, is_Some (Block.deref st p)) preds →
  ∃ st',
    add_predecessors this preds st = Some st' ∧
    Block.Predecessors st' this = Some (old ++ preds).
Proof.
  revert st old. induction preds as [|p preds IH]; intros st old Hold Hnd Hall.
  - exists st. rewrite app_nil_r. done.
  - inversion Hall as [|? ? Hp Hall']; subst.
    apply Predecessors_chain in Hold as (b & Db & Hchain).
    rewrite cons_middle, app_assoc in Hnd.
    assert (p ∉ reverse old) as Hnotin.
    { apply NoDup_app in Hnd as (Hnd & _ & _).
      apply NoDup_app in Hnd as (_ & Hdisj & _).
      intros Hin. rewrite elem_of_reverse in Hin. apply (Hdisj p Hin). by left. }
    destruct (AddPredecessor_step _ _ _ _ _ Db Hchain Hnotin Hp)
      as (st1 & b1 & HA & L1 & D1 & Hchain1 & Hkeep).
    destruct (IH st1 (old ++ [p])) as (st' & Hrest & Hpreds).
    + apply Predecessors_chain. exists b1. split; [done|].
      by rewrite reverse_app.
    + done.
    + eapply Forall_impl; [exact Hall'|]. intros q. apply Hkeep.
    + exists st'. simpl. rewrite HA. simpl. split; [done|].
      by rewrite cons_middle, app_assoc.
Qed.

End BlockFacts.

(** The store in which block 0 was given block 1 as predecessor twice. *)
Example add_predecessor_twice :
  add_predecessors 0 [1; 1]%nat
    [Some (Block.new Block.kMerge); Some (Block.new Block.kBranchTarget)]
  = Some [Some (Block.with_last_predecessor (Some 1%nat)
                  (Block.new Block.kMerge));
          Some (Block.with_neighboring_predecessor (Some 1%nat)
                  (Block.new Block.kBranchTarget))].
Proof. reflexivity. Qed.

(** There the chain of block 0 runs in a circle: no amount of fuel
    brings the walk of [Predecessors] to an end. *)
Example add_predecessor_twice_never_ends fuel :
  Block.chain fuel
    [Some (Block.with_last_predecessor (Some 1%nat)
             (Block.new Block.kMerge));
     Some (Block.with_neighboring_predecessor (Some 1%nat)
             (Block.new Block.kBranchTarget))]
    (Some 1%nat) = None.
Proof. induction fuel as [|fuel IH]; [done|]. simpl. by rewrite IH. Qed.

(** C6 as written fails: two calls with the same predecessor pass
    every check of [AddPredecessor] and leave a chain on which
    [Predecessors] returns nothing. *)
Lemma predecessors_in_call_order_fails_on_repeats :
  ¬ predecessors_in_call_order_for_every_sequence.
Proof.
  intros H.
  assert (Forall (λ p, is_Some (Block.deref
                                  [Some (Block.new Block.kMerge);
                                   Some (Block.new Block.kBranchTarget)] p))
            [1; 1]%nat) as Hall
    by (repeat constructor; by eexists).
  pose proof (H [Some (Block.new Block.kMerge);
                 Some (Block.new Block.kBranchTarget)]
                0%nat (Block.new Block.kMerge) [1; 1]%nat _
                eq_refl eq_refl Hall add_predecessor_twice) as H'.
  vm_compute in H'. discriminate H'.
Qed.

Lemma Predecessors_in_call_order_witness :
  ∃ st',
    add_predecessors 3 [1; 2]%nat
      [Some (Block.new Block.kBranchTarget);
       Some (Block.new Block.kBranchTarget);
       Some (Block.new Block.kBranchTarget);
       Some (Block.new Block.kMerge)] = Some st' ∧
    Block.Predecessors st' 3%nat = Some [1; 2]%nat.
Proof.
  apply (Predecessors_in_call_order
           [Some (Block.new Block.kBranchTarget);
            Some (Block.new Block.kBranchTarget);
            Some (Block.new Block.kBranchTarget);
            Some (Block.new Block.kMerge)] 3%nat [] [1; 2]%nat).
  - reflexivity.
  - simpl. apply NoDup_cons. split; [|apply NoDup_singleton].
    intros Hin. apply list_elem_of_singleton in Hin. discriminate Hin.
  - repeat constructor; by eexists.
Defined.

(** ** The graph and its blocks *)

Section GraphFacts.

Implicit Types (g : Graph.t) (st : list (option Block.t)) (p q : nat).

(** *** [NewBlock] *)

Lemma NewBlock_spec kind g st :
  pool_wf g st →
  ∃ p g' st',
    Graph.NewBlock kind g st = Some (p, g', st') ∧
    Block.deref st' p = Some (Block.new kind) ∧
    pool_wf g' st' ∧
    Graph.next_block_ g' = usize (Graph.next_block_ g + 1) ∧
    Graph.bound_blocks_ g' = Graph.bound_blocks_ g ∧
    Graph.all_blocks_ g' !! Z.to_nat (Graph.next_block_ g) = Some p ∧
    (∀ (n : nat) q, Z.of_nat n < Graph.next_block_ g →
                    Graph.all_blocks_ g !! n = Some q →
                    Graph.all_blocks_ g' !! n = Some q ∧
                    Block.deref st' q = Block.deref st q).
Proof.
  intros [Hnd Hall Hcur].
  assert (∃ all1 st1,
            (if decide (Graph.next_block_ g
                        = Z.of_nat (length (Graph.all_blocks_ g)))
             then (Graph.with_all_blocks
                     (Graph.all_blocks_ g
                      ++ seq (length st) (Z.to_nat Graph.new_block_count)) g,
                   st ++ NewArray Graph.new_block_count)
             else (g, st)) = (Graph.with_all_blocks all1 g, st1) ∧
            NoDup all1 ∧ Forall (λ q, (q < length st1)%nat) all1 ∧
            Graph.next_block_ g < Z.of_nat (length all1) ∧
            (∀ n q, Graph.all_blocks_ g !! n = Some q → all1 !! n = Some q) ∧
            (∀ q, (q < length st)%nat → st1 !! q = st !! q))
    as (all1 & st1 & E & Hnd1 & Hall1 & Hcur1 & Hkeep & Hst).
  { destruct (decide _) as [Hfull|Hroom].
    - eexists _, _. split; [done|].
      split; [|split; [|split; [|split]]].
      + apply NoDup_app. split; [done|]. split; [|apply NoDup_seq].
        intros q Hq Hq'. apply elem_of_seq in Hq'.
        rewrite Forall_forall in Hall. specialize (Hall q Hq). lia.
      + apply Forall_app. split.
        * eapply Forall_impl; [exact Hall|]. intros q Hq. simpl in Hq.
          rewrite length_app. lia.
        * apply Forall_forall. intros q Hq. apply elem_of_seq in Hq.
          rewrite length_app. unfold NewArray. rewrite length_replicate. lia.
      + rewrite length_app, length_seq. unfold Graph.new_block_count. lia.
      + intros n q Hq. by apply lookup_app_l_Some.
      + intros q Hq. by apply lookup_app_l.
    - exists (Graph.all_blocks_ g), st. split; [by destruct g|].
      split; [done|]. split; [done|]. split; [lia|]. done. }
  destruct (lookup_lt_is_Some_2 all1 (Z.to_nat (Graph.next_block_ g)))
    as [p Hp]; [lia|].
  assert (p < length st1)%nat as Lp.
  { rewrite Forall_forall in Hall1. apply Hall1.
    by eapply list_elem_of_lookup_2. }
  exists p, (Graph.with_next_block (usize (Graph.next_block_ g + 1))
               (Graph.with_all_blocks all1 g)),
         (<[p := Some (Block.new kind)]> st1).
  split; [|split; [|split; [|split; [|split; [|split]]]]].
  - unfold Graph.NewBlock. rewrite E. simpl. rewrite Hp. simpl.
    rewrite decide_True by done. done.
  - by apply deref_insert_eq.
  - constructor; simpl; [done| |].
    + eapply Forall_impl; [exact Hall1|]. intros q Hq. simpl in Hq.
      by rewrite length_insert.
    + unfold usize.
      pose proof (Z.mod_pos_bound (Graph.next_block_ g + 1) (2 ^ 64) ltac:(lia)).
      pose proof (Z.mod_le (Graph.next_block_ g + 1) (2 ^ 64) ltac:(lia) ltac:(lia)).
      lia.
  - done.
  - done.
  - done.
  - intros n q Hn Hq. split; [by apply Hkeep|].
    assert (q ≠ p) as Hne.
    { intros ->. apply Hkeep in Hq.
      pose proof (NoDup_lookup _ _ _ _ Hnd1 Hq Hp). lia. }
    rewrite deref_insert_ne by done.
    unfold Block.deref. rewrite Hst; [done|].
    rewrite Forall_forall in Hall. apply Hall.
    by eapply list_elem_of_lookup_2.
Qed.

(** C10: whatever the state of the pool, be the object behind the
    cursor a cell the zone has just handed out or one that an
    earlier phase has used, the block [NewBlock] returns is exactly
    [Block(kind)]: it has the kind asked for, no index, no
    predecessors, neither [begin] nor [end], and is not deferred. *)
Theorem NewBlock_reinitialises kind g st :
  pool_wf g st →
  ∃ p g' st' b,
    Graph.NewBlock kind g st = Some (p, g', st') ∧
    Block.deref st' p = Some b ∧
    Block.kind b = kind ∧
    Block.IsBound b = false ∧
    Block.index b = BlockIndex_Invalid ∧
    Block.HasPredecessors b = false ∧
    Block.Predecessors st' p = Some [] ∧
    OpIndex_valid (Block.begin_ b) = false ∧
    OpIndex_valid (Block.end_ b) = false ∧
    Block.IsDeferred b = false.
Proof.
  intros Hwf.
  destruct (NewBlock_spec kind g st Hwf) as (p & g' & st' & HN & D & _).
  exists p, g', st', (Block.new kind).
  split; [done|]. split; [done|]. repeat split.
  unfold Block.Predecessors. rewrite D. simpl.
  by destruct (length st').
Qed.

(** *** [Add(Block* block)] *)

(** On a chain that the accessor can walk, the loop of [Add] ends
    and says whether all the blocks on it are deferred. *)
Lemma all_deferred_chain f st x l :
  Block.chain f st x = Some l →
  Block.all_deferred f st x = Some (forallb (deferred_at st) l).
Proof.
  revert x l. induction f as [|f IH]; intros x l H.
  - destruct x; [done|]. by injection H as <-.
  - destruct x as [q|]; [|by injection H as <-]. simpl in *.
    destruct (Block.deref st q) as [b|] eqn:D; [|done]. simpl in *.
    destruct (Block.chain f st _) as [rest|] eqn:E; [|done].
    injection H as <-. simpl. unfold deferred_at at 1. rewrite D.
    destruct (Block.IsDeferred b); simpl; [by apply IH|done].
Qed.

Lemma all_deferred_fuel_mono f f' st x d :
  Block.all_deferred f st x = Some d → (f ≤ f')%nat →
  Block.all_deferred f' st x = Some d.
Proof.
  revert f' x. induction f as [|f IH]; intros f' x H Hle.
  - destruct x; [done|]. injection H as <-. by destruct f'.
  - destruct x as [q|]; [|injection H as <-; by destruct f'].
    destruct f' as [|f']; [lia|]. simpl in *.
    destruct (Block.deref st q) as [b|]; [|done]. simpl in *.
    destruct (Block.IsDeferred b); simpl in *; [|done].
    apply IH; [done|lia].
Qed.

Lemma deref_stop_after_non_deferred st q :
  Block.deref (stop_after_non_deferred st) q
  = (λ b, if Block.IsDeferred b then b
          else Block.with_neighboring_predecessor None b)
    <$> Block.deref st q.
Proof.
  unfold Block.deref, stop_after_non_deferred. rewrite list_lookup_fmap.
  destruct (st !! q) as [[b|]|]; done.
Qed.

Lemma all_deferred_walk f st x d :
  Block.all_deferred f st x = Some d →
  ∃ l, Block.chain f (stop_after_non_deferred st) x = Some l.
Proof.
  revert x. induction f as [|f IH]; intros x H.
  - destruct x; [done|]. by exists [].
  - destruct x as [q|]; [|by exists []]. simpl in *.
    rewrite deref_stop_after_non_deferred.
    destruct (Block.deref st q) as [b|]; [|done]. simpl in *.
    destruct (Block.IsDeferred b); simpl in *.
    + destruct (IH _ H) as (l & ->). simpl. eauto.
    + destruct f; simpl; eauto.
Qed.

Lemma walk_all_deferred f st x l :
  Block.chain f (stop_after_non_deferred st) x = Some l →
  is_Some (Block.all_deferred f st x).
Proof.
  revert x l. induction f as [|f IH]; intros x l H.
  - destruct x; [done|]. by eexists.
  - destruct x as [q|]; [|by eexists]. simpl in *.
    rewrite deref_stop_after_non_deferred in H.
    destruct (Block.deref st q) as [b|]; [|done]. simpl in *.
    destruct (Block.IsDeferred b); simpl in *; [|by eexists].
    destruct (Block.chain f _ _) as [rest|] eqn:E; [|done].
    by eapply IH.
Qed.

(** The fuel the loop of [Add] is given is enough whenever the loop
    ends at all. *)
Lemma all_deferred_fuel_adequate f st x d :
  Block.all_deferred f st x = Some d →
  Block.all_deferred (length st) st x = Some d.
Proof.
  intros H. destruct (all_deferred_walk _ _ _ _ H) as (l & Hl).
  apply chain_fuel_adequate in Hl.
  unfold stop_after_non_deferred in Hl at 1. rewrite length_fmap in Hl.
  destruct (walk_all_deferred _ _ _ _ Hl) as [d' Hd'].
  pose proof (all_deferred_fuel_mono _ (f `max` length st) _ _ _ H ltac:(lia)).
  pose proof (all_deferred_fuel_mono _ (f `max` length st) _ _ _ Hd' ltac:(lia)).
  congruence.
Qed.

Lemma forallb_reverse {A} (f : A → bool) (l : list A) :
  forallb f (reverse l) = forallb f l.
Proof.
  induction l as [|a l IH]; [done|].
  rewrite reverse_cons, forallb_app. simpl. rewrite IH.
  destruct (forallb f l), (f a); done.
Qed.

Lemma Add_spec g st p b ps :
  Block.deref st p = Some b →
  Block.Predecessors st p = Some ps →
  Graph.Add p g st =
  Some (if negb (bool_decide (Graph.bound_blocks_ g = []))
           && negb (Block.HasPredecessors b)
        then (false, g, st)
        else (true,
              Graph.with_bound_blocks (Graph.bound_blocks_ g ++ [p]) g,
              <[p := Some (Block.with_index
                             (BlockIndex_new
                                (Z.of_nat (length (Graph.bound_blocks_ g))))
                             (Block.with_begin (Graph.next_operation_index g)
                                (Block.SetDeferred
                                   (forallb (deferred_at st) ps) b)))]> st)).
Proof.
  intros D Hps. apply Predecessors_chain in Hps as (b0 & D0 & Hchain).
  assert (b0 = b) as -> by congruence.
  unfold Graph.Add. rewrite D. simpl.
  destruct (_ && _); [done|].
  rewrite (all_deferred_chain _ _ _ _ Hchain). simpl.
  by rewrite forallb_reverse.
Qed.

(** A block has no predecessors, for the accessor, exactly when the
    test [HasPredecessors] of [Add] fails. *)
Lemma HasPredecessors_false_iff st p b :
  Block.deref st p = Some b →
  Block.HasPredecessors b = false ↔ Block.Predecessors st p = Some [].
Proof.
  intros D. unfold Block.HasPredecessors, Block.Predecessors.
  rewrite D. simpl.
  destruct (Block.last_predecessor_ b) as [q|] eqn:E.
  - rewrite bool_decide_false by done. simpl. split; [done|].
    destruct (Block.chain _ _ _) as [l|] eqn:C; simpl; [|done].
    intros [= Hr]. apply (f_equal length) in Hr.
    rewrite length_reverse in Hr.
    destruct l as [|x l]; [|done].
    destruct (length st); simpl in C; [done|].
    destruct (Block.deref st q); simpl in C; [|done].
    destruct (Block.chain _ _ _); simpl in C; done.
  - rewrite bool_decide_true by done. simpl. split; [|done].
    intros _. by destruct (length st).
Qed.

(** The loop of [Add] ends when the walk over the predecessors that
    stops after the first block that is not deferred ends. *)
Lemma Add_flag_loop_ends st p b :
  Block.deref st p = Some b →
  is_Some (Block.Predecessors (stop_after_non_deferred st) p) →
  is_Some (Block.all_deferred (length st) st (Block.last_predecessor_ b)).
Proof.
  intros D [ps HP]. apply Predecessors_chain in HP as (b' & D' & HC).
  rewrite deref_stop_after_non_deferred, D in D'. simpl in D'.
  injection D' as <-.
  assert (length (stop_after_non_deferred st) = length st) as L.
  { unfold stop_after_non_deferred. by rewrite length_fmap. }
  rewrite L in HC.
  eapply walk_all_deferred.
  by destruct (Block.IsDeferred b).
Qed.

(** The walk that stops after the first block that is not deferred
    ends whenever the whole walk of [Predecessors()] does. *)
Lemma stopped_walk_ends_when_Predecessors_returns st p :
  is_Some (Block.Predecessors st p) →
  is_Some (Block.Predecessors (stop_after_non_deferred st) p).
Proof.
  intros [ps HP]. apply Predecessors_chain in HP as (b & D & HC).
  pose proof (all_deferred_chain _ _ _ _ HC) as HA.
  destruct (all_deferred_walk _ _ _ _ HA) as [l Hl].
  exists (reverse l). apply Predecessors_chain.
  eexists. split.
  - rewrite deref_stop_after_non_deferred, D. simpl. done.
  - unfold stop_after_non_deferred at 1. rewrite length_fmap.
    rewrite reverse_involutive.
    by destruct (Block.IsDeferred b).
Qed.

(** C5, as far as it holds: [Add] refuses a block exactly when some
    block is bound already and [Predecessors()] of the block is empty,
    and then changes nothing, neither in the graph nor in the block;
    otherwise, when the walk over the predecessors up to the first one
    that is not deferred ends (as it does when [Predecessors()]
    returns), it returns true, appends the block to the bound list and
    gives it the number of blocks bound before it as its index, under
    which [Get] finds it. *)
Theorem Add_binds_or_refuses g st p b :
  Block.deref st p = Some b →
  is_Some (Block.Predecessors (stop_after_non_deferred st) p) →
  Z.of_nat (length (Graph.bound_blocks_ g)) < kMaxUInt32 →
  ∃ r g' st',
    Graph.Add p g st = Some (r, g', st') ∧
    (r = false ↔
     Graph.bound_blocks_ g ≠ [] ∧ Block.Predecessors st p = Some []) ∧
    (r = false → g' = g ∧ st' = st) ∧
    (r = true →
     ∃ b', Block.deref st' p = Some b' ∧
           Block.index b'
           = mkBlockIndex (Z.of_nat (length (Graph.bound_blocks_ g))) ∧
           Block.IsBound b' = true ∧
           Graph.bound_blocks_ g' = Graph.bound_blocks_ g ++ [p] ∧
           Graph.Get_block g' (Block.index b') = Some p).
Proof.
  intros D Hwalk Hlen. unfold kMaxUInt32 in Hlen.
  pose proof (deref_lt _ _ _ D) as Lp.
  pose proof (HasPredecessors_false_iff _ _ _ D) as Hno.
  destruct (Add_flag_loop_ends _ _ _ D Hwalk) as [d Hd].
  unfold Graph.Add. rewrite D. simpl.
  destruct (bool_decide (Graph.bound_blocks_ g = [])) eqn:Hb;
    [apply bool_decide_eq_true in Hb|apply bool_decide_eq_false in Hb];
    destruct (Block.HasPredecessors b) eqn:Hh; simpl;
    rewrite ?Hd; simpl;
    eexists _, _, _; (split; [done|]).
  all: try (split;
            [split; [done|intros [Hne HP]; first [done|by apply Hno in HP]]|];
            split; [done|]; intros _;
            eexists; split; [by apply deref_insert_eq|];
            unfold BlockIndex_new; rewrite u32_small by lia; simpl;
            split; [done|]; split;
            [ unfold Block.IsBound, BlockIndex_Invalid, kMaxUInt32; simpl;
              rewrite bool_decide_eq_false_2; [done|];
              intros [= E]; lia
            | split; [done|];
              unfold Graph.Get_block; simpl; rewrite Nat2Z.id;
              by rewrite lookup_app_r, Nat.sub_diag by lia ]).
  split; [split; [intros _; split; [done|by apply Hno]|done]|].
  split; [done|]. done.
Qed.

(** C2, as far as it holds: the flag that [Add] stores is true
    exactly when every predecessor of the block is deferred, and
    that is the case, for want of any predecessor, of the block
    bound first. *)
Theorem Add_stores_all_predecessors_deferred g st p ps g' st' b' :
  Block.Predecessors st p = Some ps →
  Graph.Add p g st = Some (true, g', st') →
  Block.deref st' p = Some b' →
  (Block.IsDeferred b' = true ↔ Forall (λ q, deferred_at st q = true) ps) ∧
  (ps = [] → Block.IsDeferred b' = true).
Proof.
  intros Hps HA D'.
  pose proof Hps as (b & D & _)%Predecessors_chain.
  pose proof (deref_lt _ _ _ D) as Lp.
  rewrite (Add_spec _ _ _ _ _ D Hps) in HA.
  destruct (_ && _); [done|]. injection HA as <- <-.
  rewrite deref_insert_eq in D' by done. injection D' as <-. simpl.
  split; [|by intros ->].
  rewrite <- Is_true_true, forallb_True. apply Forall_iff.
  intros q. by rewrite Is_true_true.
Qed.

(** *** The bound list along the calls of a phase *)

Lemma live_allocated g st p :
  pool_wf g st → live g p → p ∈ Graph.all_blocks_ g ∧ (p < length st)%nat.
Proof.
  intros [_ Hall _] (n & _ & Hn).
  apply list_elem_of_lookup_2 in Hn. split; [done|].
  rewrite Forall_forall in Hall. by apply Hall.
Qed.

Lemma graph_wf_same_blocks g g' st :
  Graph.bound_blocks_ g' = Graph.bound_blocks_ g →
  Graph.all_blocks_ g' = Graph.all_blocks_ g →
  Graph.next_block_ g' = Graph.next_block_ g →
  graph_wf g st → graph_wf g' st.
Proof.
  intros Eb Ea En [[Hnd Hall Hcur] Hlive Hidx].
  constructor.
  - constructor; rewrite ?Ea, ?En; done.
  - rewrite Eb. eapply Forall_impl; [exact Hlive|].
    intros q (n & Hn & Hq). exists n. by rewrite Ea, En.
  - intros i q. rewrite Eb. apply Hidx.
Qed.

(** A write to the block store that keeps every block's index. *)
Lemma graph_wf_store g st st' :
  length st' = length st →
  (∀ q b, Block.deref st q = Some b →
          ∃ b', Block.deref st' q = Some b' ∧ Block.index b' = Block.index b) →
  graph_wf g st → graph_wf g st'.
Proof.
  intros Hlen Hkeep [[Hnd Hall Hcur] Hlive Hidx].
  constructor; [constructor| |]; try done.
  - by rewrite Hlen.
  - intros i q Hq. destruct (Hidx i q Hq) as (b & D & Hi).
    destruct (Hkeep q b D) as (b' & D' & Hi'). exists b'.
    split; [done|]. congruence.
Qed.

Lemma insert_keeps_index st p b b1 :
  Block.deref st p = Some b → Block.index b1 = Block.index b →
  ∀ q bq, Block.deref st q = Some bq →
          ∃ b', Block.deref (<[p := Some b1]> st) q = Some b' ∧
                Block.index b' = Block.index bq.
Proof.
  intros D Hi q bq Dq. destruct (decide (p = q)) as [->|Hne].
  - exists b1. rewrite deref_insert_eq by (by eapply deref_lt).
    split; [done|]. congruence.
  - exists bq. by rewrite deref_insert_ne.
Qed.

Lemma AddPredecessor_keeps_index this p st st' :
  Block.AddPredecessor this p st = Some st' →
  length st' = length st ∧
  ∀ q b, Block.deref st q = Some b →
         ∃ b', Block.deref st' q = Some b' ∧ Block.index b' = Block.index b.
Proof.
  unfold Block.AddPredecessor. intros H.
  destruct (Block.deref st this) as [b|] eqn:D; [|done]. simpl in H.
  destruct (Block.deref st p) as [bp|] eqn:Dp; [|done]. simpl in H.
  destruct (Block.deref (<[p := _]> st) this) as [bm|] eqn:Dm; [|done].
  simpl in H. injection H as <-.
  split; [by rewrite !length_insert|].
  intros q bq Dq.
  destruct (insert_keeps_index st p bp
              (Block.with_neighboring_predecessor
                 (Block.last_predecessor_ b) bp) Dp eq_refl q bq Dq)
    as (b1 & D1 & E1).
  destruct (insert_keeps_index _ this bm
              (Block.with_last_predecessor (Some p) bm) Dm eq_refl q b1 D1)
    as (b2 & D2 & E2).
  exists b2. split; [done|]. congruence.
Qed.

Lemma Add_wf g st p r g' st' (n : Z) :
  graph_wf g st →
  Z.of_nat (length (Graph.bound_blocks_ g)) ≤ n → n + 1 < kMaxUInt32 →
  live g p →
  (∃ b, Block.deref st p = Some b ∧ Block.IsBound b = false) →
  Graph.Add p g st = Some (r, g', st') →
  graph_wf g' st' ∧
  Z.of_nat (length (Graph.bound_blocks_ g')) ≤ n + 1 ∧
  Graph.next_block_ g' = Graph.next_block_ g.
Proof.
  intros Hwf Hn Hmax Hlive (b & D & Hunbound) HA.
  unfold kMaxUInt32 in Hmax.
  unfold Graph.Add in HA. rewrite D in HA. simpl in HA.
  destruct (_ && _).
  { injection HA as <- <- <-. split; [done|]. split; [lia|done]. }
  destruct (Block.all_deferred _ _ _) as [d|]; [|done]. simpl in HA.
  injection HA as <- <- <-. simpl.
  split; [|split; [rewrite length_app; simpl; lia|done]].
  pose proof (deref_lt _ _ _ D) as Lp.
  destruct Hwf as [[Hnd Hall Hcur] Hbl Hidx].
  constructor; [constructor| |]; simpl; try done.
  - eapply Forall_impl; [exact Hall|]. intros q Hq. simpl in Hq.
    by rewrite length_insert.
  - apply Forall_app. split; [done|]. by constructor.
  - intros i q Hq. apply lookup_app_Some in Hq as [Hq|[Hi Hq]].
    + destruct (Hidx i q Hq) as (bq & Dq & Hiq).
      assert (q ≠ p) as Hne.
      { intros ->. assert (bq = b) as -> by congruence.
        apply lookup_lt_Some in Hq.
        unfold Block.IsBound in Hunbound. unfold Block.index in Hiq.
        rewrite Hiq in Hunbound.
        rewrite bool_decide_eq_false_2 in Hunbound; [done|].
        unfold BlockIndex_Invalid, kMaxUInt32. intros [= E]. lia. }
      exists bq. by rewrite deref_insert_ne.
    + apply list_lookup_singleton_Some in Hq as [Hi0 <-].
      eexists. split; [by apply deref_insert_eq|]. simpl.
      unfold BlockIndex_new. rewrite u32_small by lia. f_equal. lia.
Qed.

Lemma NewBlock_wf kind g st p g' st' (n : Z) :
  graph_wf g st → Graph.next_block_ g ≤ n → n + 1 < kMaxUInt32 →
  Graph.NewBlock kind g st = Some (p, g', st') →
  graph_wf g' st' ∧
  Graph.bound_blocks_ g' = Graph.bound_blocks_ g ∧
  Graph.next_block_ g' ≤ n + 1.
Proof.
  intros [Hpool Hbl Hidx] Hn Hmax HN. unfold kMaxUInt32 in Hmax.
  destruct (NewBlock_spec kind g st Hpool)
    as (p0 & g0 & st0 & HN0 & D0 & Hpool0 & Hnext & Hbound & Hp0 & Hkeep).
  rewrite HN in HN0. injection HN0 as <- <- <-.
  pose proof (pool_cursor _ _ Hpool) as Hcur.
  rewrite usize_small in Hnext by lia.
  split; [|split; [done|lia]].
  constructor; [done| |].
  - rewrite Hbound. eapply Forall_impl; [exact Hbl|].
    intros q (m & Hm & Hq). exists m. split; [lia|].
    by apply (Hkeep m q Hm Hq).
  - intros i q Hq. rewrite Hbound in Hq.
    destruct (Hidx i q Hq) as (bq & Dq & Hiq).
    apply list_elem_of_lookup_2 in Hq.
    rewrite Forall_forall in Hbl. destruct (Hbl q Hq) as (m & Hm & Hqm).
    destruct (Hkeep m q Hm Hqm) as [_ E].
    exists bq. split; [congruence|done].
Qed.

Lemma run_call_wf kSlotsPerId c g st g' st' (n : Z) :
  graph_wf g st →
  Z.of_nat (length (Graph.bound_blocks_ g)) ≤ n → Graph.next_block_ g ≤ n →
  n + 1 < kMaxUInt32 →
  call_ok c g st →
  run_call kSlotsPerId c g st = Some (g', st') →
  graph_wf g' st' ∧
  Z.of_nat (length (Graph.bound_blocks_ g')) ≤ n + 1 ∧
  Graph.next_block_ g' ≤ n + 1.
Proof.
  intros Hwf Hb Hnx Hmax Hok H.
  destruct c as [kind|block|block pred|block d|block|image|]; simpl in H.
  - destruct (Graph.NewBlock kind g st) as [[[p g1] st1]|] eqn:HN; [|done].
    simpl in H. injection H as <- <-.
    destruct (NewBlock_wf _ _ _ _ _ _ n Hwf Hnx Hmax HN) as (? & E & ?).
    split; [done|]. rewrite E. split; [lia|done].
  - destruct (Graph.Add block g st) as [[[r g1] st1]|] eqn:HA; [|done].
    simpl in H. injection H as <- <-. destruct Hok as [Hlive Hunbound].
    destruct (Add_wf _ _ _ _ _ _ n Hwf Hb Hmax Hlive Hunbound HA)
      as (? & ? & E).
    split; [done|]. split; [done|]. rewrite E. lia.
  - destruct (Block.AddPredecessor block pred st) as [st1|] eqn:HP; [|done].
    simpl in H. injection H as <- <-.
    destruct (AddPredecessor_keeps_index _ _ _ _ HP) as [Hlen Hkeep].
    split; [by eapply graph_wf_store|]. lia.
  - destruct (Block.deref st block) as [b|] eqn:D; [|done].
    simpl in H. injection H as <- <-.
    split; [|lia].
    eapply graph_wf_store; [apply length_insert| |done].
    by apply (insert_keeps_index st block b).
  - unfold Graph.Finalize in H.
    destruct (Block.deref st block) as [b|] eqn:D; [|done].
    simpl in H. injection H as <- <-.
    split; [|lia].
    eapply graph_wf_store; [apply length_insert| |done].
    by apply (insert_keeps_index st block b).
  - unfold Graph.Add_op, Graph.Op_New, Graph.Allocate in H.
    destruct (OperationBuffer.Allocate _ _ _) as [[ptr o]|]; [|done].
    simpl in H. destruct (write_slots _ _ _) as [a|]; [|done].
    simpl in H. injection H as <- <-. simpl.
    split; [|lia]. by apply (graph_wf_same_blocks g).
  - injection H as <- <-. simpl. split; [|lia].
    destruct Hwf as [[Hnd Hall Hcur] Hbl Hidx].
    constructor; [constructor| |]; simpl; try done. lia.
Qed.

Lemma run_calls_wf kSlotsPerId cs g st g' st' (n : Z) :
  graph_wf g st →
  Z.of_nat (length (Graph.bound_blocks_ g)) ≤ n → Graph.next_block_ g ≤ n →
  n + Z.of_nat (length cs) < kMaxUInt32 →
  calls_ok kSlotsPerId cs g st →
  run_calls kSlotsPerId cs g st = Some (g', st') →
  graph_wf g' st'.
Proof.
  revert g st n. induction cs as [|c cs IH]; simpl;
    intros g st n Hwf Hb Hnx Hmax Hok H.
  - by injection H as <- <-.
  - destruct Hok as [Hc Hrest].
    destruct (run_call kSlotsPerId c g st) as [[g1 st1]|] eqn:Hrun; [|done].
    simpl in H.
    destruct (run_call_wf _ _ _ _ _ _ n Hwf Hb Hnx ltac:(lia) Hc Hrun)
      as (Hwf1 & Hb1 & Hnx1).
    eapply (IH g1 st1 (n + 1)); try done. lia.
Qed.

Lemma new_graph_wf kSlotsPerId zone initial_capacity :
  graph_wf (Graph.new kSlotsPerId zone initial_capacity) [].
Proof.
  constructor; [constructor| |]; simpl; try done.
  apply NoDup_nil_2.
Qed.

(** C9: at every point of a phase that builds a graph from a new
    one, through [NewBlock], [Add], [AddPredecessor], [SetDeferred],
    [Finalize], the addition of operations and [Reset], every block
    of the bound list stores its own position as its index, and
    [Get] of that index is the block itself.  The phase passes to
    [Add] blocks it got from [NewBlock] since the last [Reset] and
    that are not bound yet. *)
Theorem bound_block_index_round_trip
    kSlotsPerId zone initial_capacity cs g st (i : nat) p :
  Z.of_nat (length cs) < kMaxUInt32 →
  calls_ok kSlotsPerId cs (Graph.new kSlotsPerId zone initial_capacity) [] →
  run_calls kSlotsPerId cs (Graph.new kSlotsPerId zone initial_capacity) []
  = Some (g, st) →
  Graph.bound_blocks_ g !! i = Some p →
  ∃ b, Block.deref st p = Some b ∧
       Block.index b = mkBlockIndex (Z.of_nat i) ∧
       Graph.Get_block g (Block.index b) = Some p.
Proof.
  intros Hlen Hok Hrun Hp.
  assert (graph_wf g st) as [_ _ Hidx].
  { eapply (run_calls_wf kSlotsPerId cs _ _ _ _ 0
              (new_graph_wf kSlotsPerId zone initial_capacity));
      [simpl; lia|simpl; lia|lia|exact Hok|exact Hrun]. }
  destruct (Hidx i p Hp) as (b & D & Hi).
  exists b. split; [done|]. split; [done|].
  unfold Graph.Get_block. rewrite Hi. simpl. by rewrite Nat2Z.id.
Qed.

End GraphFacts.

(** The first block of a graph: made, then bound. *)
Example entry_block_is_bound_deferred :
  ∃ g st g' st' b',
    Graph.NewBlock Block.kMerge (Graph.new 2 0%nat 4) [] = Some (0%nat, g, st) ∧
    Block.Predecessors st 0%nat = Some [] ∧
    Graph.Add 0%nat g st = Some (true, g', st') ∧
    Block.deref st' 0%nat = Some b' ∧
    Block.IsDeferred b' = true.
Proof. eexists _, _, _, _, _. repeat split; vm_compute; reflexivity. Qed.

(** C2 as written fails: the block bound first has no predecessor,
    and [Add] flags it as deferred. *)
Lemma entry_block_refutes_deferred_rule :
  ¬ deferred_iff_some_and_all_predecessors_deferred.
Proof.
  intros H.
  destruct entry_block_is_bound_deferred
    as (g & st & g' & st' & b' & _ & Hps & HA & D & Hdef).
  destruct (H _ _ _ _ _ _ _ Hps HA D) as [H1 _].
  destruct (H1 Hdef) as [Hne _]. by apply Hne.
Qed.

(** *** The companion *)

(** C8, as far as it holds: two swaps in a row give back the arena,
    the bound list, the pool, its cursor and the zone of the graph,
    and leave its companion as it was after the first swap had made
    sure there is one.  When the graph had its companion before, the
    whole state is the one before the first swap. *)
Theorem SwapWithCompanion_twice kSlotsPerId g :
  Graph.SwapWithCompanion kSlotsPerId (Graph.SwapWithCompanion kSlotsPerId g)
  = Graph.with_companion
      (Some (Graph.GetOrCreateCompanion kSlotsPerId g).1) g ∧
  match Graph.companion_ g with
  | Some _ =>
      Graph.SwapWithCompanion kSlotsPerId
        (Graph.SwapWithCompanion kSlotsPerId g) = g
  | None =>
      Graph.companion_
        (Graph.SwapWithCompanion kSlotsPerId
           (Graph.SwapWithCompanion kSlotsPerId g))
      = Some (Graph.new kSlotsPerId (Graph.graph_zone_ g)
                (OperationBuffer.size (Graph.operations_ g)))
  end.
Proof.
  destruct g as [o bb ab nb z [c|]].
  - destruct c as [co cbb cab cnb cz cc]. split; reflexivity.
  - split; reflexivity.
Qed.

(** C8 as written fails: a graph that has no companion yet has one
    after the two swaps. *)
Lemma swap_twice_keeps_the_new_companion : ¬ swap_twice_is_identity.
Proof.
  intros H. specialize (H 2 (Graph.new 2 0%nat 4)).
  apply (f_equal Graph.companion_) in H. vm_compute in H. discriminate H.
Qed.

(** *** The graph theorems at work *)

Lemma NewBlock_reinitialises_witness :
  ∃ g st,
    run_calls 2 [CallNewBlock Block.kMerge; CallAdd 0%nat;
                 CallFinalize 0%nat; CallReset]
      (Graph.new 2 0%nat 4) [] = Some (g, st) ∧
    ∃ p g' st' b,
      Graph.NewBlock Block.kLoopHeader g st = Some (p, g', st') ∧
      Block.deref st' p = Some b ∧
      Block.kind b = Block.kLoopHeader ∧
      Block.IsBound b = false ∧
      Block.index b = BlockIndex_Invalid ∧
      Block.HasPredecessors b = false ∧
      Block.Predecessors st' p = Some [] ∧
      OpIndex_valid (Block.begin_ b) = false ∧
      OpIndex_valid (Block.end_ b) = false ∧
      Block.IsDeferred b = false.
Proof.
  eexists _, _. split; [vm_compute; reflexivity|].
  apply NewBlock_reinitialises.
  constructor; simpl.
  - exact (NoDup_seq 0 64).
  - apply Forall_forall. intros q Hq. apply (elem_of_seq 0 64) in Hq. simpl. lia.
  - lia.
Defined.

Lemma Add_binds_or_refuses_witness :
  ∃ g st,
    run_calls 2 [CallNewBlock Block.kMerge; CallNewBlock Block.kBranchTarget;
                 CallNewBlock Block.kBranchTarget; CallAdd 0%nat;
                 CallAddPredecessor 1%nat 0%nat]
      (Graph.new 2 0%nat 4) [] = Some (g, st) ∧
    Block.Predecessors st 1%nat = Some [0%nat] ∧
    Block.Predecessors st 2%nat = Some [] ∧
    (∃ g' st' b',
       Graph.Add 1%nat g st = Some (true, g', st') ∧
       Block.deref st' 1%nat = Some b' ∧
       Block.index b' = mkBlockIndex 1 ∧
       Graph.bound_blocks_ g' = [0; 1]%nat ∧
       Graph.Get_block g' (Block.index b') = Some 1%nat) ∧
    Graph.Add 2%nat g st = Some (false, g, st).
Proof.
  let r := eval vm_compute in
    (run_calls 2 [CallNewBlock Block.kMerge; CallNewBlock Block.kBranchTarget;
                  CallNewBlock Block.kBranchTarget; CallAdd 0%nat;
                  CallAddPredecessor 1%nat 0%nat]
       (Graph.new 2 0%nat 4) []) in
  lazymatch r with
  | Some (?G, ?ST) =>
      exists G, ST;
      split; [vm_compute; reflexivity|];
      split; [vm_compute; reflexivity|];
      split; [vm_compute; reflexivity|];
      split;
      [ destruct (Add_binds_or_refuses G ST 1%nat
                    (Block.with_last_predecessor (Some 0%nat)
                       (Block.new Block.kBranchTarget)))
          as (r1 & g1 & st1 & E1 & Hiff1 & _ & Hbind1);
        [ vm_compute; reflexivity
        | vm_compute; eexists; reflexivity
        | vm_compute; reflexivity
        | destruct r1;
          [ destruct (Hbind1 eq_refl) as (b1 & D1 & I1 & _ & B1 & G1);
            exists g1, st1, b1;
            split; [exact E1|]; split; [exact D1|]; split; [exact I1|];
            split; [exact B1|exact G1]
          | destruct (proj1 Hiff1 eq_refl) as [_ HP];
            vm_compute in HP; discriminate HP ] ]
      | destruct (Add_binds_or_refuses G ST 2%nat
                    (Block.new Block.kBranchTarget))
          as (r2 & g2 & st2 & E2 & Hiff2 & Hsame2 & _);
        [ vm_compute; reflexivity
        | vm_compute; eexists; reflexivity
        | vm_compute; reflexivity
        | assert (r2 = false) as ->
            by (apply Hiff2; split; [discriminate|vm_compute; reflexivity]);
          destruct (Hsame2 eq_refl) as [-> ->]; exact E2 ] ]
  end.
Defined.

(** After [b0->AddPredecessor(b1)] twice, which the [DCHECK]s let
    pass, the deferred block [b1] is its own neighbour, and the loop
    of [Add(b0)] walks from [b1] to [b1] without an end, however many
    rounds it is given: [Add] returns neither false nor true. *)
Example add_after_repeated_predecessor_never_ends fuel :
  Block.all_deferred fuel
    [Some (Block.with_last_predecessor (Some 1%nat) (Block.new Block.kMerge));
     Some (Block.with_neighboring_predecessor (Some 1%nat)
             (Block.SetDeferred true (Block.new Block.kBranchTarget)))]
    (Some 1%nat) = None.
Proof. induction fuel as [|fuel IH]; [done|]. exact IH. Qed.

(** C5 as written fails: on the graph a phase builds with two
    [NewBlock] calls, [SetDeferred(true)] on the second block and the
    same [AddPredecessor] call twice, [Add] of the first block does
    not return. *)
Lemma add_never_returns_on_a_deferred_cycle :
  ¬ add_returns_false_or_binds.
Proof.
  intros H.
  let r := eval vm_compute in
    (run_calls 2 [CallNewBlock Block.kMerge; CallNewBlock Block.kBranchTarget;
                  CallSetDeferred 1%nat true;
                  CallAddPredecessor 0%nat 1%nat;
                  CallAddPredecessor 0%nat 1%nat]
       (Graph.new 2 0%nat 4) []) in
  lazymatch r with
  | Some (?G, ?ST) =>
      destruct (H 2 0%nat 4
                  [CallNewBlock Block.kMerge; CallNewBlock Block.kBranchTarget;
                   CallSetDeferred 1%nat true;
                   CallAddPredecessor 0%nat 1%nat;
                   CallAddPredecessor 0%nat 1%nat]
                  G ST 0%nat
                  (Block.with_last_predecessor (Some 1%nat)
                     (Block.new Block.kMerge)))
        as (r0 & g0 & st0 & E & _);
      [ vm_compute; reflexivity
      | vm_compute; tauto
      | exists 0%nat; split; reflexivity
      | vm_compute; reflexivity
      | reflexivity
      | vm_compute in E; discriminate E ]
  end.
Qed.

Lemma Add_stores_all_predecessors_deferred_witness :
  ∃ g st g' st' b',
    run_calls 2 [CallNewBlock Block.kMerge; CallNewBlock Block.kBranchTarget;
                 CallAdd 0%nat; CallSetDeferred 0%nat false;
                 CallAddPredecessor 1%nat 0%nat]
      (Graph.new 2 0%nat 4) [] = Some (g, st) ∧
    Block.Predecessors st 1%nat = Some [0%nat] ∧
    Graph.Add 1%nat g st = Some (true, g', st') ∧
    Block.deref st' 1%nat = Some b' ∧
    (Block.IsDeferred b' = true ↔
     Forall (λ q, deferred_at st q = true) [0%nat]).
Proof.
  let r := eval vm_compute in
    (run_calls 2 [CallNewBlock Block.kMerge; CallNewBlock Block.kBranchTarget;
                  CallAdd 0%nat; CallSetDeferred 0%nat false;
                  CallAddPredecessor 1%nat 0%nat]
       (Graph.new 2 0%nat 4) []) in
  lazymatch r with
  | Some (?G, ?ST) =>
      let r2 := eval vm_compute in (Graph.Add 1%nat G ST) in
      lazymatch r2 with
      | Some (true, ?G', ?ST') =>
          let r3 := eval vm_compute in (Block.deref ST' 1%nat) in
          lazymatch r3 with
          | Some ?B' =>
              exists G, ST, G', ST', B';
              split; [vm_compute; reflexivity|];
              split; [vm_compute; reflexivity|];
              split; [vm_compute; reflexivity|];
              split; [vm_compute; reflexivity|];
              apply (proj1 (Add_stores_all_predecessors_deferred
                              G ST 1%nat [0%nat] G' ST' B'
                              ltac:(vm_compute; reflexivity)
                              ltac:(vm_compute; reflexivity)
                              ltac:(vm_compute; reflexivity)))
          end
      end
  end.
Defined.

Lemma bound_block_index_round_trip_witness :
  ∃ g st b,
    run_calls 2 [CallNewBlock Block.kMerge; CallNewBlock Block.kBranchTarget;
                 CallAdd 0%nat; CallAddPredecessor 1%nat 0%nat;
                 CallAdd 1%nat; CallFinalize 0%nat]
      (Graph.new 2 0%nat 4) [] = Some (g, st) ∧
    Graph.bound_blocks_ g !! 1%nat = Some 1%nat ∧
    Block.deref st 1%nat = Some b ∧
    Block.index b = mkBlockIndex 1 ∧
    Graph.Get_block g (Block.index b) = Some 1%nat.
Proof.
  let r := eval vm_compute in
    (run_calls 2 [CallNewBlock Block.kMerge; CallNewBlock Block.kBranchTarget;
                  CallAdd 0%nat; CallAddPredecessor 1%nat 0%nat;
                  CallAdd 1%nat; CallFinalize 0%nat]
       (Graph.new 2 0%nat 4) []) in
  lazymatch r with
  | Some (?G, ?ST) =>
      destruct (bound_block_index_round_trip 2 0%nat 4
                  [CallNewBlock Block.kMerge; CallNewBlock Block.kBranchTarget;
                   CallAdd 0%nat; CallAddPredecessor 1%nat 0%nat;
                   CallAdd 1%nat; CallFinalize 0%nat]
                  G ST 1%nat 1%nat) as (b & D & Hi & HG);
      [ vm_compute; reflexivity
      | vm_compute;
        repeat split;
          try (exists 0%nat; split; reflexivity);
          try (exists 1%nat; split; reflexivity);
          try (eexists; split; reflexivity)
      | vm_compute; reflexivity
      | reflexivity
      | exists G, ST, b; split; [vm_compute; reflexivity|];
        split; [reflexivity|];
        split; [exact D|]; split; [exact Hi|exact HG] ]
  end.
Defined.

(** *** Two scenarios of the design document, run *)

(** An entry block, two branch targets and their merge: the merge
    lists its predecessors in the order they were added, four blocks
    are bound, and each block brackets the operations added between
    its [Add] and its [Finalize]. *)
Example diamond_of_blocks :
  (λ '(g, st),
     (Block.Predecessors st 3%nat, Graph.block_count g,
      fmap (M := list)
        (fmap (M := option) (λ b, (Block.begin_ b, Block.end_ b)))
        (take 4 st)))
  <$> run_calls 2
        [CallNewBlock Block.kMerge; CallNewBlock Block.kBranchTarget;
         CallNewBlock Block.kBranchTarget; CallNewBlock Block.kMerge;
         CallAdd 0%nat; CallAddOp [10; 11]; CallFinalize 0%nat;
         CallAddPredecessor 1%nat 0%nat; CallAdd 1%nat;
         CallAddOp [20; 21; 22]; CallFinalize 1%nat;
         CallAddPredecessor 2%nat 0%nat; CallAdd 2%nat;
         CallAddOp [30; 31]; CallFinalize 2%nat;
         CallAddPredecessor 3%nat 1%nat; CallAddPredecessor 3%nat 2%nat;
         CallAdd 3%nat; CallAddOp [40; 41]; CallFinalize 3%nat]
        (Graph.new 2 0%nat 4) []
  = Some (Some [1; 2]%nat, 4,
          [Some (mkOpIndex 0, mkOpIndex 16); Some (mkOpIndex 16, mkOpIndex 40);
           Some (mkOpIndex 40, mkOpIndex 56); Some (mkOpIndex 56, mkOpIndex 72)]).
Proof. vm_compute. reflexivity. Qed.

(** A placeholder of four slots at the head of a loop, the body, and
    the replacement of the placeholder by an operation of three
    slots: the run keeps its four slots, of which the first three
    are the new operation, and the steps over it are unchanged. *)
Example loop_phi_replaced :
  ('(phi, g1) ← Graph.Add_op 2 [1; 2; 3; 4] (Graph.new 2 0%nat 16);
   '(body, g2) ← Graph.Add_op 2 [5; 6] g1;
   g3 ← Graph.Replace 2 phi [7; 8; 9] g2;
   Some (phi, body,
         record_at 2 (Graph.operations_ g3) phi,
         OperationBuffer.Next 2 (Graph.operations_ g3) phi,
         OperationBuffer.Previous 2 (Graph.operations_ g3) body,
         Graph.next_operation_index g3))
  = Some (mkOpIndex 0, mkOpIndex 32,
          Some [Some 7; Some 8; Some 9; Some 4],
          Some (mkOpIndex 32), Some (mkOpIndex 0), mkOpIndex 48).
Proof. vm_compute. reflexivity. Qed.

(** * Further properties of the operation buffer *)

Section ArenaExtras.
Variable kSlotsPerId : Z.
Hypothesis kSlotsPerId_pos : 0 < kSlotsPerId.

Local Abbreviation K := kSlotsPerId.
Local Abbreviation valid := (valid_slot_count kSlotsPerId).
Local Abbreviation inv := (arena_inv kSlotsPerId).

Lemma total_snoc rs k : total (rs ++ [k]) = total rs + k.
Proof. rewrite total_app. simpl. lia. Qed.

Lemma EndIndex_inv b rs :
  inv b rs → OperationBuffer.EndIndex b = id_of_slot (total rs).
Proof.
  intros Hinv. pose proof (inv_end_range K b rs Hinv) as Hr.
  unfold OperationBuffer.EndIndex.
  rewrite Index_slot by (rewrite ceiling_eq; lia).
  by rewrite (inv_end _ _ _ Hinv).
Qed.

Lemma Get_id_of_slot b s : OperationBuffer.Get b (id_of_slot s) = s.
Proof.
  unfold OperationBuffer.Get, id_of_slot, kSlotSize. simpl.
  by rewrite Z.div_mul by lia.
Qed.

(** A state that holds more runs over the same storage prefix shows
    the same record behind every identifier of the prefix. *)
Lemma record_at_same_runs b b' rs extra idx :
  inv b rs → inv b' (rs ++ extra) →
  take (Z.to_nat (total rs)) (OperationBuffer.begin_ b')
  = take (Z.to_nat (total rs)) (OperationBuffer.begin_ b) →
  idx ∈ run_ids 0 rs →
  record_at K b' idx = record_at K b idx.
Proof.
  intros Hinv Hinv' Hsame Hidx.
  destruct (run_ids_elem _ _ _ Hidx) as (pre & kj & post & -> & ->).
  rewrite <- app_assoc in Hinv'. simpl in Hinv'.
  destruct (inv_run_recorded K _ _ _ _ Hinv)
    as ((Hk1 & _ & _) & [H1 _] & Hs & Hle).
  destruct (inv_run_recorded K _ _ _ _ Hinv') as (_ & [H1' _] & _ & _).
  pose proof (inv_end _ _ _ Hinv) as He.
  unfold record_at, OperationBuffer.SlotCount.
  replace (0 + total pre) with (total pre) in * by lia.
  rewrite H1, H1'. simpl. f_equal. rewrite !Get_id_of_slot.
  eapply run_of_equal_prefix; [exact Hsame|]. lia.
Qed.

Lemma RemoveLast_last_run b rs k :
  inv b (rs ++ [k]) →
  OperationBuffer.RemoveLast K b
  = Some (OperationBuffer.with_end (total rs) b) ∧
  inv (OperationBuffer.with_end (total rs) b) rs.
Proof.
  intros Hinv. pose proof (inv_end_range K _ _ Hinv) as Hrange.
  destruct (inv_run_recorded K _ _ _ _ Hinv)
    as ((Hk1 & HkK & Hk2) & [_ H2] & Hs & Hle).
  pose proof (inv_end _ _ _ Hinv) as He. rewrite total_snoc in He.
  split; [|exact (inv_rewound K _ _ _ _ Hinv)].
  unfold OperationBuffer.RemoveLast.
  rewrite (EndIndex_inv _ _ Hinv), total_snoc, id_of_slot_id by done.
  rewrite last_id_slot in H2 by (rewrite ?ceiling_eq; lia).
  pose proof (ids_step K kSlotsPerId_pos 0 (total rs + k) ltac:(lia)) as Hstep.
  rewrite Z.div_0_l in Hstep by lia.
  pose proof (ids_mono K kSlotsPerId_pos (total rs + k) 536870911 ltac:(lia)).
  assert (536870911 / K ≤ 536870911).
  { apply Z.div_le_upper_bound; nia. }
  rewrite u32_small by lia. rewrite H2. simpl.
  f_equal. f_equal. lia.
Qed.



Lemma Allocate_zero_capacity b k :
  OperationBuffer.end_cap_ b = 0 → OperationBuffer.end_ b = 0 →
  0 < k < 2 ^ 64 →
  OperationBuffer.Allocate K k b = None.
Proof.
  intros Hc He Hk. change (2 ^ 64) with 18446744073709551616 in Hk.
  unfold OperationBuffer.Allocate. rewrite Hc, He, Z.sub_0_r.
  change (usize 0) with 0. rewrite decide_True by lia.
  unfold OperationBuffer.Grow, OperationBuffer.capacity.
  rewrite Hc, Z.add_0_l. change (usize (2 * u32 0)) with 0.
  rewrite usize_small by lia. rewrite grow_loop_zero by lia. done.
Qed.

(** X3.  A buffer of capacity 0 cannot take an operation: [Allocate]
    calls [Grow], whose doubling loop starts from [2 * 0] and never
    reaches the requested capacity, however many rounds it is given. *)
Theorem Allocate_on_zero_capacity_never_returns b k :
  OperationBuffer.end_cap_ b = 0 → OperationBuffer.end_ b = 0 →
  0 < k < 2 ^ 64 →
  OperationBuffer.Allocate K k b = None ∧
  ∀ fuel,
    OperationBuffer.grow_loop fuel (usize (2 * OperationBuffer.capacity b))
      (usize (OperationBuffer.capacity b + k)) = None.
Proof.
  intros Hc He Hk. split; [by apply Allocate_zero_capacity|].
  change (2 ^ 64) with 18446744073709551616 in Hk.
  intros fuel. unfold OperationBuffer.capacity.
  rewrite Hc, Z.add_0_l. change (usize (2 * u32 0)) with 0.
  rewrite usize_small by lia. apply grow_loop_zero. lia.
Qed.

Lemma grow_loop_result f x m r :
  0 < x → m ≤ 2 ^ 62 →
  OperationBuffer.grow_loop f x m = Some r →
  (r = x ∧ m ≤ x) ∨ (x < m ∧ 2 * x ≤ r ∧ m ≤ r < 2 * m).
Proof.
  change (2 ^ 62) with 4611686018427387904.
  revert x. induction f as [|f IH]; intros x Hx Hm; simpl;
    destruct (Z.ltb_spec x m) as [Hlt|Hge]; try done.
  - intros [= <-]. left. lia.
  - rewrite usize_small by lia. intros Hr.
    destruct (IH (x * 2) ltac:(lia) Hm Hr) as [[-> ?]|(? & ? & ?)]; right; lia.
  - intros [= <-]. left. lia.
Qed.

(** X4.  [Grow] at least doubles the capacity, and takes the least
    capacity of the form [2^j * capacity] that reaches the requested
    one: the result is exactly twice the old capacity, or less than
    twice the request.  The runs and the end pointer are kept. *)
Theorem Grow_doubles_capacity b rs m b' :
  inv b rs → 0 < OperationBuffer.end_cap_ b → m ≤ 2 ^ 62 →
  OperationBuffer.Grow K m b = Some b' →
  2 * OperationBuffer.end_cap_ b ≤ OperationBuffer.end_cap_ b' ∧
  m ≤ OperationBuffer.end_cap_ b' ∧
  (OperationBuffer.end_cap_ b' = 2 * OperationBuffer.end_cap_ b ∨
   OperationBuffer.end_cap_ b' < 2 * m) ∧
  OperationBuffer.end_cap_ b' < kMaxUInt32 / kSlotSize ∧
  OperationBuffer.end_ b' = OperationBuffer.end_ b ∧
  inv b' rs.
Proof.
  intros Hinv Hpos Hm HG.
  pose proof Hm as Hm2. change (2 ^ 62) with 4611686018427387904 in Hm2.
  destruct (Grow_inv K kSlotsPerId_pos _ _ _ _ Hinv HG) as (Hinv' & Hm' & He & _).
  pose proof (inv_end_range K _ _ Hinv) as Hrange.
  pose proof (inv_ceiling _ _ _ Hinv') as Hceil.
  cut (2 * OperationBuffer.end_cap_ b ≤ OperationBuffer.end_cap_ b' ∧
       (OperationBuffer.end_cap_ b' = 2 * OperationBuffer.end_cap_ b ∨
        OperationBuffer.end_cap_ b' < 2 * m)); [tauto|].
  unfold OperationBuffer.Grow in HG.
  destruct (OperationBuffer.grow_loop _ _ _) as [r|] eqn:Hloop; [|done].
  simpl in HG. destruct (decide _); [|done].
  destruct (memcpy (NewArray r) _ _); simpl in HG; [|done].
  destruct (memcpy (NewArray (r / K)) _ _); simpl in HG; [|done].
  injection HG as <-. simpl.
  unfold OperationBuffer.capacity in Hloop.
  rewrite u32_small, usize_small in Hloop by lia.
  apply grow_loop_result in Hloop; lia.
Qed.

(** X5.  Pointers into the buffer and identifiers convert into one
    another without loss: [Get] undoes [Index] for every slot below
    2^29, and [Index] undoes [Get] for every identifier whose offset
    is a multiple of the slot size. *)
Theorem Index_Get_round_trip b s idx :
  0 ≤ s < 2 ^ 29 →
  0 ≤ offset idx < 2 ^ 32 → offset idx mod kSlotSize = 0 →
  OperationBuffer.Get b (OperationBuffer.Index b s) = s ∧
  OperationBuffer.Index b (OperationBuffer.Get b idx) = idx.
Proof.
  intros Hs Ho Hm.
  change (2 ^ 29) with 536870912 in *. change (2 ^ 32) with 4294967296 in *.
  unfold OperationBuffer.Get, OperationBuffer.Index,
    OpIndex_new, kSlotSize in *. simpl.
  rewrite usize_small, u32_small by lia.
  split; [by rewrite Z.div_mul by lia|].
  destruct idx as [o]. simpl in *. f_equal.
  pose proof (Z.div_mod o 8 ltac:(lia)) as Hd.
  assert (0 ≤ o / 8 < 2 ^ 29).
  { split; [apply Z.div_pos; lia|apply Z.div_lt_upper_bound; lia]. }
  rewrite usize_small, u32_small by lia. lia.
Qed.


Lemma id_of_slot_inj s s' : id_of_slot s = id_of_slot s' → s = s'.
Proof. unfold id_of_slot, kSlotSize. intros [= H]. lia. Qed.

Lemma forward_runs g pre mid post fuel :
  inv (Graph.operations_ g) (pre ++ mid ++ post) →
  (length mid ≤ fuel)%nat →
  OperationIterator.forward K fuel g
    (OperationIterator.mk (id_of_slot (total pre)))
    (OperationIterator.mk (id_of_slot (total pre + total mid)))
  = Some (run_ids (total pre) mid).
Proof.
  revert pre fuel. induction mid as [|k mid IH]; intros pre fuel Hinv Hf.
  - simpl total. rewrite Z.add_0_r.
    destruct fuel; simpl; unfold OperationIterator.neq; simpl;
      by rewrite bool_decide_true.
  - simpl in Hf. destruct fuel as [|fuel]; [lia|].
    simpl in Hinv.
    destruct (inv_run_recorded K _ _ _ _ Hinv) as ((Hk1 & _) & _ & _ & _).
    pose proof (runs_recorded_valid K _ _ _ (inv_runs _ _ _ Hinv)) as Hval.
    rewrite Forall_app, Forall_cons, Forall_app in Hval.
    destruct Hval as (_ & _ & Hmid & _).
    pose proof (Forall_valid_total K _ Hmid) as Hmt.
    simpl. unfold OperationIterator.neq at 1. simpl.
    rewrite bool_decide_false by (intros E; apply id_of_slot_inj in E; lia).
    simpl. unfold OperationIterator.incr. simpl.
    rewrite (Next_run K _ _ _ _ Hinv). simpl.
    specialize (IH (pre ++ [k]) fuel). rewrite total_snoc in IH.
    rewrite <- app_assoc in IH. simpl in IH.
    replace (total pre + k + total mid) with (total pre + (k + total mid))
      in IH by lia.
    rewrite IH by (done || lia). done.
Qed.

Lemma backward_runs g pre mid post fuel :
  inv (Graph.operations_ g) (pre ++ mid ++ post) →
  (length mid ≤ fuel)%nat →
  OperationIterator.backward K fuel g
    (OperationIterator.mk (id_of_slot (total pre)))
    (OperationIterator.mk (id_of_slot (total pre + total mid)))
  = Some (reverse (run_ids (total pre) mid)).
Proof.
  revert post fuel. induction mid as [|k mid IH] using rev_ind;
    intros post fuel Hinv Hf.
  - simpl total. rewrite Z.add_0_r.
    destruct fuel; simpl; unfold OperationIterator.neq; simpl;
      by rewrite bool_decide_true.
  - rewrite length_app in Hf. simpl in Hf. destruct fuel as [|fuel]; [lia|].
    rewrite <- app_assoc in Hinv. simpl in Hinv.
    pose proof Hinv as Hinv2. rewrite app_assoc in Hinv2.
    destruct (inv_run_recorded K _ _ _ _ Hinv2) as ((Hk1 & _) & _ & _ & _).
    pose proof (runs_recorded_valid K _ _ _ (inv_runs _ _ _ Hinv)) as Hval.
    rewrite Forall_app, Forall_app in Hval.
    destruct Hval as (_ & Hmid & _).
    pose proof (Forall_valid_total K _ Hmid) as Hmt.
    rewrite total_snoc.
    simpl. unfold OperationIterator.neq at 1. simpl.
    rewrite bool_decide_false by (intros E; apply id_of_slot_inj in E; lia).
    simpl. unfold OperationIterator.decr. simpl.
    pose proof (Previous_run K kSlotsPerId_pos _ _ _ _ Hinv2) as HP.
    rewrite total_app in HP.
    replace (total pre + (total mid + k)) with (total pre + total mid + k)
      by lia.
    rewrite HP. simpl.
    rewrite (IH (k :: post) fuel) by (done || lia). simpl.
    rewrite run_ids_app, reverse_app. simpl. done.
Qed.



Lemma write_slots_spec (a a' : list (option slot)) pos image :
  write_slots a pos image = Some a' →
  0 ≤ pos ∧ pos + Z.of_nat (length image) ≤ Z.of_nat (length a) ∧
  a' = take (Z.to_nat pos) a ++ (Some <$> image)
       ++ drop (Z.to_nat pos + length image) a ∧
  length a' = length a ∧
  take (Z.to_nat pos) a' = take (Z.to_nat pos) a ∧
  take (length image) (drop (Z.to_nat pos) a') = Some <$> image.
Proof.
  unfold write_slots. destruct (decide _) as [[H0 H1]|]; [|done].
  intros [= <-]. split; [done|]. split; [done|]. split; [done|].
  assert (length (take (Z.to_nat pos) a) = Z.to_nat pos) as Lt.
  { rewrite length_take. lia. }
  split; [|split].
  - rewrite !length_app, Lt, length_fmap, length_drop. lia.
  - rewrite take_app_length'; done.
  - rewrite drop_app_length' by done.
    rewrite take_app_length'; [done|by rewrite length_fmap].
Qed.

Lemma Add_op_inv g rs image idx g' :
  inv (Graph.operations_ g) rs →
  valid (Z.of_nat (length image)) →
  Graph.Add_op K image g = Some (idx, g') →
  idx = id_of_slot (total rs) ∧
  inv (Graph.operations_ g') (rs ++ [Z.of_nat (length image)]) ∧
  take (Z.to_nat (total rs)) (OperationBuffer.begin_ (Graph.operations_ g'))
  = take (Z.to_nat (total rs)) (OperationBuffer.begin_ (Graph.operations_ g)) ∧
  take (length image)
    (drop (Z.to_nat (total rs)) (OperationBuffer.begin_ (Graph.operations_ g')))
  = Some <$> image ∧
  Graph.bound_blocks_ g' = Graph.bound_blocks_ g ∧
  Graph.all_blocks_ g' = Graph.all_blocks_ g ∧
  Graph.next_block_ g' = Graph.next_block_ g.
Proof.
  intros Hinv Hv HA. unfold Graph.Add_op, Graph.Op_New, Graph.Allocate in HA.
  destruct (OperationBuffer.Allocate _ _ _) as [[ptr o]|] eqn:EA;
    simpl in HA; [|done].
  destruct (write_slots _ _ _) as [a|] eqn:W; simpl in HA; [|done].
  injection HA as <- <-. simpl.
  destruct (Allocate_inv K kSlotsPerId_pos _ _ _ _ _ Hinv Hv EA)
    as (-> & Hinv1 & Hsame).
  destruct (write_slots_spec _ _ _ _ W) as (Hp & _ & _ & La & Ta & Ra).
  unfold Graph.next_operation_index. rewrite (EndIndex_inv _ _ Hinv).
  split; [done|]. split; [|by rewrite Ta].
  destruct Hinv1 as [He Hc Hl Hce Hs Hr].
  constructor; simpl; try done. by rewrite La.
Qed.


(** X10.  [Replace<Op>] overwrites in place: of the whole storage only
    the leading slots of the replaced run, as many as the new
    operation takes, change; the end pointer is where it was. *)
Theorem Replace_overwrites_in_place g pre k post image g' :
  inv (Graph.operations_ g) (pre ++ k :: post) →
  valid (Z.of_nat (length image)) → Z.of_nat (length image) ≤ k →
  Graph.Replace K (id_of_slot (total pre)) image g = Some g' →
  OperationBuffer.begin_ (Graph.operations_ g')
  = take (Z.to_nat (total pre)) (OperationBuffer.begin_ (Graph.operations_ g))
    ++ (Some <$> image)
    ++ drop (Z.to_nat (total pre) + length image)
         (OperationBuffer.begin_ (Graph.operations_ g)) ∧
  OperationBuffer.end_ (Graph.operations_ g')
  = OperationBuffer.end_ (Graph.operations_ g) ∧
  OperationBuffer.end_cap_ (Graph.operations_ g')
  = OperationBuffer.end_cap_ (Graph.operations_ g) ∧
  Graph.next_operation_index g' = Graph.next_operation_index g ∧
  Graph.bound_blocks_ g' = Graph.bound_blocks_ g.
Proof.
  intros Hinv Hm Hmk HR.
  pose proof (inv_rewound K _ _ _ _ Hinv) as Hinv0.
  destruct (inv_run_recorded K _ _ _ _ Hinv)
    as ((Hk1 & HkK & Hk2) & [H1 H2] & Hs & Hle).
  pose proof (inv_end_range K _ _ Hinv) as Hrange.
  destruct (Allocate_fits K kSlotsPerId_pos (Z.of_nat (length image)) _ _ Hinv0 Hm)
    as (s1 & s2 & S1 & S2 & HA).
  { simpl. lia. }
  simpl in HA.
  unfold Graph.Replace, OperationBuffer.ReplaceScope_ctor,
    OperationBuffer.SlotCount in HR.
  rewrite H1 in HR. simpl in HR.
  unfold Graph.Op_New, Graph.Allocate in HR. simpl in HR.
  rewrite Get_id_of_slot, HA in HR. simpl in HR.
  destruct (write_slots _ _ _) as [a|] eqn:W; simpl in HR; [|done].
  unfold OperationBuffer.ReplaceScope_dtor in HR. simpl in HR.
  destruct (store s2 _ _) as [s3|]; simpl in HR; [|done].
  destruct (store s3 _ _) as [s4|]; simpl in HR; [|done].
  injection HR as <-. simpl.
  destruct (write_slots_spec _ _ _ _ W) as (_ & _ & -> & _).
  unfold Graph.next_operation_index, OperationBuffer.EndIndex. simpl. done.
Qed.

Lemma add_ops_inv images g rs ids g' :
  inv (Graph.operations_ g) rs →
  Forall valid ((λ image, Z.of_nat (length image)) <$> images) →
  add_ops K images g = Some (ids, g') →
  ids = run_ids (total rs) ((λ image, Z.of_nat (length image)) <$> images) ∧
  inv (Graph.operations_ g')
    (rs ++ ((λ image, Z.of_nat (length image)) <$> images)) ∧
  Graph.bound_blocks_ g' = Graph.bound_blocks_ g.
Proof.
  revert g rs ids. induction images as [|image images IH];
    intros g rs ids Hinv Hv HA; simpl in *.
  - injection HA as <- <-. by rewrite app_nil_r.
  - inversion Hv as [|? ? Hv1 Hv2]; subst.
    destruct (Graph.Add_op _ _ _) as [[idx g1]|] eqn:E1; simpl in HA; [|done].
    destruct (add_ops _ _ _) as [[ids1 g2]|] eqn:E2; simpl in HA; [|done].
    injection HA as <- <-.
    destruct (Add_op_inv _ _ _ _ _ Hinv Hv1 E1)
      as (-> & Hinv1 & _ & _ & Hb & _).
    destruct (IH _ _ _ Hinv1 Hv2 E2) as (-> & Hinv2 & Hb2).
    rewrite total_snoc, <- app_assoc in *. simpl in *.
    split; [done|]. split; [done|]. congruence.
Qed.

Lemma InputsValid_Forall g inputs :
  GraphRanges.InputsValid g inputs = true ↔
  Forall (λ i, Graph.IsValid g i = true) inputs.
Proof.
  induction inputs as [|i inputs IH]; simpl; [by split|].
  rewrite Forall_cons. destruct (Graph.IsValid g i); simpl.
  - rewrite IH. tauto.
  - split; [done|]. intros [? _]. done.
Qed.

(** X11.  An identifier is valid exactly when it lies before the next
    one to be issued: the identifier [Add<Op>] returns is not valid
    before the call and is valid after it, and identifiers (and whole
    input lists) that were valid stay valid.  [InputsValid] holds of a
    list exactly when every identifier of the list is valid, so before
    the call it fails on every list that names the identifier about to
    be issued, at whatever place. *)
Theorem Add_op_extends_validity g rs image idx g' inputs :
  inv (Graph.operations_ g) rs →
  valid (Z.of_nat (length image)) →
  Graph.Add_op K image g = Some (idx, g') →
  Graph.IsValid g idx = false ∧
  Graph.IsValid g' idx = true ∧
  (∀ i, Graph.IsValid g i = true → Graph.IsValid g' i = true) ∧
  (GraphRanges.InputsValid g inputs = true →
   GraphRanges.InputsValid g' inputs = true) ∧
  GraphRanges.InputsValid g (idx :: inputs) = false ∧
  (idx ∈ inputs → GraphRanges.InputsValid g inputs = false) ∧
  (GraphRanges.InputsValid g inputs = true ↔
   Forall (λ i, offset i < offset idx) inputs) ∧
  (GraphRanges.InputsValid g' inputs = true ↔
   Forall (λ i, offset i < offset (Graph.next_operation_index g')) inputs).
Proof.
  intros Hinv Hv HA.
  destruct (Add_op_inv _ _ _ _ _ Hinv Hv HA) as (-> & Hinv2 & _).
  destruct Hv as (Hn1 & _).
  assert (∀ i, Graph.IsValid g i = (offset i <? total rs * kSlotSize)) as V.
  { intros i. unfold Graph.IsValid, Graph.next_operation_index.
    by rewrite (EndIndex_inv _ _ Hinv). }
  assert (∀ i, Graph.IsValid g' i
               = (offset i <? (total rs + Z.of_nat (length image)) * kSlotSize))
    as V'.
  { intros i. unfold Graph.IsValid, Graph.next_operation_index.
    by rewrite (EndIndex_inv _ _ Hinv2), total_snoc. }
  assert (∀ i, Graph.IsValid g i = true → Graph.IsValid g' i = true) as Hmono.
  { intros i. rewrite V, V'. unfold kSlotSize.
    rewrite !Z.ltb_lt. lia. }
  assert (Graph.IsValid g (id_of_slot (total rs)) = false) as Hnot.
  { rewrite V. simpl. apply Z.ltb_irrefl. }
  split; [done|]. split.
  { rewrite V'. simpl. unfold kSlotSize. apply Z.ltb_lt. lia. }
  split; [done|]. split.
  { rewrite !InputsValid_Forall. intros HF.
    eapply Forall_impl; [exact HF|exact Hmono]. }
  split.
  { simpl. by rewrite Hnot. }
  split.
  { intros Hin. destruct (GraphRanges.InputsValid g inputs) eqn:E; [|done].
    apply InputsValid_Forall in E. rewrite Forall_forall in E.
    specialize (E _ Hin). congruence. }
  split.
  - rewrite InputsValid_Forall, !Forall_forall.
    split; intros HF i Hi; specialize (HF i Hi); rewrite V in *;
      simpl in *; by apply Z.ltb_lt.
  - rewrite InputsValid_Forall, !Forall_forall.
    split; intros HF i Hi; specialize (HF i Hi);
      unfold Graph.IsValid, OpIndex_ltb in *; by apply Z.ltb_lt.
Qed.



(** X14.  [RemoveLast] on an empty buffer has no defined result: it
    reads the size table at index [0 - 1], taken as [uint32_t], far
    outside the table. *)
Theorem RemoveLast_on_empty_buffer b :
  OperationBuffer.end_ b = 0 →
  Z.of_nat (length (OperationBuffer.operation_sizes_ b)) ≤ kMaxUInt32 →
  OperationBuffer.RemoveLast K b = None.
Proof.
  intros He Hl. unfold kMaxUInt32 in Hl.
  unfold OperationBuffer.RemoveLast, OperationBuffer.EndIndex,
    OperationBuffer.Index, OpIndex_id. rewrite He. simpl offset.
  change (u32 (usize (0 * kSlotSize)) / kSlotSize) with 0.
  rewrite Z.div_0_l by lia. change (u32 (0 - 1)) with 4294967295.
  unfold load. simpl.
  rewrite (lookup_ge_None_2 (OperationBuffer.operation_sizes_ b)) by lia.
  done.
Qed.

(** X15.  The companion that [GetOrCreateCompanion] creates is an
    empty graph in the same zone whose operation buffer has the
    capacity of this graph's size; a second call returns the same
    companion and creates nothing. *)
Theorem GetOrCreateCompanion_creates_once g c g1 :
  Graph.companion_ g = None →
  Graph.GetOrCreateCompanion K g = (c, g1) →
  Graph.GetOrCreateCompanion K g1 = (c, g1) ∧
  Graph.companion_ g1 = Some c ∧
  Graph.operations_ g1 = Graph.operations_ g ∧
  Graph.bound_blocks_ g1 = Graph.bound_blocks_ g ∧
  OperationBuffer.size (Graph.operations_ c) = 0 ∧
  OperationBuffer.capacity (Graph.operations_ c)
  = OperationBuffer.size (Graph.operations_ g) ∧
  Graph.block_count c = 0 ∧
  Graph.graph_zone_ c = Graph.graph_zone_ g ∧
  Graph.companion_ c = None.
Proof.
  intros Hc. unfold Graph.GetOrCreateCompanion. rewrite Hc.
  intros [= <- <-]. simpl. repeat split.
  unfold OperationBuffer.capacity, OperationBuffer.size. simpl.
  unfold u32. apply Z.mod_mod. done.
Qed.

(** X16.  [SwapWithCompanion] hands the content of the graph over:
    after the call the companion holds the operations, the bound
    blocks, the pool and the zone the graph held before, and
    [GetOrCreateCompanion] returns that companion without creating
    one. *)
Theorem SwapWithCompanion_hands_over g :
  let s := Graph.SwapWithCompanion K g in
  let c := (Graph.GetOrCreateCompanion K s).1 in
  (Graph.GetOrCreateCompanion K s).2 = s ∧
  Graph.companion_ s = Some c ∧
  Graph.operations_ c = Graph.operations_ g ∧
  Graph.bound_blocks_ c = Graph.bound_blocks_ g ∧
  Graph.all_blocks_ c = Graph.all_blocks_ g ∧
  Graph.next_block_ c = Graph.next_block_ g ∧
  Graph.graph_zone_ c = Graph.graph_zone_ g ∧
  Graph.operations_ s
  = Graph.operations_ (Graph.GetOrCreateCompanion K g).1.
Proof.
  unfold Graph.SwapWithCompanion, Graph.GetOrCreateCompanion.
  destruct (Graph.companion_ g) as [c0|]; simpl; repeat split.
Qed.

(** X17.  The companion created for an empty graph has capacity 0, so
    it cannot take an operation: neither on the companion nor, after
    [SwapWithCompanion], on the graph itself does [Add<Op>] return. *)
Theorem companion_of_empty_graph_takes_no_operation g image :
  Graph.companion_ g = None →
  OperationBuffer.size (Graph.operations_ g) = 0 →
  0 < Z.of_nat (length image) < 2 ^ 64 →
  Graph.Add_op K image (Graph.GetOrCreateCompanion K g).1 = None ∧
  Graph.Add_op K image (Graph.SwapWithCompanion K g) = None.
Proof.
  intros Hc Hs Hn.
  unfold Graph.SwapWithCompanion, Graph.GetOrCreateCompanion.
  rewrite Hc, Hs. simpl.
  unfold Graph.Add_op, Graph.Op_New, Graph.Allocate. simpl.
  rewrite Allocate_zero_capacity by done. done.
Qed.

(** X18.  An [Allocate] that fits does not move anything: it returns
    the old end pointer, keeps the storage and the capacity, and
    writes the size table at the two endpoint ids of the new run
    only. *)
Theorem Allocate_in_place b rs k ptr b' i :
  inv b rs → valid k →
  OperationBuffer.end_ b + k ≤ OperationBuffer.end_cap_ b →
  OperationBuffer.Allocate K k b = Some (ptr, b') →
  i ≠ OperationBuffer.end_ b / K →
  i ≠ (OperationBuffer.end_ b + k) / K - 1 →
  ptr = OperationBuffer.end_ b ∧
  OperationBuffer.end_ b' = OperationBuffer.end_ b + k ∧
  OperationBuffer.begin_ b' = OperationBuffer.begin_ b ∧
  OperationBuffer.end_cap_ b' = OperationBuffer.end_cap_ b ∧
  load (OperationBuffer.operation_sizes_ b') i
  = load (OperationBuffer.operation_sizes_ b) i.
Proof.
  intros Hinv Hv Hfit HA Hi1 Hi2.
  destruct (Allocate_fits K kSlotsPerId_pos _ _ _ Hinv Hv Hfit)
    as (s1 & s2 & S1 & S2 & HA').
  rewrite HA' in HA. injection HA as <- <-. simpl.
  repeat split.
  rewrite (load_store_ne _ _ _ i _ S2) by done.
  by rewrite (load_store_ne _ _ _ i _ S1).
Qed.

Lemma allocate_all_from_new_inv zone cap ks ids b :
  0 ≤ cap < kMaxUInt32 / kSlotSize → Forall valid ks →
  allocate_all K ks (OperationBuffer.new K zone cap) = Some (ids, b) →
  inv b ks.
Proof.
  intros Hcap Hv HA.
  by destruct (allocate_all_inv K kSlotsPerId_pos _ _ _ _ _
                 (new_inv K kSlotsPerId_pos zone cap Hcap) Hv HA) as (_ & ? & _).
Qed.

Lemma add_ops_from_new_inv zone cap images ids g :
  0 ≤ cap < kMaxUInt32 / kSlotSize →
  Forall valid ((λ image, Z.of_nat (length image)) <$> images) →
  add_ops K images (Graph.new K zone cap) = Some (ids, g) →
  inv (Graph.operations_ g) ((λ image, Z.of_nat (length image)) <$> images).
Proof.
  intros Hcap Hv HA.
  by destruct (add_ops_inv images (Graph.new K zone cap) [] ids g
                 (new_inv K kSlotsPerId_pos zone cap Hcap) Hv HA) as (_ & ? & _).
Qed.

End ArenaExtras.

(** The properties above at work on small buffers with
    [kSlotsPerId = 2]. *)



Lemma Allocate_on_zero_capacity_never_returns_witness :
  OperationBuffer.Allocate 2 2 (OperationBuffer.new 2 0%nat 0) = None ∧
  ∀ fuel,
    OperationBuffer.grow_loop fuel
      (usize (2 * OperationBuffer.capacity (OperationBuffer.new 2 0%nat 0)))
      (usize (OperationBuffer.capacity (OperationBuffer.new 2 0%nat 0) + 2))
    = None.
Proof.
  apply (Allocate_on_zero_capacity_never_returns 2
           (OperationBuffer.new 2 0%nat 0) 2).
  - reflexivity.
  - reflexivity.
  - split; reflexivity.
Defined.

Lemma Grow_doubles_capacity_witness :
  ∃ b',
    OperationBuffer.Grow 2 5 (OperationBuffer.new 2 0%nat 2) = Some b' ∧
    OperationBuffer.end_cap_ b' = 8 ∧
    2 * 2 ≤ OperationBuffer.end_cap_ b' ∧ 5 ≤ OperationBuffer.end_cap_ b'.
Proof.
  eexists. split; [vm_compute; reflexivity|]. split; [reflexivity|].
  match goal with
  | |- _ ∧ _ ≤ OperationBuffer.end_cap_ ?B =>
      destruct (Grow_doubles_capacity 2 ltac:(lia)
                  (OperationBuffer.new 2 0%nat 2) [] 5 B)
        as (H2 & Hm & _)
  end.
  - apply new_inv; [lia|rewrite ceiling_eq; lia].
  - simpl. lia.
  - vm_compute. discriminate.
  - vm_compute. reflexivity.
  - split; [exact H2|exact Hm].
Defined.

Lemma Index_Get_round_trip_witness :
  OperationBuffer.Get (OperationBuffer.new 2 0%nat 4)
    (OperationBuffer.Index (OperationBuffer.new 2 0%nat 4) 3) = 3 ∧
  OperationBuffer.Index (OperationBuffer.new 2 0%nat 4)
    (OperationBuffer.Get (OperationBuffer.new 2 0%nat 4) (mkOpIndex 16))
  = mkOpIndex 16.
Proof.
  apply (Index_Get_round_trip (OperationBuffer.new 2 0%nat 4) 3 (mkOpIndex 16)).
  - split; [lia|reflexivity].
  - simpl. split; [lia|reflexivity].
  - reflexivity.
Defined.





Lemma Replace_overwrites_in_place_witness :
  ∃ ids g g',
    add_ops 2 [[1; 2]; [3; 4; 5; 6]] (Graph.new 2 0%nat 8) = Some (ids, g) ∧
    Graph.Replace 2 (mkOpIndex 16) [9; 9] g = Some g' ∧
    OperationBuffer.begin_ (Graph.operations_ g')
    = [Some 1; Some 2; Some 9; Some 9; Some 5; Some 6; None; None] ∧
    OperationBuffer.end_ (Graph.operations_ g')
    = OperationBuffer.end_ (Graph.operations_ g).
Proof.
  eexists _, _, _. split; [vm_compute; reflexivity|].
  split; [vm_compute; reflexivity|].
  match goal with
  | |- _ ∧ OperationBuffer.end_ (Graph.operations_ ?G')
           = OperationBuffer.end_ (Graph.operations_ ?G) =>
      destruct (Replace_overwrites_in_place 2 ltac:(lia) G [2] 4 [] [9; 9] G')
        as (H1 & H2 & _)
  end.
  - eapply (add_ops_from_new_inv 2 ltac:(lia) 0%nat 8 [[1; 2]; [3; 4; 5; 6]]).
    + rewrite ceiling_eq. lia.
    + simpl. repeat (constructor; [unfold valid_slot_count; lia|]). constructor.
    + vm_compute. reflexivity.
  - unfold valid_slot_count. simpl. lia.
  - simpl. lia.
  - vm_compute. reflexivity.
  - split; [exact H1|exact H2].
Defined.

Lemma Add_op_extends_validity_witness :
  ∃ ids g idx g',
    add_ops 2 [[1; 2]] (Graph.new 2 0%nat 4) = Some (ids, g) ∧
    Graph.Add_op 2 [3; 4] g = Some (idx, g') ∧
    idx = mkOpIndex 16 ∧
    Graph.IsValid g idx = false ∧
    Graph.IsValid g' idx = true ∧
    GraphRanges.InputsValid g [mkOpIndex 0; mkOpIndex 16] = false ∧
    GraphRanges.InputsValid g' [mkOpIndex 0; mkOpIndex 16] = true.
Proof.
  eexists _, _, _, _. split; [vm_compute; reflexivity|].
  split; [vm_compute; reflexivity|]. split; [reflexivity|].
  match goal with
  | |- Graph.IsValid ?G ?I = false ∧ Graph.IsValid ?G' _ = true ∧ _ =>
      destruct (Add_op_extends_validity 2 ltac:(lia) G [2] [3; 4] I G'
                  [mkOpIndex 0; mkOpIndex 16])
        as (H1 & H2 & _ & _ & _ & H6 & _ & H8)
  end.
  - eapply (add_ops_from_new_inv 2 ltac:(lia) 0%nat 4 [[1; 2]]).
    + rewrite ceiling_eq. lia.
    + simpl. repeat (constructor; [unfold valid_slot_count; lia|]). constructor.
    + vm_compute. reflexivity.
  - unfold valid_slot_count. simpl. lia.
  - vm_compute. reflexivity.
  - split; [exact H1|]. split; [exact H2|]. split.
    + apply H6. right. left.
    + apply H8. repeat (constructor; [vm_compute; reflexivity|]). constructor.
Defined.



Lemma RemoveLast_on_empty_buffer_witness :
  OperationBuffer.RemoveLast 2 (OperationBuffer.new 2 0%nat 4) = None.
Proof.
  apply (RemoveLast_on_empty_buffer 2 ltac:(lia)).
  - reflexivity.
  - vm_compute. discriminate.
Defined.

Lemma GetOrCreateCompanion_creates_once_witness :
  ∃ c g1,
    Graph.GetOrCreateCompanion 2 (Graph.new 2 0%nat 4) = (c, g1) ∧
    Graph.GetOrCreateCompanion 2 g1 = (c, g1) ∧
    Graph.companion_ g1 = Some c.
Proof.
  eexists _, _. split; [reflexivity|].
  match goal with
  | |- Graph.GetOrCreateCompanion _ ?G1 = (?C, _) ∧ _ =>
      destruct (GetOrCreateCompanion_creates_once 2 (Graph.new 2 0%nat 4) C G1)
        as (H1 & H2 & _)
  end.
  - reflexivity.
  - reflexivity.
  - split; [exact H1|exact H2].
Defined.

Lemma companion_of_empty_graph_takes_no_operation_witness :
  Graph.Add_op 2 [1; 2]
    (Graph.GetOrCreateCompanion 2 (Graph.new 2 0%nat 4)).1 = None ∧
  Graph.Add_op 2 [1; 2] (Graph.SwapWithCompanion 2 (Graph.new 2 0%nat 4))
  = None.
Proof.
  apply (companion_of_empty_graph_takes_no_operation 2
           (Graph.new 2 0%nat 4) [1; 2]).
  - reflexivity.
  - reflexivity.
  - split; reflexivity.
Defined.

Lemma Allocate_in_place_witness :
  ∃ ptr b',
    OperationBuffer.Allocate 2 2 (OperationBuffer.new 2 0%nat 4)
    = Some (ptr, b') ∧
    ptr = OperationBuffer.end_ (OperationBuffer.new 2 0%nat 4) ∧
    OperationBuffer.begin_ b'
    = OperationBuffer.begin_ (OperationBuffer.new 2 0%nat 4) ∧
    load (OperationBuffer.operation_sizes_ b') 1
    = load (OperationBuffer.operation_sizes_ (OperationBuffer.new 2 0%nat 4)) 1.
Proof.
  eexists _, _. split; [vm_compute; reflexivity|].
  match goal with
  | |- ?P = _ ∧ OperationBuffer.begin_ ?B = _ ∧ _ =>
      destruct (Allocate_in_place 2 ltac:(lia)
                  (OperationBuffer.new 2 0%nat 4) [] 2 P B 1)
        as (H1 & _ & H3 & _ & H5)
  end.
  - apply new_inv; [lia|rewrite ceiling_eq; lia].
  - unfold valid_slot_count; lia.
  - simpl. lia.
  - vm_compute. reflexivity.
  - vm_compute. discriminate.
  - vm_compute. discriminate.
  - split; [exact H1|]. split; [exact H3|exact H5].
Defined.

(** * Further properties of blocks and of the block pool *)

Section BlockExtras.

Lemma chain_deref f st x l :
  Block.chain f st x = Some l →
  Forall (λ q, is_Some (Block.deref st q)) l.
Proof.
  revert x l. induction f as [|f IH]; intros [q|] l; simpl; try done;
    try (intros [= <-]; constructor).
  destruct (Block.deref st q) as [b|] eqn:D; simpl; [|done].
  destruct (Block.chain f st _) as [rest|] eqn:E; simpl; [|done].
  intros [= <-]. constructor; [by rewrite D|]. by eapply IH.
Qed.

(** X19.  The list [Predecessors()] returns never names a block
    twice and names allocated blocks only, so it is no longer than the
    block store; it is empty exactly when [HasPredecessors()] is
    false, and it ends with [last_predecessor_]. *)
Theorem Predecessors_lists_distinct_blocks st p b ps :
  Block.deref st p = Some b →
  Block.Predecessors st p = Some ps →
  NoDup ps ∧
  Forall (λ q, is_Some (Block.deref st q)) ps ∧
  (length ps ≤ length st)%nat ∧
  Block.HasPredecessors b = negb (bool_decide (ps = [])) ∧
  last ps = Block.last_predecessor_ b.
Proof.
  intros D HP. apply Predecessors_chain in HP as (b' & D' & HC).
  assert (b' = b) as -> by congruence.
  pose proof (chain_NoDup _ _ _ _ HC) as Hnd.
  pose proof (chain_deref _ _ _ _ HC) as Hd.
  pose proof (chain_allocated _ _ _ _ HC) as Ha.
  pose proof (distinct_pointers_bound _ _ Hnd Ha) as Hlen.
  rewrite length_reverse in Hlen.
  rewrite reverse_Permutation in Hnd.
  rewrite Forall_reverse in Hd.
  split; [done|]. split; [done|]. split; [done|].
  assert (last ps = head (reverse ps)) as ->.
  { by rewrite <- last_reverse, reverse_involutive. }
  unfold Block.HasPredecessors.
  destruct (reverse ps) as [|q l] eqn:E.
  - apply (f_equal reverse) in E. rewrite reverse_involutive in E.
    subst ps. simpl.
    destruct (Block.last_predecessor_ b) as [q|]; [|done].
    destruct (length st); simpl in HC; [done|].
    destruct (Block.deref st q); simpl in HC; [|done].
    destruct (Block.chain _ _ _); simpl in HC; done.
  - destruct (chain_cons _ _ _ _ _ HC) as (-> & _). simpl.
    split; [|done]. rewrite bool_decide_false; [done|].
    intros ->. done.
Qed.

(** X20.  [AddPredecessor] on one block leaves the predecessor list
    of every other block as it was, provided the new predecessor is
    not on that list, or is on it but already pointed to what becomes
    its neighbour (as when one block becomes the first predecessor of
    several blocks). *)
Theorem AddPredecessor_keeps_other_lists st this p st' c ps b pb :
  Block.AddPredecessor this p st = Some st' →
  c ≠ this →
  Block.Predecessors st c = Some ps →
  Block.deref st this = Some b → Block.deref st p = Some pb →
  p ∉ ps ∨ Block.neighboring_predecessor_ pb = Block.last_predecessor_ b →
  Block.Predecessors st' c = Some ps.
Proof.
  intros HA Hc HP D Dp Hcond.
  apply Predecessors_chain in HP as (bc & Dc & HC).
  unfold Block.AddPredecessor in HA. rewrite D, Dp in HA. simpl in HA.
  destruct (Block.deref (<[p := _]> st) this) as [bm|] eqn:Dm;
    simpl in HA; [|done].
  injection HA as <-.
  pose proof (deref_lt _ _ _ D) as Lthis.
  pose proof (deref_lt _ _ _ Dp) as Lp.
  set (pb' := Block.with_neighboring_predecessor (Block.last_predecessor_ b) pb)
    in *.
  assert (∀ q, q ≠ p ∨ Block.neighboring_predecessor_ pb
                       = Block.last_predecessor_ b →
               Block.neighboring_predecessor_
                 <$> Block.deref (<[this := Some (Block.with_last_predecessor
                                                   (Some p) bm)]>
                                    (<[p := Some pb']> st)) q
               = Block.neighboring_predecessor_ <$> Block.deref st q) as Hn.
  { intros q Hq. destruct (decide (q = this)) as [->|Hqt].
    - rewrite deref_insert_eq by (by rewrite length_insert). rewrite D. simpl.
      destruct (decide (this = p)) as [->|Htp].
      + rewrite deref_insert_eq in Dm by done. injection Dm as <-.
        simpl. destruct Hq as [?|Hq]; [done|].
        assert (pb = b) as -> by congruence. by rewrite Hq.
      + rewrite deref_insert_ne in Dm by done.
        assert (bm = b) as -> by congruence. done.
    - rewrite deref_insert_ne by done.
      destruct (decide (q = p)) as [->|Hqp].
      + rewrite deref_insert_eq by done. rewrite Dp. simpl.
        destruct Hq as [?|Hq]; [done|]. by rewrite Hq.
      + by rewrite deref_insert_ne by done. }
  apply Predecessors_chain.
  assert (∃ bc', Block.deref (<[this := Some (Block.with_last_predecessor
                                               (Some p) bm)]>
                                (<[p := Some pb']> st)) c = Some bc' ∧
                 Block.last_predecessor_ bc' = Block.last_predecessor_ bc)
    as (bc' & Dc' & El).
  { rewrite deref_insert_ne by done.
    destruct (decide (c = p)) as [->|Hcp].
    - rewrite deref_insert_eq by done. eexists. split; [done|].
      assert (pb = bc) as -> by congruence. done.
    - rewrite deref_insert_ne by done. eauto. }
  exists bc'. split; [done|]. rewrite El, !length_insert.
  eapply chain_frame; [exact HC|].
  intros q Hq. apply Hn.
  destruct Hcond as [Hnot|Heq]; [|by right].
  left. intros ->. apply Hnot. by rewrite elem_of_reverse in Hq.
Qed.

End BlockExtras.

Section PoolExtras.

(** X21.  [NewBlock] never hands out a block that is live: the block
    it returns was not handed out since the last [Reset], it is live
    afterwards, and every block that was live stays live, is another
    block, and keeps its content. *)
Theorem NewBlock_is_fresh kind g st p g' st' :
  pool_wf g st →
  Graph.next_block_ g + 1 < 2 ^ 64 →
  Graph.NewBlock kind g st = Some (p, g', st') →
  ¬ live g p ∧ live g' p ∧
  ∀ q, live g q →
       live g' q ∧ q ≠ p ∧ Block.deref st' q = Block.deref st q.
Proof.
  intros Hwf Hnext HN.
  change (2 ^ 64) with 18446744073709551616 in Hnext.
  pose proof (pool_cursor _ _ Hwf) as Hcur.
  destruct (NewBlock_spec kind g st Hwf)
    as (p0 & g0 & st0 & HN0 & _ & Hwf' & Hn' & _ & Hp & Hkeep).
  rewrite HN in HN0. injection HN0 as <- <- <-.
  rewrite usize_small in Hn' by lia.
  pose proof (pool_nodup _ _ Hwf') as Hnd.
  assert (¬ live g p) as Hfresh.
  { intros (n & Hn & Hl). destruct (Hkeep n p Hn Hl) as [Hl' _].
    pose proof (NoDup_lookup _ _ _ _ Hnd Hl' Hp). lia. }
  split; [done|]. split.
  { exists (Z.to_nat (Graph.next_block_ g)). split; [lia|done]. }
  intros q (n & Hn & Hl). destruct (Hkeep n q Hn Hl) as [Hl' Hd].
  split; [exists n; split; [lia|done]|]. split; [|done].
  intros ->. apply Hfresh. by exists n.
Qed.

(** X22.  The pool of blocks grows by whole arrays of 64 and only
    when every block of it has been handed out; otherwise [NewBlock]
    takes the block under the cursor and allocates nothing. *)
Theorem NewBlock_allocates_in_batches kind g st p g' st' :
  Graph.NewBlock kind g st = Some (p, g', st') →
  Graph.all_blocks_ g' !! Z.to_nat (Graph.next_block_ g) = Some p ∧
  (Graph.next_block_ g = Z.of_nat (length (Graph.all_blocks_ g)) →
   length st' = (length st + 64)%nat ∧
   Graph.all_blocks_ g' = Graph.all_blocks_ g ++ seq (length st) 64) ∧
  (Graph.next_block_ g ≠ Z.of_nat (length (Graph.all_blocks_ g)) →
   length st' = length st ∧ Graph.all_blocks_ g' = Graph.all_blocks_ g).
Proof.
  unfold Graph.NewBlock. intros HN.
  destruct (decide (Graph.next_block_ g = _)) as [Hfull|Hroom].
  - simpl in HN.
    destruct (_ !! _) as [r|] eqn:L; simpl in HN; [|done].
    destruct (decide _); [|done]. injection HN as <- <- <-. simpl.
    split; [done|]. split; [|done]. intros _.
    rewrite length_insert, length_app. unfold NewArray.
    rewrite length_replicate. done.
  - destruct (_ !! _) as [r|] eqn:L; simpl in HN; [|done].
    destruct (decide _); [|done]. injection HN as <- <- <-. simpl.
    split; [done|]. split; [done|]. intros _.
    by rewrite length_insert.
Qed.

(** X23.  [Reset] keeps the pool and the capacity and forgets the
    rest: no block is bound, the next identifier is the first one,
    and the next [NewBlock] hands out the first block of the pool
    again without allocating. *)
Theorem Reset_recycles_blocks kind g st p0 :
  pool_wf g st →
  Graph.all_blocks_ g !! 0%nat = Some p0 →
  Graph.NewBlock kind (Graph.Reset g) st
  = Some (p0, Graph.with_next_block 1 (Graph.Reset g),
          <[p0 := Some (Block.new kind)]> st) ∧
  pool_wf (Graph.Reset g) st ∧
  Graph.block_count (Graph.Reset g) = 0 ∧
  Graph.next_operation_index (Graph.Reset g)
  = OperationBuffer.BeginIndex (Graph.operations_ g) ∧
  OperationBuffer.capacity (Graph.operations_ (Graph.Reset g))
  = OperationBuffer.capacity (Graph.operations_ g) ∧
  Graph.all_blocks_ (Graph.Reset g) = Graph.all_blocks_ g.
Proof.
  intros [Hnd Hall Hcur] H0.
  pose proof (lookup_lt_Some _ _ _ H0) as Hlen.
  assert (p0 < length st)%nat as Hp.
  { rewrite Forall_forall in Hall. apply Hall.
    by eapply list_elem_of_lookup_2. }
  split; [|split; [|done]].
  - unfold Graph.NewBlock. simpl.
    rewrite decide_False by lia. simpl.
    change (Z.to_nat 0) with 0%nat. rewrite H0. simpl.
    rewrite decide_True by done. done.
  - constructor; simpl; [done|done|lia].
Qed.

Lemma run_call_bound_prefix K c g st g' st' :
  run_call K c g st = Some (g', st') → c ≠ CallReset →
  Graph.bound_blocks_ g `prefix_of` Graph.bound_blocks_ g'.
Proof.
  intros HR Hc. destruct c; simpl in HR; try done.
  - unfold Graph.NewBlock in HR.
    destruct (decide _); simpl in HR;
      (destruct (_ !! _); simpl in HR; [|done]);
      (destruct (decide _); simpl in HR; [|done]);
      by injection HR as <- <-.
  - unfold Graph.Add in HR.
    destruct (Block.deref st block); simpl in HR; [|done].
    destruct (_ && _); simpl in HR; [by injection HR as <- <-|].
    destruct (Block.all_deferred _ _ _); simpl in HR; [|done].
    injection HR as <- <-. simpl. by apply prefix_app_r.
  - destruct (Block.AddPredecessor _ _ _); simpl in HR; [|done].
    by injection HR as <- <-.
  - destruct (Block.deref st block); simpl in HR; [|done].
    by injection HR as <- <-.
  - destruct (Graph.Finalize _ _ _); simpl in HR; [|done].
    by injection HR as <- <-.
  - unfold Graph.Add_op, Graph.Op_New, Graph.Allocate in HR.
    destruct (OperationBuffer.Allocate _ _ _) as [[??]|]; simpl in HR; [|done].
    destruct (write_slots _ _ _); simpl in HR; [|done].
    by injection HR as <- <-.
Qed.

(** X24.  Between two [Reset]s the list of bound blocks only grows at
    its end: whatever a phase calls, a block that is bound stays at
    its position, [Get(BlockIndex)] keeps returning it, and
    [StartBlock()] stays the block that was bound first. *)
Theorem bound_blocks_append_only K cs g st g' st' i p :
  run_calls K cs g st = Some (g', st') →
  CallReset ∉ cs →
  Graph.bound_blocks_ g !! i = Some p →
  Graph.bound_blocks_ g `prefix_of` Graph.bound_blocks_ g' ∧
  Graph.Get_block g' (mkBlockIndex (Z.of_nat i)) = Some p ∧
  is_Some (GraphRanges.StartBlock g) ∧
  GraphRanges.StartBlock g' = GraphRanges.StartBlock g.
Proof.
  intros HR Hno Hi.
  assert (Graph.bound_blocks_ g `prefix_of` Graph.bound_blocks_ g') as Hpre.
  { clear Hi. revert g st HR Hno.
    induction cs as [|c cs IH]; intros g st HR Hno; simpl in HR.
    - by injection HR as <- <-.
    - destruct (run_call K c g st) as [[g1 st1]|] eqn:E; simpl in HR; [|done].
      rewrite not_elem_of_cons in Hno. destruct Hno as [Hc Hno].
      etrans; [eapply run_call_bound_prefix; [exact E|done]|].
      by eapply IH. }
  split; [done|]. destruct Hpre as [more Hmore].
  pose proof (lookup_lt_Some _ _ _ Hi) as Hlen.
  unfold GraphRanges.StartBlock, Graph.Get_block. simpl.
  rewrite Nat2Z.id, Hmore.
  split; [by apply lookup_app_l_Some|].
  change (Z.to_nat (u32 0)) with 0%nat.
  split; [apply lookup_lt_is_Some_2; lia|].
  apply lookup_app_l. lia.
Qed.

End PoolExtras.

(** The properties of blocks and of the pool at work on small graphs. *)

Lemma Predecessors_lists_distinct_blocks_witness :
  ∃ st,
    add_predecessors 2 [0; 1]%nat
      [Some (Block.new Block.kBranchTarget);
       Some (Block.new Block.kBranchTarget);
       Some (Block.new Block.kMerge)] = Some st ∧
    Block.Predecessors st 2%nat = Some [0; 1]%nat ∧
    NoDup [0; 1]%nat ∧
    last [0; 1]%nat = Some 1%nat.
Proof.
  eexists. split; [vm_compute; reflexivity|]. split; [vm_compute; reflexivity|].
  match goal with
  | |- NoDup ?PS ∧ _ =>
      destruct (Predecessors_lists_distinct_blocks
                  [Some (Block.with_neighboring_predecessor None
                           (Block.new Block.kBranchTarget));
                   Some (Block.with_neighboring_predecessor (Some 0%nat)
                           (Block.new Block.kBranchTarget));
                   Some (Block.with_last_predecessor (Some 1%nat)
                           (Block.new Block.kMerge))]
                  2%nat
                  (Block.with_last_predecessor (Some 1%nat)
                     (Block.new Block.kMerge))
                  PS) as (H1 & _ & _ & _ & H5)
  end.
  - reflexivity.
  - vm_compute. reflexivity.
  - split; [exact H1|exact H5].
Defined.

Lemma AddPredecessor_keeps_other_lists_witness :
  ∃ st st',
    Block.AddPredecessor 1%nat 0%nat
      [Some (Block.new Block.kBranchTarget);
       Some (Block.new Block.kBranchTarget);
       Some (Block.new Block.kBranchTarget)] = Some st ∧
    Block.AddPredecessor 2%nat 0%nat st = Some st' ∧
    Block.Predecessors st 1%nat = Some [0%nat] ∧
    Block.Predecessors st' 1%nat = Some [0%nat] ∧
    Block.Predecessors st' 2%nat = Some [0%nat].
Proof.
  eexists _, _. split; [vm_compute; reflexivity|].
  split; [vm_compute; reflexivity|]. split; [vm_compute; reflexivity|].
  split; [|vm_compute; reflexivity].
  match goal with
  | |- Block.Predecessors ?ST' _ = _ =>
      eapply (AddPredecessor_keeps_other_lists
                [Some (Block.new Block.kBranchTarget);
                 Some (Block.with_last_predecessor (Some 0%nat)
                         (Block.new Block.kBranchTarget));
                 Some (Block.new Block.kBranchTarget)]
                2%nat 0%nat ST' 1%nat [0%nat])
  end.
  - vm_compute. reflexivity.
  - lia.
  - vm_compute. reflexivity.
  - reflexivity.
  - reflexivity.
  - right. reflexivity.
Defined.

Lemma NewBlock_is_fresh_witness :
  ∃ g st p g' st',
    run_calls 2 [CallNewBlock Block.kMerge] (Graph.new 2 0%nat 4) []
    = Some (g, st) ∧
    Graph.NewBlock Block.kBranchTarget g st = Some (p, g', st') ∧
    ¬ live g p ∧ live g' p ∧
    ∀ q, live g q →
         live g' q ∧ q ≠ p ∧ Block.deref st' q = Block.deref st q.
Proof.
  eexists _, _, _, _, _. split; [vm_compute; reflexivity|].
  split; [vm_compute; reflexivity|].
  eapply (NewBlock_is_fresh Block.kBranchTarget).
  - constructor; simpl.
    + exact (NoDup_seq 0 64).
    + apply Forall_forall. intros q Hq. apply (elem_of_seq 0 64) in Hq.
      simpl. lia.
    + lia.
  - reflexivity.
  - vm_compute. reflexivity.
Defined.

Lemma NewBlock_allocates_in_batches_witness :
  ∃ p g' st',
    Graph.NewBlock Block.kMerge (Graph.new 2 0%nat 4) []
    = Some (p, g', st') ∧
    Graph.all_blocks_ g' !! 0%nat = Some p ∧
    length st' = 64%nat ∧
    Graph.all_blocks_ g' = seq 0 64.
Proof.
  eexists _, _, _. split; [vm_compute; reflexivity|].
  match goal with
  | |- Graph.all_blocks_ ?G' !! _ = Some ?P ∧ length ?ST' = _ ∧ _ =>
      destruct (NewBlock_allocates_in_batches Block.kMerge
                  (Graph.new 2 0%nat 4) [] P G' ST') as (H1 & H2 & _)
  end.
  - vm_compute. reflexivity.
  - split; [exact H1|]. exact (H2 eq_refl).
Defined.

Lemma Reset_recycles_blocks_witness :
  ∃ g st,
    run_calls 2 [CallNewBlock Block.kMerge; CallAdd 0%nat; CallAddOp [1; 2];
                 CallFinalize 0%nat]
      (Graph.new 2 0%nat 4) [] = Some (g, st) ∧
    Graph.NewBlock Block.kLoopHeader (Graph.Reset g) st
    = Some (0%nat, Graph.with_next_block 1 (Graph.Reset g),
            <[0%nat := Some (Block.new Block.kLoopHeader)]> st) ∧
    Graph.block_count (Graph.Reset g) = 0.
Proof.
  eexists _, _. split; [vm_compute; reflexivity|].
  match goal with
  | |- Graph.NewBlock _ (Graph.Reset ?G) ?ST = _ ∧ _ =>
      destruct (Reset_recycles_blocks Block.kLoopHeader G ST 0%nat)
        as (H1 & _ & H3 & _)
  end.
  - constructor; simpl.
    + exact (NoDup_seq 0 64).
    + apply Forall_forall. intros q Hq. apply (elem_of_seq 0 64) in Hq.
      simpl. lia.
    + lia.
  - reflexivity.
  - split; [exact H1|exact H3].
Defined.

Lemma bound_blocks_append_only_witness :
  ∃ g st g' st',
    run_calls 2 [CallNewBlock Block.kMerge; CallAdd 0%nat]
      (Graph.new 2 0%nat 4) [] = Some (g, st) ∧
    run_calls 2 [CallNewBlock Block.kBranchTarget;
                 CallAddPredecessor 1%nat 0%nat; CallAddOp [1; 2];
                 CallFinalize 0%nat; CallAdd 1%nat] g st = Some (g', st') ∧
    Graph.Get_block g' (mkBlockIndex (Z.of_nat 0)) = Some 0%nat ∧
    GraphRanges.StartBlock g' = GraphRanges.StartBlock g.
Proof.
  let r := eval vm_compute in
    (run_calls 2 [CallNewBlock Block.kMerge; CallAdd 0%nat]
       (Graph.new 2 0%nat 4) []) in
  lazymatch r with
  | Some (?G, ?ST) =>
      let r' := eval vm_compute in
        (run_calls 2 [CallNewBlock Block.kBranchTarget;
                      CallAddPredecessor 1%nat 0%nat; CallAddOp [1; 2];
                      CallFinalize 0%nat; CallAdd 1%nat] G ST) in
      lazymatch r' with
      | Some (?G', ?ST') =>
          exists G, ST, G', ST';
          split; [vm_compute; reflexivity|];
          split; [vm_compute; reflexivity|];
          destruct (bound_blocks_append_only 2
                      [CallNewBlock Block.kBranchTarget;
                       CallAddPredecessor 1%nat 0%nat; CallAddOp [1; 2];
                       CallFinalize 0%nat; CallAdd 1%nat]
                      G ST G' ST' 0%nat 0%nat) as (_ & H2 & _ & H4);
          [ vm_compute; reflexivity
          | rewrite !not_elem_of_cons; repeat split; try discriminate;
            apply not_elem_of_nil
          | reflexivity
          | split; [exact H2|exact H4] ]
      end
  end.
Defined.

(** * Properties of the conservative stack visitor *)

Section VisitorFacts.
Import ConservativeStackVisitor.
Variable kNullAddress : Z.
Variable FindBasePtr : MemoryChunk → Z → Z.
Variable Size : Z → Z.
Variable GetObject : MemoryChunk → Z.
Variable Delegate : Type.
Variable VisitRootPointer : Z → Delegate → Delegate.

Local Abbreviation CheckPage :=
  (CheckPage kNullAddress FindBasePtr Size Delegate VisitRootPointer).
Local Abbreviation VisitConservativelyIfPointer :=
  (VisitConservativelyIfPointer kNullAddress FindBasePtr Size GetObject
     Delegate VisitRootPointer).

Lemma CheckPage_spec address page d :
  (CheckPage address page d = (false, d)) ∨
  (CheckPage address page d
   = (true, VisitRootPointer (FindBasePtr page address) d) ∧
   area_start page ≤ address < area_end page ∧
   FindBasePtr page address ≠ kNullAddress ∧
   address < usize (FindBasePtr page address
                    + Size (FindBasePtr page address))).
Proof.
  unfold ConservativeStackVisitor.CheckPage.
  destruct (decide (_ ∨ _)); [by left|].
  destruct (decide (_ = _)); [by left|].
  destruct (decide (_ ≤ _)); [by left|].
  right. split; [done|]. lia.
Qed.

Lemma visit_lo_space_spec address lo d :
  let d' := visit_lo_space GetObject Delegate VisitRootPointer address lo d in
  (d' = d ∧ Forall (λ page, ¬ (area_start page ≤ address < area_end page)) lo) ∨
  (∃ pre page post,
     lo = pre ++ page :: post ∧
     Forall (λ page, ¬ (area_start page ≤ address < area_end page)) pre ∧
     area_start page ≤ address < area_end page ∧
     d' = VisitRootPointer (GetObject page) d).
Proof.
  induction lo as [|page lo IH]; simpl; [by left|].
  destruct (decide _) as [Hin|Hout].
  - right. exists [], page, lo.
    split; [done|]. split; [constructor|]. split; [lia|done].
  - destruct IH as [[-> Hall]|(pre & page' & post & -> & Hpre & Hin & ->)].
    + left. split; [done|]. constructor; [lia|done].
    + right. exists (page :: pre), page', post.
      split; [done|]. split; [constructor; [lia|done]|]. split; [lia|done].
Qed.

(** X25.  For one stack word the visitor reports at most one root to
    its delegate, and only a root that the word points into: the base
    object the bitmap of an old-space page finds for it, when the word
    lies in the area of the page and before the end of that object; or
    the object of a large page whose area holds the word. *)
Theorem visitor_reports_at_most_one_root old_space lo_space pointer d :
  let d' := VisitConservativelyIfPointer old_space lo_space pointer d in
  d' = d ∨
  (∃ page,
     page ∈ old_space ∧
     area_start page ≤ pointer < area_end page ∧
     FindBasePtr page pointer ≠ kNullAddress ∧
     pointer < usize (FindBasePtr page pointer
                      + Size (FindBasePtr page pointer)) ∧
     d' = VisitRootPointer (FindBasePtr page pointer) d) ∨
  (∃ page,
     page ∈ lo_space ∧
     area_start page ≤ pointer < area_end page ∧
     d' = VisitRootPointer (GetObject page) d).
Proof.
  unfold ConservativeStackVisitor.VisitConservativelyIfPointer.
  induction old_space as [|page old IH]; simpl.
  - destruct (visit_lo_space_spec pointer lo_space d)
      as [[-> _]|(pre & page & post & -> & _ & Hin & ->)]; [by left|].
    right. right. exists page. split; [|done].
    apply elem_of_app. right. left.
  - destruct (CheckPage_spec pointer page d) as [->|(-> & Hin & Hb & He)].
    + destruct IH as [IH|[(q & Hq & IH)|IH]]; [by left| |by right; right].
      right. left. exists q. split; [by right|done].
    + right. left. exists page. split; [left|done].
Qed.

(** X26.  The pages are tried in iteration order and the first hit
    ends the visit: the first old-space page whose check succeeds
    supplies the root, and a large page is looked at only when the
    check fails on every old-space page, in which case the first large
    page whose area holds the word supplies it. *)
Theorem visitor_first_hit_wins old_pre lo_pre page post lo_space pointer d :
  Forall (λ q, (CheckPage pointer q d).1 = false) old_pre →
  ((CheckPage pointer page d).1 = true →
   VisitConservativelyIfPointer (old_pre ++ page :: post) lo_space pointer d
   = VisitRootPointer (FindBasePtr page pointer) d) ∧
  (Forall (λ q, ¬ (area_start q ≤ pointer < area_end q)) lo_pre →
   area_start page ≤ pointer < area_end page →
   VisitConservativelyIfPointer old_pre (lo_pre ++ page :: post) pointer d
   = VisitRootPointer (GetObject page) d).
Proof.
  unfold ConservativeStackVisitor.VisitConservativelyIfPointer.
  intros Hpre. split.
  - intros Hhit. induction Hpre as [|q pre Hq _ IH]; simpl.
    + destruct (CheckPage_spec pointer page d) as [E|(E & _)];
        rewrite E in *; done.
    + destruct (CheckPage_spec pointer q d) as [E|(E & _)];
        rewrite E in *; done.
  - intros Hlo Hin. induction Hpre as [|q pre Hq _ IH]; simpl.
    + induction Hlo as [|q lo Hq _ IH]; simpl.
      * by rewrite decide_True by lia.
      * by rewrite decide_False by lia.
    + destruct (CheckPage_spec pointer q d) as [E|(E & _)];
        rewrite E in *; done.
Qed.

End VisitorFacts.

(** The visitor on two pages, with a delegate that lists the roots it
    is given. *)
Lemma visitor_first_hit_wins_witness :
  ConservativeStackVisitor.VisitConservativelyIfPointer 0
    (λ page _, ConservativeStackVisitor.area_start page) (λ _, 16)
    ConservativeStackVisitor.area_start (list Z) cons
    [ConservativeStackVisitor.mkMemoryChunk 0 100 200;
     ConservativeStackVisitor.mkMemoryChunk 1 300 400]
    [ConservativeStackVisitor.mkMemoryChunk 2 300 900] 305 []
  = [300].
Proof.
  refine (proj1
    (visitor_first_hit_wins 0
       (λ page _, ConservativeStackVisitor.area_start page) (λ _, 16)
       ConservativeStackVisitor.area_start (list Z) cons
       [ConservativeStackVisitor.mkMemoryChunk 0 100 200] []
       (ConservativeStackVisitor.mkMemoryChunk 1 300 400) []
       [ConservativeStackVisitor.mkMemoryChunk 2 300 900] 305 [] _) _).
  - constructor; [reflexivity|constructor].
  - reflexivity.
Defined.


(** * Properties of the sweeper's lists *)

Section SweeperFacts.
Import Sweeper.
Variables OLD_SPACE CODE_SPACE MAP_SPACE : Z.
Variables FIRST_GROWABLE_PAGED_SPACE LAST_GROWABLE_PAGED_SPACE : Z.

Local Abbreviation IsValidSweepingSpace :=
  (IsValidSweepingSpace FIRST_GROWABLE_PAGED_SPACE LAST_GROWABLE_PAGED_SPACE).
Local Abbreviation GetSweepSpaceIndex :=
  (GetSweepSpaceIndex FIRST_GROWABLE_PAGED_SPACE).
Local Abbreviation kNumberOfSweepingSpaces :=
  (kNumberOfSweepingSpaces FIRST_GROWABLE_PAGED_SPACE LAST_GROWABLE_PAGED_SPACE).

Lemma sweep_space_index_in_range space :
  IsValidSweepingSpace space = true →
  0 ≤ GetSweepSpaceIndex space < kNumberOfSweepingSpaces.
Proof.
  unfold Sweeper.IsValidSweepingSpace, Sweeper.GetSweepSpaceIndex,
    Sweeper.kNumberOfSweepingSpaces.
  rewrite andb_true_iff, !Z.leb_le. lia.
Qed.

Lemma at_index_in_range (a : list SweepingList) i :
  0 ≤ i < Z.of_nat (length a) → is_Some (at_index a i).
Proof.
  intros Hi. unfold at_index. rewrite decide_True by lia.
  apply lookup_lt_is_Some_2. lia.
Qed.

(** X27.  When the three spaces [ForAllSweepingSpaces] names are
    valid sweeping spaces, [IsDoneSweeping] reads inside the array of
    [kNumberOfSweepingSpaces] lists, and it answers true exactly when
    the lists of all three spaces are empty. *)
Theorem IsDoneSweeping_iff_lists_empty (sweeping_list_ : list SweepingList) :
  Z.of_nat (length sweeping_list_) = kNumberOfSweepingSpaces →
  IsValidSweepingSpace OLD_SPACE = true →
  IsValidSweepingSpace CODE_SPACE = true →
  IsValidSweepingSpace MAP_SPACE = true →
  ∃ is_done,
    IsDoneSweeping OLD_SPACE CODE_SPACE MAP_SPACE FIRST_GROWABLE_PAGED_SPACE
      sweeping_list_ = Some is_done ∧
    (is_done = true ↔
     ∀ space, space ∈ [OLD_SPACE; CODE_SPACE; MAP_SPACE] →
              at_index sweeping_list_ (GetSweepSpaceIndex space) = Some []).
Proof.
  intros Hlen Ho Hc Hm.
  apply sweep_space_index_in_range in Ho, Hc, Hm.
  destruct (at_index_in_range sweeping_list_ (GetSweepSpaceIndex OLD_SPACE))
    as [lo Eo]; [lia|].
  destruct (at_index_in_range sweeping_list_ (GetSweepSpaceIndex CODE_SPACE))
    as [lc Ec]; [lia|].
  destruct (at_index_in_range sweeping_list_ (GetSweepSpaceIndex MAP_SPACE))
    as [lm Em]; [lia|].
  unfold IsDoneSweeping, ForAllSweepingSpaces. simpl.
  rewrite Eo. simpl. rewrite Ec. simpl. rewrite Em. simpl.
  eexists. split; [done|].
  split.
  - intros H space Hs.
    destruct lo; [|by destruct lc, lm].
    destruct lc; [|by destruct lm].
    destruct lm; [|done].
    rewrite !elem_of_cons, elem_of_nil in Hs.
    destruct Hs as [->|[->|[->|[]]]]; done.
  - intros H.
    rewrite (H OLD_SPACE) in Eo by (left).
    rewrite (H CODE_SPACE) in Ec by (right; left).
    rewrite (H MAP_SPACE) in Em by (right; right; left).
    injection Eo as <-. injection Ec as <-. injection Em as <-. done.
Qed.

Lemma filter_loop_spec {S : Type} (callback : Page → S → bool * S)
    it lists s lists' s' l :
  filter_loop OLD_SPACE FIRST_GROWABLE_PAGED_SPACE callback it lists s
  = Some (lists', s') →
  at_index lists (GetSweepSpaceIndex OLD_SPACE) = Some l →
  ∃ added,
    added `sublist_of` it ∧
    lists' = <[Z.to_nat (GetSweepSpaceIndex OLD_SPACE) := l ++ added]> lists.
Proof.
  revert lists s l. induction it as [|page rest IH]; intros lists s l; simpl.
  - intros [= <- <-] Hl. exists []. split; [done|].
    rewrite app_nil_r. unfold at_index in Hl.
    destruct (decide _); [|done]. by rewrite list_insert_id.
  - destruct (callback page s) as [keep s1]. destruct keep; simpl.
    + unfold push_back_at. intros HF Hl. rewrite Hl in HF. simpl in HF.
      assert (at_index (<[Z.to_nat (GetSweepSpaceIndex OLD_SPACE)
                          := l ++ [page]]> lists)
                (GetSweepSpaceIndex OLD_SPACE) = Some (l ++ [page])) as Hl'.
      { unfold at_index in *. destruct (decide _); [|done].
        apply list_lookup_insert_eq. by eapply lookup_lt_Some. }
      destruct (IH _ _ _ HF Hl') as (added & Hsub & ->).
      exists (page :: added). split; [by constructor|].
      by rewrite list_insert_insert_eq, <- app_assoc.
    + intros HF Hl. destruct (IH _ _ _ HF Hl) as (added & Hsub & ->).
      exists added. split; [by constructor|done].
Qed.

(** X28.  [FilterOldSpaceSweepingPages] only appends to the old-space
    sweeping list of the sweeper: the entries that were there stay in
    front, the appended pages are pages of the saved list in the order
    of that list, the lists of the other spaces and the saved list
    itself are not touched, and nothing at all happens when sweeping is
    not in progress. *)
Theorem FilterOldSpaceSweepingPages_appends {S : Type}
    (callback : Page → S → bool * S) scope lists s lists' s' l :
  FilterOldSpaceSweepingPages OLD_SPACE FIRST_GROWABLE_PAGED_SPACE
    callback scope lists s = Some (lists', s') →
  at_index lists (GetSweepSpaceIndex OLD_SPACE) = Some l →
  (sweeping_in_progress_ scope = false ∧ lists' = lists ∧ s' = s) ∨
  (sweeping_in_progress_ scope = true ∧
   ∃ added,
     added `sublist_of` old_space_sweeping_list_ scope ∧
     at_index lists' (GetSweepSpaceIndex OLD_SPACE) = Some (l ++ added) ∧
     length lists' = length lists ∧
     ∀ i, i ≠ GetSweepSpaceIndex OLD_SPACE →
          at_index lists' i = at_index lists i).
Proof.
  unfold FilterOldSpaceSweepingPages. intros HF Hl.
  destruct (sweeping_in_progress_ scope); simpl in HF.
  - right. split; [done|].
    destruct (filter_loop_spec _ _ _ _ _ _ _ HF Hl) as (added & Hsub & ->).
    exists added. split; [done|].
    unfold at_index in *. destruct (decide (0 ≤ _)) as [H0|]; [|done].
    split; [|split].
    + apply list_lookup_insert_eq. by eapply lookup_lt_Some.
    + by rewrite length_insert.
    + intros i Hi. destruct (decide (0 ≤ i)); [|done].
      apply list_lookup_insert_ne. lia.
  - left. by injection HF as <- <-.
Qed.

End SweeperFacts.

Lemma IsDoneSweeping_iff_lists_empty_witness :
  Sweeper.IsDoneSweeping 1 2 3 1 [[]; [5%nat]; []] = Some false.
Proof.
  destruct (IsDoneSweeping_iff_lists_empty 1 2 3 1 3 [[]; [5%nat]; []])
    as (is_done & E & _); try reflexivity.
Defined.

Lemma FilterOldSpaceSweepingPages_appends_witness :
  ∃ lists' s',
    Sweeper.FilterOldSpaceSweepingPages 1 1
      (λ page (calls : nat), (Nat.even page, S calls))
      (Sweeper.mkFilterSweepingPagesScope [4; 5; 6]%nat true)
      [[9%nat]; []; []] 0%nat = Some (lists', s') ∧
    Sweeper.at_index lists' (Sweeper.GetSweepSpaceIndex 1 1)
    = Some [9; 4; 6]%nat ∧
    length lists' = 3%nat.
Proof.
  eexists _, _. split; [vm_compute; reflexivity|].
  split; [reflexivity|].
  match goal with
  | |- length ?L = _ =>
      destruct (FilterOldSpaceSweepingPages_appends 1 1
                  (λ page (calls : nat), (Nat.even page, S calls))
                  (Sweeper.mkFilterSweepingPagesScope [4; 5; 6]%nat true)
                  [[9%nat]; []; []] 0%nat L 3%nat [9%nat])
        as [(H & _)|(_ & added & _ & _ & H & _)]
  end.
  - vm_compute. reflexivity.
  - reflexivity.
  - discriminate H.
  - exact H.
Defined.

